(** * W3bStream: event dispatch and WASM host core

    A shallow embedding of the instance registry ([pkg/modules/vm]), the
    host ABI ([pkg/modules/vm/wasmtime/instance_exports.go]), the event
    dispatcher ([pkg/modules/event]) and the asynchronous API-call worker
    ([pkg/modules/vm/wasmapi/async/processor.go]), with the properties the
    specification states about them. *)

From Stdlib Require Import ZArith Lia List.
From Stdlib Require Import Strings.String Strings.Ascii Strings.Byte.
From stdpp Require Import base option gmap strings list pretty.

Open Scope Z_scope.

(** ** Go values *)

(** A Go [[]byte] that is not nil. *)
Abbreviation bytes := (list Byte.byte).

(** [string(buf)] and [[]byte(s)]. *)
Definition string_of_bytes (b : bytes) : string := string_of_list_byte b.
Definition bytes_of_string (s : string) : bytes := list_byte_of_string s.

(** [int32] and [uint32] as integers with their ranges. *)
Definition int32_min : Z := - 2 ^ 31.
Definition int32_max : Z := 2 ^ 31 - 1.
Definition is_int32 (z : Z) : Prop := int32_min <= z <= int32_max.

(** The conversion [uint32(x)] of an [int32]: wrap-around modulo 2^32. *)
Definition uint32 (z : Z) : Z := z mod 2 ^ 32.

(** ** The instance registry: package [vm] *)

Module vm.

(** Modelled from the spec: the enumeration [wasm.InstanceState] is declared
    in [pkg/types/wasm], which is not among the sources; the four states
    are those of the specification's lifecycle state machine. *)
Inductive InstanceState :=
| InstanceState_Created
| InstanceState_Started
| InstanceState_Stopped
| InstanceState_Destroyed.

#[global] Instance InstanceState_eq_dec : EqDecision InstanceState.
Proof. solve_decision. Defined.

(** A [wasm.Instance] is an interface value: a reference to an object
    that carries the lifecycle state.  Objects live in a store and the
    registry holds references, so that an instance keeps existing (and
    keeps its state) after its registry entry is gone. *)
Definition ref := positive.

Record InstanceObj := { obj_state : InstanceState }.

(** What the registry and the instances did, in the order it happened. *)
Inductive Event :=
| EvStored (id : Z) (i : ref)
| EvRemoved (id : Z)
| EvTransition (i : ref) (from to : InstanceState).

(** [var instances = mapx.New[uint32, wasm.Instance]()] together with
    the objects the references point to. *)
Record World := {
  objs : gmap ref InstanceObj;
  instances : gmap Z ref;
  trace : list Event
}.

Definition empty_world : World :=
  {| objs := ∅; instances := ∅; trace := [] |}.

(** [i.State()]. *)
Definition State (w : World) (i : ref) : option InstanceState :=
  obj_state <$> objs w !! i.

(** Modelled from the spec: [Instance.Stop] is implemented outside the
    sources; by the lifecycle state machine it takes a [STARTED]
    instance to [STOPPED] and leaves any other instance as it is. *)
Definition Stop (w : World) (i : ref) : World :=
  match State w i with
  | Some InstanceState_Started =>
      {| objs := <[i := {| obj_state := InstanceState_Stopped |}]> (objs w);
         instances := instances w;
         trace := trace w ++
                  [EvTransition i InstanceState_Started InstanceState_Stopped] |}
  | _ => w
  end.

(** [instances.Store(id, i)]. *)
Definition Store (w : World) (id : Z) (i : ref) : World :=
  {| objs := objs w;
     instances := <[id := i]> (instances w);
     trace := trace w ++ [EvStored id i] |}.

(** [instances.Load(id)]. *)
Definition Load (w : World) (id : Z) : option ref := instances w !! id.

(** [instances.LoadAndRemove(id)]: the value that was stored, and the
    map without the key. *)
Definition removed (w : World) (id : Z) : World :=
  {| objs := objs w;
     instances := delete id (instances w);
     trace := trace w ++ [EvRemoved id] |}.

Definition LoadAndRemove (w : World) (id : Z) : option ref * World :=
  match instances w !! id with
  | Some i => (Some i, removed w id)
  | None => (None, w)
  end.

(** [AddInstance]: [uuid.New().ID()] is a random [uint32]; the drawn
    number is the argument [id]. *)
Definition AddInstance (w : World) (id : Z) (i : ref) : Z * World :=
  (id, Store w id i).

(** [DelInstance]: the Go function returns [nil] on every path, so only
    the world it leaves is kept. *)
Definition DelInstance (w : World) (id : Z) : World :=
  let '(i, w1) := LoadAndRemove w id in
  match i with
  | Some i =>
      if decide (State w1 i = Some InstanceState_Started)
      then Stop w1 i
      else w1
  | None => w1
  end.

(** [StartInstance] and [StopInstance] return [nil] and touch nothing. *)
Definition StartInstance (w : World) (id : Z) : World := w.
Definition StopInstance (w : World) (id : Z) : World := w.

(** [GetInstanceState]. *)
Definition GetInstanceState (w : World) (id : Z) : InstanceState * bool :=
  (InstanceState_Stopped, true).

(** The state of the instance registered under [id], if there is one. *)
Definition registered_state (w : World) (id : Z) : option InstanceState :=
  Load w id ≫= State w.

(** The registry operations a client can perform, and their runs. *)
Inductive Op :=
| OpAdd (id : Z) (o : InstanceObj)
| OpDel (id : Z)
| OpStart (id : Z)
| OpStop (id : Z).

Definition step (w : World) (op : Op) : World :=
  match op with
  | OpAdd id o =>
      let i := fresh (dom (objs w)) in
      snd (AddInstance {| objs := <[i := o]> (objs w);
                          instances := instances w;
                          trace := trace w |} id i)
  | OpDel id => DelInstance w id
  | OpStart id => StartInstance w id
  | OpStop id => StopInstance w id
  end.

Definition run (ops : list Op) : World := fold_left step ops empty_world.

End vm.

(** ** Errors *)

(** The keys of [pkg/errors/status] the dispatcher returns. *)
Inductive StatusError :=
| InvalidAuthValue
| InvalidAuthPorjectID
| NoProjectPermission.

(** A Go [error] value: one made by [errors.New] (or handed over by a
    collaborator) with its message, a [status.Error], or one made by
    [fmt.Errorf] with a [%w] verb, which wraps its target. *)
Inductive error :=
| errors_New (msg : string)
| status_Error (e : StatusError)
| fmt_Errorf_w (msg : string) (target : error).

#[global] Instance StatusError_eq_dec : EqDecision StatusError.
Proof. solve_decision. Defined.

#[global] Instance error_eq_dec : EqDecision error.
Proof. solve_decision. Defined.

(** [errors.Is(err, target)]: [err] or something it wraps is [target]. *)
Fixpoint errors_Is (err target : error) : bool :=
  bool_decide (err = target) ||
  match err with
  | fmt_Errorf_w _ inner => errors_Is inner target
  | _ => false
  end.

(** Go's [(value, err)] pairs where the value is only used when [err] is
    [nil]. *)
Inductive result (A : Type) :=
| Ok (a : A)
| Err (e : error).
Arguments Ok {A} a.
Arguments Err {A} e.

(** ** Shared types of [pkg/types/wasm] *)

Module wasm.

(** Modelled from the spec: the constants [ResultStatusCode_*] are
    declared in [pkg/types/wasm], which is not among the sources; the
    values are those of the specification's status code registry. *)
Definition ResultStatusCode_OK : Z := 0.
Definition ResultStatusCode_Failed : Z := -1.
Definition ResultStatusCode_ResourceNotFound : Z := -2.
Definition ResultStatusCode_TransDataFromVMFailed : Z := -3.
Definition ResultStatusCode_TransDataToVMFailed : Z := -4.
Definition ResultStatusCode_NoDBContext : Z := -5.
Definition ResultStatusCode_EnvKeyNotFound : Z := -6.
Definition ResultStatusCode_HostInternal : Z := -7.

(** [wasm.EventHandleResult]. *)
Record EventHandleResult := {
  InstanceID : string;
  Code : Z;
  ErrMsg : string
}.

(** The runtime adapter the host functions are written against: the
    guest's linear memory [M] with [Runtime.Read] and [Runtime.Copy].
    [Read] leaves the memory as it is; [Copy] allocates and writes in
    the guest, and may fail after it has changed the memory. *)
Class Runtime (M : Type) := {
  Read : M → Z → Z → result bytes;
  Copy : M → bytes → Z → Z → M * option error
}.

(** What the specification promises of [Copy]: the bytes are written to
    a range of the guest memory, from where the guest reads them. *)
Class RuntimeLaws (M : Type) `{Runtime M} := {
  Copy_Read : ∀ (m m' : M) (data : bytes) (p q : Z),
    Copy m data p q = (m', None) →
    ∃ ptr, Read m' ptr (Z.of_nat (length data)) = Ok data
}.

(** [wasm.KVStore]: [Get] returns a value (nil or not) and an error;
    [Set] returns an error. *)
Class KVStore (K : Type) := {
  Get : K → string → option bytes * option error;
  Set_ : K → string → bytes → K * option error
}.

(** What the specification promises of the store: an upsert that
    succeeded is what a later lookup of the key finds. *)
Class KVStoreLaws (K : Type) `{KVStore K} := {
  Get_Set_eq : ∀ (s s' : K) (k : string) (v : bytes),
    Set_ s k v = (s', None) → Get s' k = (Some v, None);
  Get_Set_ne : ∀ (s s' : K) (k k' : string) (v : bytes),
    Set_ s k v = (s', None) → k' ≠ k → Get s' k' = Get s k'
}.

End wasm.


(** ** The host ABI: package [wasmtime], [instance_exports.go] *)

Module wasmtime.
Import wasm.

(** [conflog.Level], as far as the host functions name it; [Level_of] is
    the conversion [conflog.Level(logLevel)] of a guest-supplied number. *)
Inductive Level :=
| InfoLevel
| ErrorLevel
| Level_of (l : Z).

(** What a log record says: the text of an error ([err.Error()]), the
    text the guest logged, or the line of [GetDB] and [SetDB] with the
    key and the value it prints. *)
Inductive Msg :=
| MsgError (e : error)
| MsgText (s : string)
| MsgGetDB (key val : string)
| MsgSetDB (key val : string).

Record LogRecord := { log_level : Level; log_src : string; log_msg : Msg }.

Definition efSrc : string := "wasmExportFunc".
Definition codeSrc : string := "wasmCode".

(** [apitypes.HttpResponse], what [srv.Call] answers. *)
Record HttpResponse := {
  Status : string;
  StatusCode : Z;
  Proto : string;
  Header : list (string * list string);
  Body : bytes
}.

Section ExportFuncs.

Context {M K : Type} `{Runtime M} `{KVStore K}.

(** [ExportFuncs]: the fields the modelled functions use.  [rt] is the
    guest memory behind the runtime, [res] and [evs] are the maps keyed
    by [uint32], [env] is the pointer [*wasm.Env] (nil or a map), [log]
    collects what [logAndPersistToDB] records, [srv] is [srv.Call] and
    [marshal] is [json.Marshal] on its answer. *)
Record ExportFuncs := {
  rt : M;
  res : gmap Z bytes;
  evs : gmap Z bytes;
  env : option (gmap string string);
  kvs : K;
  log : list LogRecord;
  srv : bytes → HttpResponse;
  marshal : HttpResponse → result bytes
}.

Definition set_rt (ef : ExportFuncs) (m : M) : ExportFuncs :=
  {| rt := m; res := res ef; evs := evs ef; env := env ef; kvs := kvs ef;
     log := log ef; srv := srv ef; marshal := marshal ef |}.

Definition set_res (ef : ExportFuncs) (r : gmap Z bytes) : ExportFuncs :=
  {| rt := rt ef; res := r; evs := evs ef; env := env ef; kvs := kvs ef;
     log := log ef; srv := srv ef; marshal := marshal ef |}.

Definition set_kvs (ef : ExportFuncs) (k : K) : ExportFuncs :=
  {| rt := rt ef; res := res ef; evs := evs ef; env := env ef; kvs := k;
     log := log ef; srv := srv ef; marshal := marshal ef |}.

Definition set_log (ef : ExportFuncs) (l : list LogRecord) : ExportFuncs :=
  {| rt := rt ef; res := res ef; evs := evs ef; env := env ef; kvs := kvs ef;
     log := l; srv := srv ef; marshal := marshal ef |}.

(** [logAndPersistToDB]: an empty source is replaced by [efSrc]; the
    record is what the dispatched log task persists. *)
Definition logAndPersistToDB (ef : ExportFuncs) (logLevel : Level)
    (logSrc : string) (msg : Msg) : ExportFuncs :=
  let logSrc := if (String.length logSrc =? 0)%nat then efSrc else logSrc in
  set_log ef (log ef ++
              [{| log_level := logLevel; log_src := logSrc; log_msg := msg |}]).

(** [Log]. *)
Definition Log (ef : ExportFuncs) (logLevel ptr size : Z) : Z * ExportFuncs :=
  match Read (rt ef) ptr size with
  | Err err =>
      (ResultStatusCode_Failed,
       logAndPersistToDB ef ErrorLevel codeSrc (MsgError err))
  | Ok buf =>
      (ResultStatusCode_OK,
       logAndPersistToDB ef (Level_of logLevel) codeSrc
         (MsgText (string_of_bytes buf)))
  end.

(** [ApiCall]. *)
Definition ApiCall (ef : ExportFuncs) (kAddr kSize vmAddrPtr vmSizePtr : Z)
    : Z * ExportFuncs :=
  match Read (rt ef) kAddr kSize with
  | Err err =>
      (ResultStatusCode_TransDataFromVMFailed,
       logAndPersistToDB ef ErrorLevel efSrc (MsgError err))
  | Ok buf =>
      let resp := srv ef buf in
      match marshal ef resp with
      | Err err =>
          (ResultStatusCode_HostInternal,
           logAndPersistToDB ef ErrorLevel efSrc (MsgError err))
      | Ok respJson =>
          match Copy (rt ef) respJson vmAddrPtr vmSizePtr with
          | (m, Some err) =>
              (ResultStatusCode_TransDataToVMFailed,
               logAndPersistToDB (set_rt ef m) ErrorLevel efSrc (MsgError err))
          | (m, None) => (ResultStatusCode_OK, set_rt ef m)
          end
      end
  end.

(** [GetData]. *)
Definition GetData (ef : ExportFuncs) (rid vmAddrPtr vmSizePtr : Z)
    : Z * ExportFuncs :=
  match res ef !! uint32 rid with
  | None => (ResultStatusCode_ResourceNotFound, ef)
  | Some data =>
      match Copy (rt ef) data vmAddrPtr vmSizePtr with
      | (m, Some err) =>
          (ResultStatusCode_TransDataToVMFailed,
           logAndPersistToDB (set_rt ef m) ErrorLevel efSrc (MsgError err))
      | (m, None) => (ResultStatusCode_OK, set_rt ef m)
      end
  end.

(** [SetData]. *)
Definition SetData (ef : ExportFuncs) (rid addr size : Z) : Z * ExportFuncs :=
  match Read (rt ef) addr size with
  | Err err =>
      (ResultStatusCode_TransDataToVMFailed,
       logAndPersistToDB ef ErrorLevel efSrc (MsgError err))
  | Ok buf =>
      (ResultStatusCode_OK, set_res ef (<[uint32 rid := buf]> (res ef)))
  end.

(** [GetDB]. *)
Definition GetDB (ef : ExportFuncs) (kAddr kSize vmAddrPtr vmSizePtr : Z)
    : Z * ExportFuncs :=
  match Read (rt ef) kAddr kSize with
  | Err err =>
      (ResultStatusCode_ResourceNotFound,
       logAndPersistToDB ef ErrorLevel efSrc (MsgError err))
  | Ok key =>
      match Get (kvs ef) (string_of_bytes key) with
      | (Some val, None) =>
          let ef1 := logAndPersistToDB ef InfoLevel efSrc
                       (MsgGetDB (string_of_bytes key) (string_of_bytes val)) in
          match Copy (rt ef1) val vmAddrPtr vmSizePtr with
          | (m, Some err) =>
              (ResultStatusCode_TransDataToVMFailed,
               logAndPersistToDB (set_rt ef1 m) ErrorLevel efSrc (MsgError err))
          | (m, None) => (ResultStatusCode_OK, set_rt ef1 m)
          end
      | _ => (ResultStatusCode_ResourceNotFound, ef)
      end
  end.

(** [SetDB]. *)
Definition SetDB (ef : ExportFuncs) (kAddr kSize vAddr vSize : Z)
    : Z * ExportFuncs :=
  match Read (rt ef) kAddr kSize with
  | Err err =>
      (ResultStatusCode_ResourceNotFound,
       logAndPersistToDB ef ErrorLevel efSrc (MsgError err))
  | Ok key =>
      match Read (rt ef) vAddr vSize with
      | Err err =>
          (ResultStatusCode_ResourceNotFound,
           logAndPersistToDB ef ErrorLevel efSrc (MsgError err))
      | Ok val =>
          let ef1 := logAndPersistToDB ef InfoLevel efSrc
                       (MsgSetDB (string_of_bytes key) (string_of_bytes val)) in
          match Set_ (kvs ef1) (string_of_bytes key) val with
          | (k, Some err) =>
              (ResultStatusCode_Failed,
               logAndPersistToDB (set_kvs ef1 k) ErrorLevel efSrc (MsgError err))
          | (k, None) => (ResultStatusCode_OK, set_kvs ef1 k)
          end
      end
  end.

(** [GetEnv]. *)
Definition GetEnv (ef : ExportFuncs) (kAddr kSize vmAddrPtr vmSizePtr : Z)
    : Z * ExportFuncs :=
  match env ef with
  | None => (ResultStatusCode_EnvKeyNotFound, ef)
  | Some e =>
      match Read (rt ef) kAddr kSize with
      | Err err =>
          (ResultStatusCode_TransDataToVMFailed,
           logAndPersistToDB ef ErrorLevel efSrc (MsgError err))
      | Ok key =>
          match e !! string_of_bytes key with
          | None => (ResultStatusCode_EnvKeyNotFound, ef)
          | Some val =>
              match Copy (rt ef) (bytes_of_string val) vmAddrPtr vmSizePtr with
              | (m, Some err) =>
                  (ResultStatusCode_TransDataToVMFailed,
                   logAndPersistToDB (set_rt ef m) ErrorLevel efSrc
                     (MsgError err))
              | (m, None) => (ResultStatusCode_OK, set_rt ef m)
              end
          end
      end
  end.

(** Not a function of the source, but the steps its getters end with,
    to state what they do: [Copy] of [data] to the guest, and the status
    that tells whether it failed. *)
Definition copy_out (ef : ExportFuncs) (data : bytes) (p q : Z)
    : Z * ExportFuncs :=
  match Copy (rt ef) data p q with
  | (m, Some err) =>
      (ResultStatusCode_TransDataToVMFailed,
       logAndPersistToDB (set_rt ef m) ErrorLevel efSrc (MsgError err))
  | (m, None) => (ResultStatusCode_OK, set_rt ef m)
  end.

End ExportFuncs.

Arguments ExportFuncs M K : clear implicits.

End wasmtime.


(** ** Error texts and outcomes *)

(** [err.Error()].  The text of a [status.Error] is made by the [statusx]
    package, which is not among the sources: it is the argument
    [statusx]. *)
Definition Error (statusx : StatusError → string) (e : error) : string :=
  match e with
  | errors_New msg => msg
  | status_Error s => statusx s
  | fmt_Errorf_w msg _ => msg
  end.

(** A Go call returns, or panics (a nil pointer is dereferenced). *)
Inductive outcome (A : Type) :=
| Returns (a : A)
| Panics.
Arguments Returns {A} a.
Arguments Panics {A}.

(** ** The event dispatcher: package [event] *)

Module event.
Import wasm.

(** [eventpb.Header] and [eventpb.Event]; [Header] is a pointer. *)
Record EventHeader := {
  EventId : string;
  PubId : string;
  Token : string;
  EventType : string;
  PubTime : Z
}.

Record Event := {
  Header : option EventHeader;
  Payload : string
}.

(** [models.Project], as far as [publisherVerification] reads it. *)
Record Project := {
  ProjectID : Z;
  Issuer : string;
  ExpIn : Z;
  SignKey : string
}.

(** [jwt.Jwt]. *)
Record Jwt := {
  jwt_Issuer : string;
  jwt_ExpIn : Z;
  jwt_SignKey : string
}.

(** [claim.Payload] is an [interface{}]: a string, or something else. *)
Inductive ClaimPayload :=
| PayloadString (v : string)
| PayloadOther.

(** [models.Publisher], as far as the dispatcher reads it. *)
Record Publisher := {
  PublisherID : Z;
  Name : string
}.

(** [strategy.InstanceHandler]. *)
Record InstanceHandler := {
  ih_InstanceID : Z;
  ih_Handler : string
}.

(** [HandleEventResult]. *)
Record HandleEventResult := {
  ProjectName : string;
  PubID : Z;
  PubName : string;
  EventID : string;
  ErrMsg : string;
  WasmResults : list EventHandleResult
}.

(** The collaborators of the dispatcher, none of them among the sources:
    the project of the context, [jwt.ParseToken], [SFID.UnmarshalText]
    and [SFID.String], the publisher and strategy lookups (which return
    a value or an error), [vm.GetConsumer] (an instance or nil),
    [Instance.HandleEvent] (a pointer to a result, which may be nil),
    the default event type and the texts of the status errors.  [I] is
    the type of instances. *)
Record Deps (I : Type) := {
  project : Project;
  ParseToken : Jwt → string → result ClaimPayload;
  UnmarshalText : bytes → result Z;
  SFID_String : Z → string;
  GetPublisherByPubKeyAndProjectName : string → string → result Publisher;
  FindStrategyInstances : string → string → result (list InstanceHandler);
  GetConsumer : Z → option I;
  HandleEvent : I → string → bytes → option EventHandleResult;
  EVENTTYPEDEFAULT : string;
  statusx : StatusError → string
}.
Arguments project {I} _.
Arguments ParseToken {I} _ _ _.
Arguments UnmarshalText {I} _ _.
Arguments SFID_String {I} _ _.
Arguments GetPublisherByPubKeyAndProjectName {I} _ _ _.
Arguments FindStrategyInstances {I} _ _ _.
Arguments GetConsumer {I} _ _.
Arguments HandleEvent {I} _ _ _ _.
Arguments EVENTTYPEDEFAULT {I} _.
Arguments statusx {I} _ _.

Section Dispatcher.

Context {I : Type} (D : Deps I).

(** [publisherVerification]: [nil], or the error. *)
Definition publisherVerification (r : Event) : option error :=
  match Header r with
  | None => Some (errors_New "message token is invalid")
  | Some h =>
      if (String.length (Token h) =? 0)%nat
      then Some (errors_New "message token is invalid")
      else
        let p := project D in
        let publisherJwt :=
          {| jwt_Issuer := Issuer p; jwt_ExpIn := ExpIn p;
             jwt_SignKey := SignKey p |} in
        match ParseToken D publisherJwt (Token h) with
        | Err err => Some err
        | Ok (PayloadOther) => Some (status_Error InvalidAuthValue)
        | Ok (PayloadString v) =>
            match UnmarshalText D (bytes_of_string v) with
            | Err _ => Some (status_Error InvalidAuthPorjectID)
            | Ok projectID =>
                if projectID =? ProjectID p
                then None
                else Some (status_Error NoProjectPermission)
            end
        end
  end.

(** The [jwt.Jwt] the verification parses the token with. *)
Definition publisherJwt : Jwt :=
  {| jwt_Issuer := Issuer (project D); jwt_ExpIn := ExpIn (project D);
     jwt_SignKey := SignKey (project D) |}.

(** What [OnEventReceived] hands back: the two results and, besides,
    the handlers whose [HandleEvent] was started. *)
Record Return := {
  ret : HandleEventResult;
  err : option error;
  invoked : list InstanceHandler
}.

Definition set_ErrMsg (r : HandleEventResult) (msg : string) : HandleEventResult :=
  {| ProjectName := ProjectName r; PubID := PubID r; PubName := PubName r;
     EventID := EventID r; ErrMsg := msg; WasmResults := WasmResults r |}.

Definition set_Pub (r : HandleEventResult) (pub : Publisher) : HandleEventResult :=
  {| ProjectName := ProjectName r; PubID := PublisherID pub;
     PubName := Name pub; EventID := EventID r; ErrMsg := ErrMsg r;
     WasmResults := WasmResults r |}.

Definition set_WasmResults (r : HandleEventResult)
    (l : list EventHandleResult) : HandleEventResult :=
  {| ProjectName := ProjectName r; PubID := PubID r; PubName := PubName r;
     EventID := EventID r; ErrMsg := ErrMsg r; WasmResults := l |}.

(** The deferred function: when the call returns with an error, its text
    becomes [ret.ErrMsg]. *)
Definition deferred (r : HandleEventResult) (e : option error)
    (calls : list InstanceHandler) : Return :=
  match e with
  | Some e' =>
      {| ret := set_ErrMsg r (Error (statusx D) e'); err := e;
         invoked := calls |}
  | None => {| ret := r; err := None; invoked := calls |}
  end.

(** One turn of the loop over the matched handlers: what is sent on the
    channel [res] for the handler [v], at once when the instance is not
    found, by the started task otherwise. *)
Definition send (payload : bytes) (v : InstanceHandler)
    : option EventHandleResult :=
  match GetConsumer D (ih_InstanceID v) with
  | None =>
      Some {| wasm.InstanceID := SFID_String D (ih_InstanceID v);
              wasm.Code := -1;
              wasm.ErrMsg := "instance not found" |}
  | Some i => HandleEvent D i (ih_Handler v) payload
  end.

(** Whether the loop starts a task for [v]. *)
Definition starts_task (v : InstanceHandler) : bool :=
  bool_decide (is_Some (GetConsumer D (ih_InstanceID v))).

(** The event type the strategies are looked up with. *)
Definition eventType_of (h : EventHeader) : string :=
  if (0 <? String.length (EventType h))%nat
  then EventType h
  else EVENTTYPEDEFAULT D.

(** [OnEventReceived], with what is sent on the channel taken in the
    order of the loop.  The lookup of the publisher that fails leaves
    through the bare [return], with the named result [err] still nil. *)
Definition OnEventReceived (projectName : string) (r : Event)
    : outcome Return :=
  match Header r with
  | None => Panics
  | Some h =>
      let ret0 :=
        {| ProjectName := projectName; PubID := 0; PubName := "";
           EventID := EventId h; ErrMsg := ""; WasmResults := [] |} in
      match publisherVerification r with
      | Some e => Returns (deferred ret0 (Some e) [])
      | None =>
          let pub :=
            if (0 <? String.length (PubId h))%nat
            then
              match GetPublisherByPubKeyAndProjectName D (PubId h) projectName with
              | Err e => None
              | Ok pub => Some (set_Pub ret0 pub)
              end
            else Some ret0 in
          match pub with
          | None => Returns (deferred ret0 None [])
          | Some ret1 =>
              match FindStrategyInstances D projectName (eventType_of h) with
              | Err e => Returns (deferred ret1 (Some e) [])
              | Ok handlers =>
                  let res := map (send (bytes_of_string (Payload r))) handlers in
                  Returns (deferred
                             (set_WasmResults ret1
                                (WasmResults ret1 ++ omap id res))
                             None
                             (filter (λ v, starts_task v = true) handlers))
              end
          end
      end
  end.

(** The tasks send their results when they complete: the channel holds
    the results in some order, and a call may return any result that
    differs from the one above in the order of [WasmResults] only. *)
Definition may_return (projectName : string) (r : Event) (o : Return) : Prop :=
  ∃ o0, OnEventReceived projectName r = Returns o0 ∧
        err o = err o0 ∧
        invoked o = invoked o0 ∧
        WasmResults (ret o) ≡ₚ WasmResults (ret o0) ∧
        set_WasmResults (ret o0) (WasmResults (ret o)) = ret o.

(** The strategies the resolver matched for the event. *)
Definition matched (projectName : string) (h : EventHeader)
    : list InstanceHandler :=
  match FindStrategyInstances D projectName (eventType_of h) with
  | Ok handlers => handlers
  | Err _ => []
  end.

(** The event passes the resolution of its publisher. *)
Definition publisher_resolved (projectName : string) (h : EventHeader) : Prop :=
  String.length (PubId h) = 0%nat ∨
  ∃ pub, GetPublisherByPubKeyAndProjectName D (PubId h) projectName = Ok pub.

(** What a call returns when the results sent on its channel arrive as
    [arrival] orders them: [arrival] takes the results in the order of
    the loop and gives them in the order of their arrival. *)
Definition arrived (arrival : list EventHandleResult → list EventHandleResult)
    (o : Return) : Return :=
  {| ret := set_WasmResults (ret o) (arrival (WasmResults (ret o)));
     err := err o;
     invoked := invoked o |}.

End Dispatcher.

(** The loop of [HandleEvents] from the index [i] on: every event in
    turn, the errors dropped; a panic of one call is a panic of the
    whole.  The results of the call for [r.Events[i]] arrive on its
    channel in the order [arrival i]. *)
Fixpoint HandleEvents_from {I : Type} (D : Deps I)
    (arrival : nat → list EventHandleResult → list EventHandleResult)
    (projectName : string) (i : nat) (events : list Event)
    : outcome (list HandleEventResult) :=
  match events with
  | [] => Returns []
  | r :: rest =>
      match OnEventReceived D projectName r with
      | Panics => Panics
      | Returns o =>
          match HandleEvents_from D arrival projectName (S i) rest with
          | Panics => Panics
          | Returns results => Returns (ret (arrived (arrival i) o) :: results)
          end
      end
  end.

(** [HandleEvents]. *)
Definition HandleEvents {I : Type} (D : Deps I)
    (arrival : nat → list EventHandleResult → list EventHandleResult)
    (projectName : string) (events : list Event)
    : outcome (list HandleEventResult) :=
  HandleEvents_from D arrival projectName 0 events.


End event.


(** ** HTTP headers *)

(** Modelled on Go's [net/textproto]: the bytes a header name may hold,
    and [CanonicalMIMEHeaderKey], which leaves a name with any other
    byte as it is and otherwise writes the first letter and every letter
    that follows a hyphen in upper case, the others in lower case. *)
Definition is_lower (c : ascii) : bool :=
  (97 <=? nat_of_ascii c)%nat && (nat_of_ascii c <=? 122)%nat.

Definition is_upper (c : ascii) : bool :=
  (65 <=? nat_of_ascii c)%nat && (nat_of_ascii c <=? 90)%nat.

Definition is_digit (c : ascii) : bool :=
  (48 <=? nat_of_ascii c)%nat && (nat_of_ascii c <=? 57)%nat.

Definition to_lower (c : ascii) : ascii :=
  if is_upper c then ascii_of_nat (nat_of_ascii c + 32) else c.

Definition to_upper (c : ascii) : ascii :=
  if is_lower c then ascii_of_nat (nat_of_ascii c - 32) else c.

Definition validHeaderFieldByte (c : ascii) : bool :=
  is_lower c || is_upper c || is_digit c ||
  bool_decide (c ∈ list_ascii_of_string "!#$%&'*+-.^_`|~").

Fixpoint canonical_from (upper : bool) (s : string) : string :=
  match s with
  | EmptyString => EmptyString
  | String c rest =>
      String (if upper then to_upper c else to_lower c)
             (canonical_from (bool_decide (c = "-"%char)) rest)
  end.

Definition CanonicalMIMEHeaderKey (s : string) : string :=
  if forallb validHeaderFieldByte (list_ascii_of_string s)
  then canonical_from true s
  else s.

(** The name in lower case, to compare names without regard to case. *)
Fixpoint lower_string (s : string) : string :=
  match s with
  | EmptyString => EmptyString
  | String c rest => String (to_lower c) (lower_string rest)
  end.

(** [http.Header] is a [map[string][]string]; a nil map reads as the
    empty one.  [Header.Get] is the first value under the canonical
    form of the name, or the empty string. *)
Definition Header_Get (h : gmap string (list string)) (key : string) : string :=
  match h !! CanonicalMIMEHeaderKey key with
  | Some (v :: _) => v
  | _ => ""
  end.

(** The request has no header of the given name, in whatever case. *)
Definition lacks_header (h : gmap string (list string)) (name : string) : Prop :=
  ∀ k, is_Some (h !! k) → lower_string k ≠ lower_string name.

(** ** The asynchronous API-call worker: package [async] *)

Module async.

(** [asynq.SkipRetry]. *)
Definition SkipRetry : error := errors_New "skip retry for the task".

(** [apitypes.HttpRequest] and [apitypes.HttpResponse]. *)
Record HttpRequest := {
  Method : string;
  Url : string;
  Header : gmap string (list string);
  Body : bytes
}.

Record HttpResponse := {
  Status : string;
  StatusCode : Z;
  Proto : string;
  RespHeader : gmap string (list string);
  RespBody : bytes
}.

(** [apiCallPayload]; [Project] is a pointer to a [models.Project], of
    which the worker reads the name. *)
Record apiCallPayload := {
  Project : option string;
  Data : bytes
}.

(** The task [newApiResultTask] makes. *)
Record Task := {
  task_ProjectName : string;
  task_EventType : string;
  task_Data : bytes
}.

(** What the recorder holds after the router has served the request:
    the response, and its body as [io.ReadAll] reads it. *)
Record Recorded := {
  rec_Status : string;
  rec_StatusCode : Z;
  rec_Proto : string;
  rec_Header : gmap string (list string);
  rec_Body : option (result bytes)
}.

(** The collaborators of the worker, none of them among the sources:
    the two [json.Unmarshal], [http.NewRequest] (which refuses a bad
    method or URL), the router serving a request for a project,
    [json.Marshal], [newApiResultTask], [cli.Enqueue] and the texts of
    errors. *)
Record Deps := {
  Unmarshal_payload : bytes → result apiCallPayload;
  Unmarshal_request : bytes → result HttpRequest;
  NewRequest : string → string → bytes → option error;
  ServeHTTP : HttpRequest → option string → Recorded;
  Marshal : HttpResponse → result bytes;
  newApiResultTask : string → string → bytes → result Task;
  Enqueue : Task → option error;
  statusx : StatusError → string
}.

(** [fmt.Errorf(what + ": %v: %w", err, asynq.SkipRetry)]. *)
Definition skip (D : Deps) (what : string) (e : error) : error :=
  fmt_Errorf_w
    (what ++ ": " ++ Error (statusx D) e ++ ": " ++ Error (statusx D) SkipRetry)
    SkipRetry.

(** The response headers after the loop over the request's headers:
    every header of the request but [Content-Type] is written over the
    response's. *)
Definition merge_headers (resp req : gmap string (list string))
    : gmap string (list string) :=
  filter (λ kv, kv.1 ≠ "Content-Type") req ∪ resp.

(** What [ProcessTask] returns ([nil] or an error) and, besides, the
    tasks it handed to [cli.Enqueue]. *)
Record Return := {
  err : option error;
  enqueued : list Task
}.

Definition fails (e : error) : outcome Return :=
  Returns {| err := Some e; enqueued := [] |}.

(** [ApiCallProcessor.ProcessTask] on the payload of the task. *)
Definition ProcessTask (D : Deps) (t : bytes) : outcome Return :=
  match Unmarshal_payload D t with
  | Err e => fails (skip D "json.Unmarshal failed" e)
  | Ok payload =>
      match Unmarshal_request D (Data payload) with
      | Err e => fails (skip D "http.ReadRequest failed" e)
      | Ok apiReq =>
          match NewRequest D (Method apiReq) (Url apiReq) (Body apiReq) with
          | Some e => fails (skip D "http.ReadRequest failed" e)
          | None =>
              let resp := ServeHTTP D apiReq (Project payload) in
              match Project payload with
              | None => Panics
              | Some projectName =>
                  let body :=
                    match rec_Body resp with
                    | None => Ok []
                    | Some b => b
                    end in
                  match body with
                  | Err e => fails (skip D "encode http response failed" e)
                  | Ok body =>
                      let respHeader :=
                        merge_headers (rec_Header resp) (Header apiReq) in
                      let apiResp :=
                        {| Status := rec_Status resp;
                           StatusCode := rec_StatusCode resp;
                           Proto := rec_Proto resp;
                           RespHeader := respHeader;
                           RespBody := body |} in
                      match Marshal D apiResp with
                      | Err e => fails (skip D "encode http response failed" e)
                      | Ok apiRespJson =>
                          let eventType := Header_Get (Header apiReq) "eventType" in
                          if (String.length eventType =? 0)%nat
                          then
                            fails (fmt_Errorf_w
                                     ("miss eventType, projectName " ++ projectName
                                      ++ ": " ++ Error (statusx D) SkipRetry)
                                     SkipRetry)
                          else
                            match newApiResultTask D projectName eventType apiRespJson with
                            | Err e => fails (skip D "new api result task failed" e)
                            | Ok task =>
                                match Enqueue D task with
                                | Some e =>
                                    Returns {| err := Some (skip D "could not enqueue task" e);
                                               enqueued := [task] |}
                                | None =>
                                    Returns {| err := None; enqueued := [task] |}
                                end
                            end
                      end
                  end
              end
          end
      end
  end.

(** The request the task carries, when its payload decodes. *)
Definition original_request (D : Deps) (t : bytes) : option HttpRequest :=
  match Unmarshal_payload D t with
  | Ok payload =>
      match Unmarshal_request D (Data payload) with
      | Ok apiReq => Some apiReq
      | Err _ => None
      end
  | Err _ => None
  end.

(** The payload of the task names its project (the pointer is not nil)
    whenever it decodes. *)
Definition names_project (D : Deps) (t : bytes) : Prop :=
  ∀ payload, Unmarshal_payload D t = Ok payload → is_Some (Project payload).

End async.


(** ** A runtime and a key-value store to run the host functions on *)

Module model.
Import wasm.

(** Modelled from the spec: the runtime adapter ([Runtime.Read] and
    [Runtime.Copy]) is not among the sources.  The guest's linear memory
    is a row of bytes.  [Read(ptr, size)] copies the range out and fails
    on a range that is not inside the memory.  [Copy(bytes, p, q)]
    allocates in the guest (here: at the end of the memory, which
    grows), writes the bytes there, and stores the address and the size,
    as 32-bit little-endian numbers, at [p] and at [q]; it fails when
    [p] or [q] is not inside the memory. *)
Record Mem := { cells : bytes }.

Definition ErrOutOfBounds : error := errors_New "out of memory bounds".

Definition in_bounds (m : bytes) (addr size : Z) : bool :=
  (0 <=? addr) && (0 <=? size) && (addr + size <=? Z.of_nat (length m)).

Definition mem_read (m : Mem) (addr size : Z) : result bytes :=
  if in_bounds (cells m) addr size
  then Ok (take (Z.to_nat size) (drop (Z.to_nat addr) (cells m)))
  else Err ErrOutOfBounds.

Definition byte_of_Z (z : Z) : Byte.byte :=
  default Byte.x00 (Byte.of_N (Z.to_N (z mod 256))).

Definition le32 (z : Z) : bytes :=
  [byte_of_Z z; byte_of_Z (z / 2 ^ 8); byte_of_Z (z / 2 ^ 16);
   byte_of_Z (z / 2 ^ 24)].

Definition mem_write (m : bytes) (addr : Z) (data : bytes) : bytes :=
  take (Z.to_nat addr) m ++ data ++ drop (Z.to_nat addr + length data)%nat m.

Definition mem_copy (m : Mem) (data : bytes) (p q : Z) : Mem * option error :=
  if in_bounds (cells m) p 4 && in_bounds (cells m) q 4
  then
    let ptr := Z.of_nat (length (cells m)) in
    let m1 := cells m ++ data in
    let m2 := mem_write m1 p (le32 ptr) in
    let m3 := mem_write m2 q (le32 (Z.of_nat (length data))) in
    ({| cells := m3 |}, None)
  else (m, Some ErrOutOfBounds).

#[global] Instance Mem_Runtime : Runtime Mem :=
  {| Read := mem_read; Copy := mem_copy |}.

(** Modelled from the spec: the implementations of [wasm.KVStore] are not
    among the sources.  The store is a finite map from keys to values;
    [Get] finds the value of a key or reports that there is none, [Set]
    is an upsert. *)
Record KV := { entries : gmap string bytes }.

Definition ErrNotFound : error := errors_New "not found".

Definition kv_get (s : KV) (k : string) : option bytes * option error :=
  match entries s !! k with
  | Some v => (Some v, None)
  | None => (None, Some ErrNotFound)
  end.

Definition kv_set (s : KV) (k : string) (v : bytes) : KV * option error :=
  ({| entries := <[k := v]> (entries s) |}, None).

#[global] Instance KV_KVStore : KVStore KV :=
  {| Get := kv_get; Set_ := kv_set |}.

End model.


(** ** Inputs to run the functions on *)

(** A registry with one [STARTED] instance under the id 7. *)
Definition started_world : vm.World :=
  vm.run [vm.OpAdd 7 {| vm.obj_state := vm.InstanceState_Started |}].

(** A registry with one [CREATED] instance under the id 7. *)
Definition created_world : vm.World :=
  vm.run [vm.OpAdd 7 {| vm.obj_state := vm.InstanceState_Created |}].

(** A host state to run the host functions on: a guest memory of sixteen
    bytes that holds the key [k1] at address 0 and the value [hello] at
    address 2, no resources, an empty store and an empty environment. *)
Definition guest_memory : model.Mem :=
  {| model.cells := bytes_of_string "k1hello........." |}.

Definition ef0 : wasmtime.ExportFuncs model.Mem model.KV :=
  {| wasmtime.rt := guest_memory;
     wasmtime.res := ∅;
     wasmtime.evs := ∅;
     wasmtime.env := Some ∅;
     wasmtime.kvs := {| model.entries := ∅ |};
     wasmtime.log := [];
     wasmtime.srv := λ buf,
       {| wasmtime.Status := "200 OK"; wasmtime.StatusCode := 200;
          wasmtime.Proto := "HTTP/1.1"; wasmtime.Header := [];
          wasmtime.Body := buf |};
     wasmtime.marshal := λ resp, Ok (wasmtime.Body resp) |}.

(** Collaborators to run the dispatcher with.  The project has the id 1;
    the token [token-of-1] parses to the claim ["1"], no other token
    parses; [pubA] is the one publisher; two strategies match every
    event, on the instances 1 and 2; the instance 2 is not found; what
    [HandleEvent] returns is the argument [handle]. *)
Definition deps
    (handle : Z → string → bytes → option wasm.EventHandleResult)
    : event.Deps Z :=
  {| event.project :=
       {| event.ProjectID := 1; event.Issuer := "w3b"; event.ExpIn := 3600;
          event.SignKey := "secret" |};
     event.ParseToken := λ _ token,
       if decide (token = "token-of-1")
       then Ok (event.PayloadString "1")
       else Err (errors_New "token is malformed");
     event.UnmarshalText := λ b,
       if decide (string_of_bytes b = "1") then Ok 1
       else Err (errors_New "invalid SFID");
     event.SFID_String := λ id, if decide (id = 2) then "2" else "1";
     event.GetPublisherByPubKeyAndProjectName := λ pubKey _,
       if decide (pubKey = "pubA")
       then Ok {| event.PublisherID := 10; event.Name := "A" |}
       else Err (errors_New "publisher not found");
     event.FindStrategyInstances := λ _ _,
       Ok [ {| event.ih_InstanceID := 1; event.ih_Handler := "start" |};
            {| event.ih_InstanceID := 2; event.ih_Handler := "start" |} ];
     event.GetConsumer := λ id, if decide (id = 2) then None else Some id;
     event.HandleEvent := handle;
     event.EVENTTYPEDEFAULT := "DEFAULT";
     event.statusx := λ s,
       match s with
       | InvalidAuthValue => "InvalidAuthValue"
       | InvalidAuthPorjectID => "InvalidAuthPorjectID"
       | NoProjectPermission => "NoProjectPermission"
       end |}.

(** A handler that returns the code 0, and one that returns nil. *)
Definition handle_ok (i : Z) (fn : string) (payload : bytes)
    : option wasm.EventHandleResult :=
  Some {| wasm.InstanceID := "1"; wasm.Code := 0; wasm.ErrMsg := "" |}.

Definition handle_nil (i : Z) (fn : string) (payload : bytes)
    : option wasm.EventHandleResult := None.

Definition header_of (pubId token : string) : event.EventHeader :=
  {| event.EventId := "e1"; event.PubId := pubId; event.Token := token;
     event.EventType := ""; event.PubTime := 0 |}.

Definition event_of (pubId token : string) : event.Event :=
  {| event.Header := Some (header_of pubId token); event.Payload := "hi" |}.

(** Collaborators to run the worker with: the payload of a task is the
    request body of a [GET /echo] of the project [p], whose headers are
    the argument [hdr]; the router echoes the body; every other step
    succeeds. *)
Definition worker_deps (hdr : gmap string (list string)) : async.Deps :=
  {| async.Unmarshal_payload := λ b,
       Ok {| async.Project := Some "p"; async.Data := b |};
     async.Unmarshal_request := λ b,
       Ok {| async.Method := "GET"; async.Url := "/echo";
             async.Header := hdr; async.Body := b |};
     async.NewRequest := λ _ _ _, None;
     async.ServeHTTP := λ req _,
       {| async.rec_Status := "200 OK"; async.rec_StatusCode := 200;
          async.rec_Proto := "HTTP/1.1"; async.rec_Header := ∅;
          async.rec_Body := Some (Ok (async.Body req)) |};
     async.Marshal := λ resp, Ok (async.RespBody resp);
     async.newApiResultTask := λ projectName eventType data,
       Ok {| async.task_ProjectName := projectName;
             async.task_EventType := eventType;
             async.task_Data := data |};
     async.Enqueue := λ _, None;
     async.statusx := λ _, "" |}.

(** The headers of a request that names no event type. *)
Definition plain_headers : gmap string (list string) :=
  {[ "Content-Type" := ["application/json"] ]}.

(** The same collaborators, for a task whose payload holds no project:
    the pointer [payload.Project] is nil. *)
Definition worker_deps_nil_project (hdr : gmap string (list string))
    : async.Deps :=
  {| async.Unmarshal_payload := λ b,
       Ok {| async.Project := None; async.Data := b |};
     async.Unmarshal_request := async.Unmarshal_request (worker_deps hdr);
     async.NewRequest := async.NewRequest (worker_deps hdr);
     async.ServeHTTP := async.ServeHTTP (worker_deps hdr);
     async.Marshal := async.Marshal (worker_deps hdr);
     async.newApiResultTask := async.newApiResultTask (worker_deps hdr);
     async.Enqueue := async.Enqueue (worker_deps hdr);
     async.statusx := async.statusx (worker_deps hdr) |}.


(** * The rest of the code *)

(** ** Sets of field errors: [kit/validator/errors], [errors_set.go] *)

Module errors.

(** A node of a [KeyPath] is an [interface{}]: a [string], an [int], a
    [Location], or something else. *)
Inductive Node :=
| KString (s : string)
| KInt (i : Z)
| KLocation (l : string)
| KOther.

Abbreviation KeyPath := (list Node).

(** [FieldError] and [ErrorSet].  The [error] of a [FieldError] is an
    [*ErrorSet] (not a nil pointer) or any other error; only [AddErr]
    appends to [errors], so it is never nil.

    A [KeyPath] is the list of its nodes.  This is what [AddErr] stores
    when the call lists the nodes ([set.AddErr(err, n1, ..., nk)]): the
    slice made for them is full, so that [append(f.Field, ...)] in
    [Flatten] copies it.  A path given as a spread slice that has spare
    capacity, into whose array that [append] would write, is not
    covered. *)
Record FieldError_ (E : Type) := { Field : KeyPath; Error : E }.
Arguments Field {E} _.
Arguments Error {E} _.

Record ErrorSet_ (E : Type) := { root : string; errors : list (FieldError_ E) }.
Arguments root {E} _.
Arguments errors {E} _.

#[warnings="-register-all"] Inductive err :=
| Leaf (e : error)
| Sub (s : ErrorSet_ err).

Abbreviation FieldError := (FieldError_ err).
Abbreviation ErrorSet := (ErrorSet_ err).

Definition NewErrorSetWithRoot (r : string) : ErrorSet :=
  {| root := r; errors := [] |}.

Definition NewErrorSet : ErrorSet := {| root := ""; errors := [] |}.

(** [AddErr]: a nil error is not added. *)
Definition AddErr (set : ErrorSet) (e : option err) (keyPathNodes : KeyPath)
    : ErrorSet :=
  match e with
  | None => set
  | Some e =>
      {| root := root set;
         errors := errors set ++ [ {| Field := keyPathNodes; Error := e |} ] |}
  end.

(** [Each], for a callback that updates a state [A]. *)
Definition Each {A : Type} (set : ErrorSet) (cb : A → FieldError → A) (a : A) : A :=
  fold_left cb (errors set) a.

(** [Flatten], on the error that is the set (on another error there is
    nothing to flatten). *)
Fixpoint Flatten_err (e : err) : ErrorSet :=
  match e with
  | Leaf _ => NewErrorSet
  | Sub set =>
      fold_left
        (λ ret f,
           match Error f with
           | Sub _ =>
               fold_left
                 (λ ret ff, AddErr ret (Some (Error ff)) (Field f ++ Field ff))
                 (errors (Flatten_err (Error f))) ret
           | Leaf _ => AddErr ret (Some (Error f)) (Field f)
           end)
        (errors set) (NewErrorSetWithRoot (root set))
  end.

Definition Flatten (set : ErrorSet) : ErrorSet := Flatten_err (Sub set).

(** [Len]. *)
Definition Len (set : ErrorSet) : nat := length (errors (Flatten set)).

(** [Err]. *)
Definition Err (set : ErrorSet) : option err :=
  if (length (errors set) =? 0)%nat then None else Some (Sub set).

(** [KeyPath.String]: the state of the loop is the buffer. *)
Definition KeyPath_String (keyPath : KeyPath) : string :=
  fold_left
    (λ buf keyOrIndex,
       match keyOrIndex with
       | KString s =>
           (if (0 <? String.length buf)%nat then buf +:+ "." else buf) +:+ s
       | KInt i => buf +:+ "[" +:+ pretty i +:+ "]"
       | _ => buf
       end)
    keyPath "".

(** [statusx.ErrorField]; [Msg] is the error whose text the field
    holds. *)
Record ErrorField := { In : string; EField : string; Msg : err }.

(** [ToErrorFields]. *)
Definition ToErrorFields (set : ErrorSet) : list ErrorField :=
  Each (Flatten set)
    (λ errorFields fieldErr,
       if (1 <? length (Field fieldErr))%nat
       then
         match Field fieldErr with
         | KLocation l :: rest =>
             errorFields ++
               [ {| In := l; EField := KeyPath_String rest;
                    Msg := Error fieldErr |} ]
         | _ => errorFields
         end
       else errorFields)
    [].

(** The errors of a set that are not sets themselves, each with the
    path that leads to it. *)
Fixpoint leaves (e : err) : list FieldError :=
  match e with
  | Leaf _ => []
  | Sub set =>
      concat
        (map (λ f,
                match Error f with
                | Sub _ =>
                    map (λ ff, {| Field := Field f ++ Field ff;
                                  Error := Error ff |})
                      (leaves (Error f))
                | Leaf _ => [f]
                end)
           (errors set))
  end.

End errors.


(** ** Status errors: package [status], the generated methods *)

Module status.

(** The constants of the type [Error] (an [int]) are declared in
    [status/error.go], which is not among the sources: their values are
    the fields of [Codes]. *)
Record Codes := {
  BadRequest : Z;
  MD5ChecksumFailed : Z;
  Unauthorized : Z;
  NotFound : Z;
  Conflict : Z;
  InternalServerError : Z;
  UploadFileFailed : Z;
  ExtractFileFailed : Z;
  LoadVMFailed : Z
}.

Section Error.

Context (c : Codes).

(** [Key]: the cases of the [switch] are tried in their order. *)
Definition Key (v : Z) : string :=
  if decide (v = BadRequest c) then "BadRequest"
  else if decide (v = MD5ChecksumFailed c) then "MD5ChecksumFailed"
  else if decide (v = Unauthorized c) then "Unauthorized"
  else if decide (v = NotFound c) then "NotFound"
  else if decide (v = Conflict c) then "Conflict"
  else if decide (v = InternalServerError c) then "InternalServerError"
  else if decide (v = UploadFileFailed c) then "UploadFileFailed"
  else if decide (v = ExtractFileFailed c) then "ExtractFileFailed"
  else if decide (v = LoadVMFailed c) then "LoadVMFailed"
  else "UNKNOWN".

(** [CanBeTalk]. *)
Definition CanBeTalk (v : Z) : bool :=
  if decide (v = BadRequest c) then false
  else if decide (v = MD5ChecksumFailed c) then false
  else if decide (v = Unauthorized c) then true
  else if decide (v = NotFound c) then false
  else if decide (v = Conflict c) then false
  else if decide (v = InternalServerError c) then false
  else if decide (v = UploadFileFailed c) then false
  else if decide (v = ExtractFileFailed c) then false
  else if decide (v = LoadVMFailed c) then false
  else false.

End Error.

End status.


(** ** Configuration types: [pkg/types/types.go] *)

Module types.

(** [FileSystem.SetDefault]; the two constants of
    [enums.FileSystemMode] it names are declared outside the sources
    and are arguments. *)
Definition FileSystem_SetDefault (FILE_SYSTEM_MODE__LOCAL FILE_SYSTEM_MODE__S3 : Z)
    (type : Z) : Z :=
  if (FILE_SYSTEM_MODE__S3 <? type) || (type <=? 0)
  then FILE_SYSTEM_MODE__LOCAL
  else type.

(** [ETHClientConfig.Init].  [gjson.Valid] and the members of the
    parsed object, in the order the loop meets them, are those of the
    [gjson] package; [strconv.Atoi] is an argument as well.  The key of
    [Clients] is [uint32(chainID)]. *)
Record Gjson := {
  gjson_Valid : string → bool;
  gjson_Map : string → list (string * string);
  Atoi : string → option Z
}.

Definition ETHClientConfig_Init (G : Gjson) (Endpoints : string) : gmap Z string :=
  if gjson_Valid G Endpoints
  then
    fold_left
      (λ Clients kv,
         match Atoi G kv.1 with
         | None => Clients
         | Some chainID => <[uint32 chainID := kv.2]> Clients
         end)
      (gjson_Map G Endpoints) ∅
  else ∅.

(** [Chain] and [ChainConfig]. *)
Record Chain := {
  ChainID : Z;
  Name : string;
  Endpoint : string
}.

Record ChainConfig := {
  Configs : string;
  Chains : gmap string Chain;
  ChainIDs : gmap Z Chain
}.

(** The loop of [ChainConfig.Init] over the decoded chains, which are
    pointers: on a nil one, [c.Name] panics. *)
Fixpoint index_chains (cs : list (option Chain))
    (cm : gmap string Chain) (cidm : gmap Z Chain)
    : outcome (gmap string Chain * gmap Z Chain) :=
  match cs with
  | [] => Returns (cm, cidm)
  | None :: _ => Panics
  | Some c :: rest =>
      let cm := <[Name c := c]> cm in
      let cidm := if ChainID c =? 0 then cidm else <[ChainID c := c]> cidm in
      index_chains rest cm cidm
  end.

(** [ChainConfig.Init]; [json.Unmarshal] into a [[]*Chain] is the
    argument [Unmarshal], and its error is a panic. *)
Definition ChainConfig_Init (Unmarshal : bytes → result (list (option Chain)))
    (c : ChainConfig) : outcome ChainConfig :=
  let decoded :=
    if decide (Configs c = "")
    then Returns []
    else
      match Unmarshal (bytes_of_string (Configs c)) with
      | Err _ => Panics
      | Ok cs => Returns cs
      end in
  match decoded with
  | Panics => Panics
  | Returns cs =>
      match index_chains cs ∅ ∅ with
      | Panics => Panics
      | Returns (cm, cidm) =>
          Returns {| Configs := Configs c; Chains := cm; ChainIDs := cidm |}
      end
  end.

(** [EthAddressWhiteList.Init]: [strfmt.EthAddressValidator.Validate]
    (here: whether it returns nil) and [strings.ToLower] are
    arguments. *)
Definition EthAddressWhiteList_Init (valid : string → bool)
    (ToLower : string → string) (v : list string) : list string :=
  fold_left
    (λ lst addr, if valid addr then lst ++ [ToLower addr] else lst)
    v [].

(** The loop of [Validate]. *)
Fixpoint whitelisted (ToLower : string → string) (v : list string)
    (address : string) : bool :=
  match v with
  | [] => false
  | addr :: rest =>
      if decide (addr = ToLower address) then true
      else whitelisted ToLower rest address
  end.

(** [EthAddressWhiteList.Validate]; the receiver is a pointer, nil or
    not. *)
Definition EthAddressWhiteList_Validate (ToLower : string → string)
    (v : option (list string)) (address : string) : bool :=
  match v with
  | None => true
  | Some l =>
      if (length l =? 0)%nat then true else whitelisted ToLower l address
  end.

End types.


(** ** Uploaded resources: package [resource] *)

Module resource.

(** What [os.Stat] returns: a [FileInfo] (nil or not; of it, whether it
    is a directory) and an error (nil or not; of it, what
    [os.IsNotExist] says). *)
Record FileInfo := { IsDir : bool }.
Record StatError := { IsNotExist : bool }.

Definition StatResult : Type := option FileInfo * option StatError.

(** [IsPathExists] and [IsDirExists], on what [os.Stat(path)]
    returned. *)
Definition IsPathExists (st : StatResult) : bool :=
  match st.2 with
  | None => true
  | Some e => IsNotExist e
  end.

Definition IsDirExists (st : StatResult) : bool :=
  match st.2 with
  | None => true
  | Some e => IsNotExist e
  end &&
  match st.1 with
  | Some info => IsDir info
  | None => false
  end.

(** [errors.Wrap] of [github.com/pkg/errors]: nil for a nil error. *)
Definition errors_Wrap (statusx : StatusError → string) (e : option error)
    (message : string) : option error :=
  match e with
  | None => None
  | Some e' => Some (fmt_Errorf_w (message +:+ ": " +:+ Error statusx e') e')
  end.

(** [int64] and [uint64] conversions. *)
Definition int64 (z : Z) : Z := (z + 2 ^ 63) mod 2 ^ 64 - 2 ^ 63.
Definition uint64 (z : Z) : Z := z mod 2 ^ 64.

(** [var reserve = int64(100 * 1024 * 1024)]. *)
Definition reserve : Z := 100 * 1024 * 1024.

(** What [Upload] does to the outside, in its order. *)
Inductive Op :=
| OpMkdirAll (path : string)
| OpOpen
| OpSeekEnd
| OpUsage (path : string)
| OpSeekStart
| OpOpenFile (path : string)
| OpCopy (path : string)
| OpCloseReader
| OpCloseWriter.

(** The outside of [Upload]: the configuration, [filepath.Join],
    [os.Stat], [os.MkdirAll], the uploaded file ([f.Filename],
    [f.Open], the two [Seek], of which the first returns the size),
    [disk.Usage] (a pointer, nil or not, of which [Free] is read, and
    an error), [os.OpenFile] and [io.Copy]. *)
Record Env := {
  ResourceRoot : string;
  UploadLimit : Z;
  Join : list string → string;
  Stat : string → StatResult;
  MkdirAll : string → option error;
  Filename : string;
  Open : option error;
  SeekEnd : result Z;
  Usage : string → option Z * option error;
  SeekStart : option error;
  OpenFile : string → option error;
  Copy : option error;
  statusx : StatusError → string
}.

(** The three named results of [Upload], and what it did. *)
Record Uploaded := {
  root : string;
  filename : string;
  err : option error;
  ops : list Op
}.

(** [Upload]; the deferred [Close] calls run when it returns. *)
Definition Upload (E : Env) (id : string) : Uploaded :=
  let root := Join E [ResourceRoot E; id] in
  let filename := Join E [ResourceRoot E; id; Filename E] in
  let done (err : option error) (ops : list Op) :=
    {| root := root; filename := filename; err := err; ops := ops |} in
  let made :=
    if negb (IsDirExists (Stat E root))
    then (MkdirAll E root, [OpMkdirAll root])
    else (None, []) in
  match made with
  | (Some e, ops) => done (Some e) ops
  | (None, ops) =>
      match Open E with
      | Some e => done (Some e) (ops ++ [OpOpen])
      | None =>
          let ops := ops ++ [OpOpen; OpSeekEnd] in
          match SeekEnd E with
          | Err e => done (Some e) (ops ++ [OpCloseReader])
          | Ok filesize =>
              if UploadLimit E <? filesize
              then done (errors_Wrap (statusx E) None "filesize over limit")
                     (ops ++ [OpCloseReader])
              else
                let ops := ops ++ [OpUsage root] in
                let '(stat, err) := Usage E root in
                if match stat with
                   | None => true
                   | Some Free => Free <? uint64 (int64 (filesize + reserve))
                   end
                then done (errors_Wrap (statusx E) err "disk limited")
                       (ops ++ [OpCloseReader])
                else
                  let ops := ops ++ [OpSeekStart] in
                  match SeekStart E with
                  | Some e => done (Some e) (ops ++ [OpCloseReader])
                  | None =>
                      let ops := ops ++ [OpOpenFile filename] in
                      match OpenFile E filename with
                      | Some e => done (Some e) (ops ++ [OpCloseReader])
                      | None =>
                          done (Copy E)
                            (ops ++ [OpCopy filename; OpCloseWriter;
                                     OpCloseReader])
                      end
                  end
          end
      end
  end.

(** The two digits of a byte as [%x] prints them, and the bytes of a
    slice in a row. *)
Definition hex_digit (n : N) : ascii :=
  nth (N.to_nat n) (list_ascii_of_string "0123456789abcdef") "0"%char.

Fixpoint hex (b : bytes) : string :=
  match b with
  | [] => ""
  | x :: rest =>
      String (hex_digit (Byte.to_N x / 16))
        (String (hex_digit (Byte.to_N x mod 16)) (hex rest))
  end.

(** [CheckMD5]: [os.Open] and the reading of the file by [io.Copy] are
    the argument [content] (the bytes, or the error of the one or of
    the other), [md5] is the digest. *)
Definition CheckMD5 (content : string → result bytes) (md5 : bytes → bytes)
    (filename sum : string) : option error :=
  match content filename with
  | Err e => Some e
  | Ok data =>
      let _sum := hex (md5 data) in
      if decide (_sum = sum) then None
      else Some (errors_New "md5 checksum failed")
  end.

End resource.


(** ** The SQL store of a project: package [wasm], [Database] *)

Module wasmdb.

(** [enums.WasmDBDatatype]: the constants [Column.Datatype] names, and
    any other value. *)
Inductive WasmDBDatatype :=
| WASM_DB_DATATYPE__INT
| WASM_DB_DATATYPE__INT8
| WASM_DB_DATATYPE__UINT8
| WASM_DB_DATATYPE__INT16
| WASM_DB_DATATYPE__UINT16
| WASM_DB_DATATYPE__INT32
| WASM_DB_DATATYPE__UINT32
| WASM_DB_DATATYPE__UINT
| WASM_DB_DATATYPE__INT64
| WASM_DB_DATATYPE__UINT64
| WASM_DB_DATATYPE__FLOAT32
| WASM_DB_DATATYPE__FLOAT64
| WASM_DB_DATATYPE__TEXT
| WASM_DB_DATATYPE__BOOL
| WASM_DB_DATATYPE__TIMESTAMP
| WASM_DB_DATATYPE__DECIMAL
| WASM_DB_DATATYPE__NUMERIC
| WASM_DB_DATATYPE_other (v : Z).

(** [Constrains]; [Default] is a pointer to a string. *)
Record Constrains := {
  Datatype : WasmDBDatatype;
  Length : Z;
  Decimal : Z;
  Default : option string;
  Null : bool;
  AutoIncrement : bool;
  Desc : string
}.

Record Column := {
  col_Name : string;
  col_Constrains : Constrains
}.

(** [Column.Datatype]; the integer division [65536/3] is 21845. *)
Definition Column_Datatype (c : Column) (t : WasmDBDatatype) : outcome string :=
  match t with
  | WASM_DB_DATATYPE__INT
  | WASM_DB_DATATYPE__INT8 | WASM_DB_DATATYPE__UINT8
  | WASM_DB_DATATYPE__INT16 | WASM_DB_DATATYPE__UINT16
  | WASM_DB_DATATYPE__INT32 | WASM_DB_DATATYPE__UINT32
  | WASM_DB_DATATYPE__UINT =>
      if AutoIncrement (col_Constrains c)
      then Returns "serial" else Returns "integer"
  | WASM_DB_DATATYPE__INT64 | WASM_DB_DATATYPE__UINT64 =>
      if AutoIncrement (col_Constrains c)
      then Returns "bigserial" else Returns "bigint"
  | WASM_DB_DATATYPE__FLOAT32 => Returns "real"
  | WASM_DB_DATATYPE__FLOAT64 => Returns "double precision"
  | WASM_DB_DATATYPE__TEXT =>
      if Length (col_Constrains c) <? 65536 / 3
      then Returns "character varying" else Returns "text"
  | WASM_DB_DATATYPE__BOOL => Returns "boolean"
  | WASM_DB_DATATYPE__TIMESTAMP => Returns "bigint"
  | WASM_DB_DATATYPE__DECIMAL => Returns "decimal"
  | WASM_DB_DATATYPE__NUMERIC => Returns "numeric"
  | WASM_DB_DATATYPE_other _ => Panics
  end.

(** [builder.ColumnType] and [builder.Column], as [Column.Build] fills
    them. *)
Record ColumnType := {
  ct_DataType : string;
  ct_Length : Z;
  ct_Decimal : Z;
  ct_Default : option string;
  ct_Null : bool;
  ct_AutoIncrement : bool;
  ct_Comment : string;
  ct_Desc : list string
}.

Record BuilderColumn := {
  bc_Name : string;
  bc_ColumnType : ColumnType
}.

(** [Column.Build].  [dt.Default] is the pointer of the column itself
    and of the built column type: the write through it changes the
    three, so the call returns the built column and the column as it is
    left. *)
Definition Column_Build (c : Column) : outcome (BuilderColumn * Column) :=
  let dt := col_Constrains c in
  match Column_Datatype c (Datatype dt) with
  | Panics => Panics
  | Returns DataType =>
      let Default' :=
        match Default dt with
        | Some s => if (String.length s =? 0)%nat then Some "''" else Some s
        | None => None
        end in
      Returns
        ({| bc_Name := col_Name c;
            bc_ColumnType :=
              {| ct_DataType := DataType;
                 ct_Length := Length dt;
                 ct_Decimal := Decimal dt;
                 ct_Default := Default';
                 ct_Null := Null dt;
                 ct_AutoIncrement := AutoIncrement dt;
                 ct_Comment := Desc dt;
                 ct_Desc := [Desc dt] |} |},
         {| col_Name := col_Name c;
            col_Constrains :=
              {| Datatype := Datatype dt; Length := Length dt;
                 Decimal := Decimal dt; Default := Default';
                 Null := Null dt; AutoIncrement := AutoIncrement dt;
                 Desc := Desc dt |} |})
  end.

(** [Key], [Table], of which the schemas keep lists, and [Schema]. *)
Record Key := {
  key_Name : string;
  key_Method : string;
  key_IsUnique : bool;
  key_ColumnNames : list string;
  key_Expr : string
}.

Record Table := {
  tbl_Name : string;
  tbl_Desc : string;
  tbl_Cols : list Column;
  tbl_Keys : list Key
}.

Record Schema := {
  sch_Name : string;
  sch_Tables : list Table
}.

(** [Database]: [Schemas] is the list of the configuration, [schemas]
    the map by name (nil until [Init]).  The endpoint [ep] is outside;
    [Dialect] is read by none of the functions below. *)
Record Database := {
  db_Name : string;
  Schemas : list Schema;
  schemas : option (gmap string Schema)
}.

Definition NewDatabase (name : string) : Database :=
  {| db_Name := name; Schemas := []; schemas := None |}.

(** One turn of the loop of [Init] that combines the tables of the
    schemas: the name of the schema is set when it is empty, an entry
    of the map is made for it when there is none, and its tables are
    appended there.  The state is the list of the schemas already seen,
    as they are left, and the map. *)
Definition combine (st : list Schema * gmap string Schema) (s : Schema)
    : list Schema * gmap string Schema :=
  let s := if decide (sch_Name s = "")
           then {| sch_Name := "public"; sch_Tables := sch_Tables s |}
           else s in
  let m := match st.2 !! sch_Name s with
           | Some _ => st.2
           | None => <[sch_Name s := {| sch_Name := sch_Name s;
                                        sch_Tables := [] |}]> st.2
           end in
  let m := match m !! sch_Name s with
           | Some e =>
               <[sch_Name s := {| sch_Name := sch_Name e;
                                  sch_Tables := sch_Tables e ++ sch_Tables s |}]> m
           | None => m
           end in
  (st.1 ++ [s], m).

(** [Init], up to the calls of the endpoint: the name of the database
    (that of the project, the argument), the map of the schemas and the
    combined tables. *)
Definition Init_schemas (DatabaseName : string) (d : Database) : Database :=
  let m := match schemas d with
           | Some m => m
           | None => ∅
           end in
  let Schemas0 :=
    if (length (Schemas d) =? 0)%nat
    then Schemas d ++ [ {| sch_Name := "public"; sch_Tables := [] |} ]
    else Schemas d in
  let st := fold_left combine Schemas0 ([], m) in
  {| db_Name := DatabaseName; Schemas := st.1; schemas := Some st.2 |}.

(** [WithSchema]: the endpoint executes the statement that switches the
    schema ([Exec], nil or an error); the result is the endpoint (here:
    the schema it is switched to) or an error, and the statements
    executed. *)
Definition WithSchema (Exec : string → option error)
    (statusx : StatusError → string) (d : Database) (name : string)
    : result string * list string :=
  let name := if decide (name = "") then "public" else name in
  match schemas d ≫= (λ m, m !! name) with
  | None =>
      (Err (errors_New ("schema " +:+ name +:+ " not found in database "
                        +:+ db_Name d)), [])
  | Some _ =>
      let stmt := "SET SEARCH_PATH TO " +:+ name in
      match Exec stmt with
      | Some e =>
          (Err (errors_New ("switch schema failed: " +:+ Error statusx e)),
           [stmt])
      | None => (Ok name, [stmt])
      end
  end.

Definition WithDefaultSchema (Exec : string → option error)
    (statusx : StatusError → string) (d : Database)
    : result string * list string :=
  WithSchema Exec statusx d "public".

End wasmdb.


(** ** The other host functions of [instance_exports.go] *)

Module hostabi.
Import wasm wasmtime.

(** What a host function asks of the collaborators of the host, in the
    order of the calls: a statement the endpoint of the database
    executes, a transaction or a contract call the chain client is
    given, a message published, a metrics object submitted. *)
Inductive Call :=
| CallExec (stmt : string)
| CallExecContext (prestate : string) (params : list string)
| CallQueryContext (prestate : string) (params : list string)
| CallSendTX (chainID : Z) (to value data : string)
| CallSendTXWithOperator (chainID : Z) (to value data operatorName : string)
| CallCallContract (chainID : Z) (to data : string)
| CallPublish (topic msg : string)
| CallSubmit (object : string).

(** The collaborators, none of them among the sources: the parser of a
    query envelope ([sql_util.ParseQuery]), the endpoint of the database
    ([Exec] for the statement that switches the schema, [ExecContext],
    [QueryContext] and [sql_util.JsonifyRows] on its rows), [gjson]
    ([Parse(s).Get(path).String()], [Valid], [Parse(s).IsArray()]), the
    chain client, the MQTT client and the metrics collector. *)
Record Ext := {
  ParseQuery : bytes → result (string * list string);
  Exec : string → option error;
  ExecContext : string → list string → option error;
  QueryContext : string → list string → result bytes;
  JsonifyRows : bytes → result bytes;
  gjson_Get : string → string → string;
  gjson_Valid : string → bool;
  gjson_IsArray : string → bool;
  cl_SendTX : Z → string → string → string → result string;
  cl_SendTXWithOperator : Z → string → string → string → string → result string;
  cl_CallContract : Z → string → string → result bytes;
  mq_Publish : string → string → option error;
  metrics_Submit : string → option error;
  statusx : StatusError → string
}.

(** The conversion [uint64(chainID)] of an [int32]. *)
Definition uint64_of_int32 (z : Z) : Z := z mod 2 ^ 64.

Section Host.

Context {M K : Type} `{Runtime M} `{KVStore K} (X : Ext).

(** The host: the fields of [ExportFuncs] the functions above use, and
    besides the pointers [db], [cl] and [mq] (nil or not) and the calls
    made so far. *)
Record Host := {
  ef : ExportFuncs M K;
  db : option wasmdb.Database;
  cl : bool;
  mq : bool;
  calls : list Call
}.

Definition set_ef (h : Host) (e : ExportFuncs M K) : Host :=
  {| ef := e; db := db h; cl := cl h; mq := mq h; calls := calls h |}.

Definition call (h : Host) (c : list Call) : Host :=
  {| ef := ef h; db := db h; cl := cl h; mq := mq h; calls := calls h ++ c |}.

(** [logAndPersistToDB] with the text of an error. *)
Definition log_error (h : Host) (e : error) : Host :=
  set_ef h (logAndPersistToDB (ef h) ErrorLevel efSrc (MsgError e)).

(** [GetEventType]. *)
Definition GetEventType (h : Host) (rid vmAddrPtr vmSizePtr : Z) : Z * Host :=
  match res (ef h) !! uint32 rid with
  | None => (ResultStatusCode_ResourceNotFound, h)
  | Some data =>
      match Copy (rt (ef h)) data vmAddrPtr vmSizePtr with
      | (m, Some err) =>
          (ResultStatusCode_TransDataToVMFailed,
           log_error (set_ef h (set_rt (ef h) m)) err)
      | (m, None) => (ResultStatusCode_OK, set_ef h (set_rt (ef h) m))
      end
  end.

(** [SetSQLDB]. *)
Definition SetSQLDB (h : Host) (addr size : Z) : Z * Host :=
  match db h with
  | None => (ResultStatusCode_NoDBContext, h)
  | Some d =>
      match Read (rt (ef h)) addr size with
      | Err err => (ResultStatusCode_ResourceNotFound, log_error h err)
      | Ok data =>
          match ParseQuery X data with
          | Err err => (ResultStatusCode_Failed, log_error h err)
          | Ok (prestate, params) =>
              match wasmdb.WithDefaultSchema (Exec X) (statusx X) d with
              | (Err err, stmts) =>
                  (ResultStatusCode_Failed,
                   log_error (call h (map CallExec stmts)) err)
              | (Ok _, stmts) =>
                  let h := call h (map CallExec stmts ++
                                   [CallExecContext prestate params]) in
                  match ExecContext X prestate params with
                  | Some err => (ResultStatusCode_Failed, log_error h err)
                  | None => (ResultStatusCode_OK, h)
                  end
              end
          end
      end
  end.

(** [GetSQLDB]. *)
Definition GetSQLDB (h : Host) (addr size vmAddrPtr vmSizePtr : Z) : Z * Host :=
  match db h with
  | None => (ResultStatusCode_NoDBContext, h)
  | Some d =>
      match Read (rt (ef h)) addr size with
      | Err err => (ResultStatusCode_ResourceNotFound, log_error h err)
      | Ok data =>
          match ParseQuery X data with
          | Err err => (ResultStatusCode_Failed, log_error h err)
          | Ok (prestate, params) =>
              match wasmdb.WithDefaultSchema (Exec X) (statusx X) d with
              | (Err err, stmts) =>
                  (ResultStatusCode_Failed,
                   log_error (call h (map CallExec stmts)) err)
              | (Ok _, stmts) =>
                  let h := call h (map CallExec stmts ++
                                   [CallQueryContext prestate params]) in
                  match QueryContext X prestate params with
                  | Err err => (ResultStatusCode_Failed, log_error h err)
                  | Ok rows =>
                      match JsonifyRows X rows with
                      | Err err => (ResultStatusCode_Failed, log_error h err)
                      | Ok ret =>
                          match Copy (rt (ef h)) ret vmAddrPtr vmSizePtr with
                          | (m, Some err) =>
                              (ResultStatusCode_TransDataToVMFailed,
                               log_error (set_ef h (set_rt (ef h) m)) err)
                          | (m, None) =>
                              (ResultStatusCode_OK, set_ef h (set_rt (ef h) m))
                          end
                      end
                  end
              end
          end
      end
  end.

(** [SendTX].  The context of the host is taken to hold the project:
    [types.MustProjectFromContext(ef.ctx)], an argument of the call of
    the client, returns (without the project it panics before the
    client is called).  The same holds for [SendTXWithOperator]. *)
Definition SendTX (h : Host) (chainID offset size vmAddrPtr vmSizePtr : Z)
    : Z * Host :=
  if negb (cl h)
  then (ResultStatusCode_Failed,
        log_error h (errors_New "eth client doesn't exist"))
  else
    match Read (rt (ef h)) offset size with
    | Err err => (ResultStatusCode_Failed, log_error h err)
    | Ok buf =>
        let ret := string_of_bytes buf in
        let to := gjson_Get X ret "to" in
        let value := gjson_Get X ret "value" in
        let data := gjson_Get X ret "data" in
        let h := call h [CallSendTX (uint64_of_int32 chainID) to value data] in
        match cl_SendTX X (uint64_of_int32 chainID) to value data with
        | Err err => (ResultStatusCode_Failed, log_error h err)
        | Ok txHash =>
            match Copy (rt (ef h)) (bytes_of_string txHash) vmAddrPtr vmSizePtr with
            | (m, Some err) =>
                (ResultStatusCode_Failed,
                 log_error (set_ef h (set_rt (ef h) m)) err)
            | (m, None) => (ResultStatusCode_OK, set_ef h (set_rt (ef h) m))
            end
        end
    end.

(** [SendTXWithOperator]. *)
Definition SendTXWithOperator (h : Host)
    (chainID offset size vmAddrPtr vmSizePtr : Z) : Z * Host :=
  if negb (cl h)
  then (ResultStatusCode_Failed,
        log_error h (errors_New "eth client doesn't exist"))
  else
    match Read (rt (ef h)) offset size with
    | Err err => (ResultStatusCode_Failed, log_error h err)
    | Ok buf =>
        let ret := string_of_bytes buf in
        let to := gjson_Get X ret "to" in
        let value := gjson_Get X ret "value" in
        let data := gjson_Get X ret "data" in
        let operatorName := gjson_Get X ret "operatorName" in
        let h := call h [CallSendTXWithOperator (uint64_of_int32 chainID)
                           to value data operatorName] in
        match cl_SendTXWithOperator X (uint64_of_int32 chainID) to value data
                operatorName with
        | Err err => (ResultStatusCode_Failed, log_error h err)
        | Ok txHash =>
            match Copy (rt (ef h)) (bytes_of_string txHash) vmAddrPtr vmSizePtr with
            | (m, Some err) =>
                (ResultStatusCode_Failed,
                 log_error (set_ef h (set_rt (ef h) m)) err)
            | (m, None) => (ResultStatusCode_OK, set_ef h (set_rt (ef h) m))
            end
        end
    end.

(** [SendMqttMsg]. *)
Definition SendMqttMsg (h : Host) (topicAddr topicSize msgAddr msgSize : Z)
    : Z * Host :=
  if negb (mq h)
  then (ResultStatusCode_Failed,
        log_error h (errors_New "mq client doesn't exist"))
  else
    match Read (rt (ef h)) topicAddr topicSize with
    | Err err => (ResultStatusCode_Failed, log_error h err)
    | Ok topicBuf =>
        match Read (rt (ef h)) msgAddr msgSize with
        | Err err => (ResultStatusCode_Failed, log_error h err)
        | Ok msgBuf =>
            let h := call h [CallPublish (string_of_bytes topicBuf)
                               (string_of_bytes msgBuf)] in
            match mq_Publish X (string_of_bytes topicBuf) (string_of_bytes msgBuf) with
            | Some err => (ResultStatusCode_Failed, log_error h err)
            | None => (ResultStatusCode_OK, h)
            end
        end
    end.

(** [CallContract]. *)
Definition CallContract (h : Host) (chainID offset size vmAddrPtr vmSizePtr : Z)
    : Z * Host :=
  if negb (cl h)
  then (ResultStatusCode_Failed,
        log_error h (errors_New "eth client doesn't exist"))
  else
    match Read (rt (ef h)) offset size with
    | Err err => (ResultStatusCode_Failed, log_error h err)
    | Ok buf =>
        let ret := string_of_bytes buf in
        let to := gjson_Get X ret "to" in
        let data := gjson_Get X ret "data" in
        let h := call h [CallCallContract (uint64_of_int32 chainID) to data] in
        match cl_CallContract X (uint64_of_int32 chainID) to data with
        | Err err => (ResultStatusCode_Failed, log_error h err)
        | Ok data =>
            match Copy (rt (ef h)) data vmAddrPtr vmSizePtr with
            | (m, Some err) =>
                (ResultStatusCode_Failed,
                 log_error (set_ef h (set_rt (ef h) m)) err)
            | (m, None) => (ResultStatusCode_OK, set_ef h (set_rt (ef h) m))
            end
        end
    end.

(** [StatSubmit]. *)
Definition StatSubmit (h : Host) (vmAddrPtr vmSizePtr : Z) : Z * Host :=
  match Read (rt (ef h)) vmAddrPtr vmSizePtr with
  | Err err => (ResultStatusCode_Failed, log_error h err)
  | Ok buf =>
      let str := string_of_bytes buf in
      if negb (gjson_Valid X str)
      then (ResultStatusCode_Failed, log_error h (errors_New "invalid json"))
      else if gjson_IsArray X str
      then (ResultStatusCode_Failed,
            log_error h (errors_New "json object should not be an array"))
      else
        let h := call h [CallSubmit str] in
        match metrics_Submit X str with
        | Some err => (ResultStatusCode_Failed, log_error h err)
        | None => (ResultStatusCode_OK, h)
        end
  end.

End Host.

Arguments Host M K : clear implicits.

(** The functions [LinkABI] links, by the names of the methods. *)
Inductive Fn :=
| FnAbort | FnTrace | FnSeed | FnLog | FnGetData | FnSetData | FnGetDB
| FnSetDB | FnSendTX | FnSendTXWithOperator | FnCallContract | FnSetSQLDB
| FnGetSQLDB | FnGetEnv | FnSendMqttMsg | FnApiCall | FnStatSubmit
| FnGetEventType.

(** The two maps of [LinkABI]. *)
Definition env_imports : list (string * Fn) :=
  [ ("abort", FnAbort); ("trace", FnTrace); ("seed", FnSeed);
    ("ws_log", FnLog); ("ws_get_data", FnGetData); ("ws_set_data", FnSetData);
    ("ws_get_db", FnGetDB); ("ws_set_db", FnSetDB); ("ws_send_tx", FnSendTX);
    ("ws_send_tx_with_operator", FnSendTXWithOperator);
    ("ws_call_contract", FnCallContract); ("ws_set_sql_db", FnSetSQLDB);
    ("ws_get_sql_db", FnGetSQLDB); ("ws_get_env", FnGetEnv);
    ("ws_send_mqtt_msg", FnSendMqttMsg); ("ws_api_call", FnApiCall) ].

Definition stat_imports : list (string * Fn) :=
  [ ("ws_submit_metrics", FnStatSubmit) ].

(** One loop of [LinkABI] over a map, in the order the loop meets its
    entries: the error of the first import that fails, and the imports
    asked of [impt], the failed one included. *)
Fixpoint link (impt : string → string → Fn → option error) (module : string)
    (entries : list (string * Fn)) : option error * list (string * string * Fn) :=
  match entries with
  | [] => (None, [])
  | (name, ff) :: rest =>
      match impt module name ff with
      | Some err => (Some err, [(module, name, ff)])
      | None =>
          let '(e, done) := link impt module rest in
          (e, (module, name, ff) :: done)
      end
  end.

(** [LinkABI]: the order in which a [range] meets the entries of a map
    is not fixed; [order_env] and [order_stat] are the two maps in the
    order of one run. *)
Definition LinkABI (impt : string → string → Fn → option error)
    (order_env order_stat : list (string * Fn))
    : option error * list (string * string * Fn) :=
  match link impt "env" order_env with
  | (Some err, done) => (Some err, done)
  | (None, done) =>
      let '(e, done') := link impt "stat" order_stat in
      (e, done ++ done')
  end.

End hostabi.


(** ** Inputs to run the other host functions on *)

(** Collaborators that accept everything: a query is its own statement
    without parameters, [gjson] finds under a path the path itself,
    every object is valid JSON and no array, the chain client answers
    with the hash [0xhash]. *)
Definition ext0 : hostabi.Ext :=
  {| hostabi.ParseQuery := λ b, Ok (string_of_bytes b, []);
     hostabi.Exec := λ _, None;
     hostabi.ExecContext := λ _ _, None;
     hostabi.QueryContext := λ _ _, Ok [];
     hostabi.JsonifyRows := λ rows, Ok rows;
     hostabi.gjson_Get := λ _ path, path;
     hostabi.gjson_Valid := λ _, true;
     hostabi.gjson_IsArray := λ _, false;
     hostabi.cl_SendTX := λ _ _ _ _, Ok "0xhash";
     hostabi.cl_SendTXWithOperator := λ _ _ _ _ _, Ok "0xhash";
     hostabi.cl_CallContract := λ _ _ _, Ok [];
     hostabi.mq_Publish := λ _ _, None;
     hostabi.metrics_Submit := λ _, None;
     hostabi.statusx := λ _, "" |}.

(** A database that lists the one schema [main]. *)
Definition db_main : wasmdb.Database :=
  {| wasmdb.db_Name := "";
     wasmdb.Schemas := [ {| wasmdb.sch_Name := "main"; wasmdb.sch_Tables := [] |} ];
     wasmdb.schemas := None |}.

(** The host on the memory of sixteen bytes, with that database after
    [Init], a chain client and an MQTT client. *)
Definition host0 : hostabi.Host model.Mem model.KV :=
  {| hostabi.ef := ef0;
     hostabi.db := Some (wasmdb.Init_schemas "w3b_1" db_main);
     hostabi.cl := true;
     hostabi.mq := true;
     hostabi.calls := [] |}.


(** ** Notions the properties of the rest of the code are stated with *)

Section ErrorSetsNotions.
Import errors.

(** Induction on an error, with the errors of a set as the smaller
    ones. *)
Fixpoint err_nested_ind (P : err → Prop)
    (HL : ∀ e, P (Leaf e))
    (HS : ∀ s, Forall (λ f, P (Error f)) (errors s) → P (Sub s))
    (e : err) : P e :=
  match e with
  | Leaf e => HL e
  | Sub s =>
      HS s ((fix go (l : list FieldError) : Forall (λ f, P (Error f)) l :=
               match l with
               | [] => List.Forall_nil _
               | f :: l' =>
                   @List.Forall_cons _ _ f l'
                     (err_nested_ind P HL HS (Error f)) (go l')
               end) (errors s))
  end.

(** What one entry of a set adds to the flattened set. *)
Definition flat_entry (f : FieldError) : list FieldError :=
  match Error f with
  | Sub _ =>
      map (λ ff, {| Field := Field f ++ Field ff; Error := Error ff |})
        (leaves (Error f))
  | Leaf _ => [f]
  end.

(** One turn of the loop of [KeyPath.String]. *)
Definition write_node (buf : string) (keyOrIndex : Node) : string :=
  match keyOrIndex with
  | KString s => (if (0 <? String.length buf)%nat then buf +:+ "." else buf) +:+ s
  | KInt i => buf +:+ "[" +:+ pretty i +:+ "]"
  | _ => buf
  end.

(** A node is written when it is a [string] or an [int]. *)
Definition written (n : Node) : bool :=
  match n with
  | KString _ | KInt _ => true
  | _ => false
  end.

(** The keys after the first, each behind a dot. *)
Fixpoint dotted (ks : list string) : string :=
  match ks with
  | [] => ""
  | k :: ks => "." +:+ k +:+ dotted ks
  end.

(** What [ToErrorFields] reports for one flattened error. *)
Definition report (errorFields : list ErrorField) (fieldErr : FieldError)
    : list ErrorField :=
  if (1 <? length (Field fieldErr))%nat
  then
    match Field fieldErr with
    | KLocation l :: rest =>
        errorFields ++
          [ {| In := l; EField := KeyPath_String rest; Msg := Error fieldErr |} ]
    | _ => errorFields
    end
  else errorFields.

End ErrorSetsNotions.

Section TypesNotions.
Import types.

(** The state of the loop of [ETHClientConfig.Init]. *)
Definition add_client (G : Gjson) (Clients : gmap Z string) (kv : string * string)
    : gmap Z string :=
  match Atoi G kv.1 with
  | None => Clients
  | Some chainID => <[uint32 chainID := kv.2]> Clients
  end.

(** What [index_chains] keeps about the two maps. *)
Definition chains_indexed (cm : gmap string Chain) (cidm : gmap Z Chain) : Prop :=
  (∀ n ch, cm !! n = Some ch → Name ch = n) ∧
  (∀ id ch, cidm !! id = Some ch → id ≠ 0 ∧ ChainID ch = id ∧
                                   cm !! Name ch ≠ None).

End TypesNotions.

Section ResourceNotions.
Import resource.

(** The directory of the upload is there, or is made. *)
Definition root_ready (E : Env) (id : string) : Prop :=
  IsDirExists (Stat E (Join E [ResourceRoot E; id])) = true ∨
  MkdirAll E (Join E [ResourceRoot E; id]) = None.

(** An upload of a file of 2000 bytes, where the limit is 1024. *)
Definition oversize_upload : Env :=
  {| ResourceRoot := "/resources"; UploadLimit := 1024;
     Join := String.concat "/";
     Stat := λ _, (Some {| IsDir := true |}, None);
     MkdirAll := λ _, None;
     Filename := "applet.wasm";
     Open := None;
     SeekEnd := Ok 2000;
     Usage := λ _, (Some (2 ^ 40), None);
     SeekStart := None;
     OpenFile := λ _, None;
     Copy := None;
     statusx := λ _, "" |}.

(** An upload of a file of 500 bytes, where the limit is 1024 and the
    directory is still to be made. *)
Definition small_upload : Env :=
  {| ResourceRoot := "/resources"; UploadLimit := 1024;
     Join := String.concat "/";
     Stat := λ _, (None, Some {| IsNotExist := true |});
     MkdirAll := λ _, None;
     Filename := "applet.wasm";
     Open := None;
     SeekEnd := Ok 500;
     Usage := λ _, (Some (2 ^ 40), None);
     SeekStart := None;
     OpenFile := λ _, None;
     Copy := None;
     statusx := λ _, "" |}.

(** The digits [%x] prints. *)
Definition is_lower_hex (c : ascii) : bool :=
  is_digit c || ((97 <=? nat_of_ascii c)%nat && (nat_of_ascii c <=? 102)%nat).

End ResourceNotions.

Section DatabaseNotions.
Import wasmdb.

(** Whether a datatype is one of the integer types. *)
Definition is_integer_type (t : WasmDBDatatype) : bool :=
  match t with
  | WASM_DB_DATATYPE__INT
  | WASM_DB_DATATYPE__INT8 | WASM_DB_DATATYPE__UINT8
  | WASM_DB_DATATYPE__INT16 | WASM_DB_DATATYPE__UINT16
  | WASM_DB_DATATYPE__INT32 | WASM_DB_DATATYPE__UINT32
  | WASM_DB_DATATYPE__UINT
  | WASM_DB_DATATYPE__INT64 | WASM_DB_DATATYPE__UINT64 => true
  | _ => false
  end.

(** The schema as the loop of [Init] leaves it: with the name [public]
    when it had none. *)
Definition fix_name (s : Schema) : Schema :=
  if decide (sch_Name s = "")
  then {| sch_Name := "public"; sch_Tables := sch_Tables s |}
  else s.

(** The schemas of a list that have the name [n], and their tables. *)
Definition named (n : string) (l : list Schema) : list Schema :=
  filter (λ s, sch_Name s = n) l.

Definition tables_named (n : string) (l : list Schema) : list Table :=
  concat (map sch_Tables (named n l)).

(** The entry of the map for the name [n] after the schemas of [l] have
    been combined into it, from the entry [o] before. *)
Definition extend (o : option Schema) (n : string) (l : list Schema)
    : option Schema :=
  match named n l with
  | [] => o
  | _ :: _ =>
      Some {| sch_Name := from_option sch_Name n o;
              sch_Tables := from_option sch_Tables [] o ++ tables_named n l |}
  end.

(** The schemas the loop of [Init] goes through. *)
Definition listed (d : Database) : list Schema :=
  match Schemas d with
  | [] => [ {| sch_Name := "public"; sch_Tables := [] |} ]
  | l => l
  end.

(** The database has, or gets from [Init], a schema [public]. *)
Definition has_public (d : Database) : Prop :=
  is_Some (schemas d ≫= (λ m, m !! "public")) ∨
  Schemas d = [] ∨
  ∃ s, s ∈ Schemas d ∧ (sch_Name s = "" ∨ sch_Name s = "public").

End DatabaseNotions.

Section HostFunctionsNotions.
Import wasm wasmtime hostabi.
Context {M K : Type} `{Runtime M} `{KVStore K} (X : Ext).

(** The record with other event types. *)
Definition with_evs (e : ExportFuncs M K) (v : gmap Z bytes) : ExportFuncs M K :=
  {| rt := rt e; res := res e; evs := v; env := env e; kvs := kvs e;
     log := log e; srv := srv e; marshal := marshal e |}.

(** The host without a database. *)
Definition without_db (h : Host M K) : Host M K :=
  {| ef := ef h; db := None; cl := cl h; mq := mq h; calls := calls h |}.

End HostFunctionsNotions.

Section DispatcherMoreNotions.
Import wasm event.

#[global] Instance EventHandleResult_eq_dec : EqDecision EventHandleResult.
Proof. solve_decision. Defined.


End DispatcherMoreNotions.

(** The registry after [AddInstance] of the one [STARTED] instance a
    second time. *)
Definition shared_world : vm.World :=
  (vm.AddInstance started_world 8 1%positive).2.


(** * Properties *)

(** ** The instance registry *)

Section Registry.
Import vm.

Lemma LoadAndRemove_Load (w : World) (id : Z) :
  Load (LoadAndRemove w id).2 id = None.
Proof.
  unfold LoadAndRemove, Load.
  destruct (instances w !! id) as [i|] eqn:E; simpl; [|done].
  apply lookup_delete_eq.
Qed.

Lemma Stop_instances (w : World) (i : ref) : instances (Stop w i) = instances w.
Proof. unfold Stop. by destruct (State w i) as [[]|]. Qed.

Lemma Stop_started (w : World) (i : ref) :
  State w i = Some InstanceState_Started →
  Stop w i =
    {| objs := <[i := {| obj_state := InstanceState_Stopped |}]> (objs w);
       instances := instances w;
       trace := trace w ++
                [EvTransition i InstanceState_Started InstanceState_Stopped] |}.
Proof. unfold Stop. by intros ->. Qed.

(** [DelInstance] on a registered id: the entry goes, then the instance
    is stopped if it is [STARTED]. *)
Lemma DelInstance_registered (w : World) (id : Z) (i : ref) :
  Load w id = Some i →
  DelInstance w id =
    if decide (State w i = Some InstanceState_Started)
    then Stop (removed w id) i
    else removed w id.
Proof.
  unfold DelInstance, LoadAndRemove, Load. intros ->. reflexivity.
Qed.

(** After [DelInstance] returns, nothing is registered under the id,
    whatever was there before. *)
Lemma DelInstance_Load (w : World) (id : Z) : Load (DelInstance w id) id = None.
Proof.
  unfold DelInstance.
  pose proof (LoadAndRemove_Load w id) as Hl.
  destruct (LoadAndRemove w id) as [[i|] w1]; simpl in *; [|done].
  case_decide; [|done].
  unfold Load in *. by rewrite Stop_instances.
Qed.

(** The other ids keep their entries. *)
Lemma DelInstance_Load_ne (w : World) (id id' : Z) :
  id' ≠ id → Load (DelInstance w id) id' = Load w id'.
Proof.
  intros Hne. unfold DelInstance, LoadAndRemove, Load.
  destruct (instances w !! id) as [i|] eqn:E; simpl; [|done].
  case_decide; rewrite ?Stop_instances; simpl; by rewrite lookup_delete_ne.
Qed.

End Registry.

(** C5, as the code has it: for a registered id whose instance is
    [STARTED], [DelInstance] first deletes the registry entry and then
    stops the instance, which ends in state [STOPPED]; there is no
    transition to [DESTROYED]; when it returns nothing is registered
    under the id, and the other ids keep their entries. *)
Theorem DelInstance_started (w : vm.World) (id : Z) (i : vm.ref) :
  vm.Load w id = Some i →
  vm.State w i = Some vm.InstanceState_Started →
  vm.trace (vm.DelInstance w id) =
    vm.trace w ++
      [vm.EvRemoved id;
       vm.EvTransition i vm.InstanceState_Started vm.InstanceState_Stopped] ∧
  vm.State (vm.DelInstance w id) i = Some vm.InstanceState_Stopped ∧
  vm.Load (vm.DelInstance w id) id = None ∧
  ∀ id', id' ≠ id → vm.Load (vm.DelInstance w id) id' = vm.Load w id'.
Proof.
  intros Hl Hs.
  split_and!; [| |apply DelInstance_Load|intros; by apply DelInstance_Load_ne].
  - rewrite (DelInstance_registered w id i Hl), decide_True by exact Hs.
    rewrite Stop_started by exact Hs. simpl. by rewrite <- app_assoc.
  - rewrite (DelInstance_registered w id i Hl), decide_True by exact Hs.
    rewrite Stop_started by exact Hs.
    unfold vm.State. cbn [vm.objs vm.removed]. by rewrite lookup_insert_eq.
Qed.


(** [DelInstance_started] on the registry with the [STARTED] instance. *)
Lemma DelInstance_started_witness :
  vm.trace (vm.DelInstance started_world 7) =
    vm.trace started_world ++
      [vm.EvRemoved 7;
       vm.EvTransition 1%positive vm.InstanceState_Started
         vm.InstanceState_Stopped] ∧
  vm.State (vm.DelInstance started_world 7) 1%positive
    = Some vm.InstanceState_Stopped ∧
  vm.Load (vm.DelInstance started_world 7) 7 = None ∧
  ∀ id', id' ≠ 7 →
    vm.Load (vm.DelInstance started_world 7) id' = vm.Load started_world id'.
Proof.
  apply (DelInstance_started started_world 7 1%positive); reflexivity.
Defined.

(** C5, as the specification states it, fails: on a [STARTED] instance
    the registry entry is deleted before the instance is stopped, and
    the instance is never taken to [DESTROYED]. *)
Lemma DelInstance_started_not_destroyed :
  vm.Load started_world 7 = Some 1%positive ∧
  vm.State started_world 1%positive = Some vm.InstanceState_Started ∧
  vm.trace (vm.DelInstance started_world 7) ≠
    vm.trace started_world ++
      [vm.EvTransition 1%positive vm.InstanceState_Started
         vm.InstanceState_Stopped;
       vm.EvTransition 1%positive vm.InstanceState_Stopped
         vm.InstanceState_Destroyed;
       vm.EvRemoved 7] ∧
  vm.State (vm.DelInstance started_world 7) 1%positive
    ≠ Some vm.InstanceState_Destroyed.
Proof. split_and!; [reflexivity|reflexivity|discriminate|discriminate]. Qed.

(** C6, as the code has it: [StartInstance] changes nothing: every
    instance, registered under the id or under another, keeps the state
    it has, so an instance that is [STARTED] stays [STARTED] and one
    that is [CREATED] or [STOPPED] stays as it is. *)
Theorem StartInstance_no_op (w : vm.World) (id id' : Z) :
  vm.StartInstance w id = w ∧
  vm.registered_state (vm.StartInstance w id) id' = vm.registered_state w id'.
Proof. split; reflexivity. Qed.


(** C6, as the specification states it, fails: a [CREATED] instance is
    still [CREATED], not [STARTED], after [StartInstance]. *)
Lemma StartInstance_created_not_started :
  vm.registered_state created_world 7 = Some vm.InstanceState_Created ∧
  vm.registered_state (vm.StartInstance created_world 7) 7
    = Some vm.InstanceState_Created ∧
  vm.registered_state (vm.StartInstance created_world 7) 7
    ≠ Some vm.InstanceState_Started.
Proof. split_and!; [reflexivity|reflexivity|discriminate]. Qed.

(** C10: [GetInstanceState] answers [(InstanceState_Stopped, true)] for
    every id in every registry, so also for an id that was never
    registered and for one that has just been removed; the state it
    reports is never [CREATED], [STARTED] or [DESTROYED] and the flag is
    never [false]. *)
Theorem GetInstanceState_constant (w : vm.World) (id : Z) :
  vm.GetInstanceState w id = (vm.InstanceState_Stopped, true) ∧
  vm.GetInstanceState vm.empty_world id = (vm.InstanceState_Stopped, true) ∧
  vm.GetInstanceState (vm.DelInstance w id) id
    = (vm.InstanceState_Stopped, true) ∧
  (vm.GetInstanceState w id).1 ≠ vm.InstanceState_Created ∧
  (vm.GetInstanceState w id).1 ≠ vm.InstanceState_Started ∧
  (vm.GetInstanceState w id).1 ≠ vm.InstanceState_Destroyed ∧
  (vm.GetInstanceState w id).2 ≠ false.
Proof. split_and!; try reflexivity; discriminate. Qed.


(** ** The runtime and the store of the model keep their promises *)

Section Model.
Import wasm model.

Lemma mem_write_length (m : bytes) (addr : Z) (data : bytes) :
  in_bounds m addr (Z.of_nat (length data)) = true →
  length (mem_write m addr data) = length m.
Proof.
  unfold in_bounds, mem_write. intros Hb.
  apply andb_prop in Hb as [Hb H3]. apply andb_prop in Hb as [H1 H2].
  rewrite !length_app, length_take, length_drop. lia.
Qed.

Lemma mem_write_drop (m : bytes) (addr : Z) (data : bytes) (n : nat) :
  in_bounds m addr (Z.of_nat (length data)) = true →
  (Z.to_nat addr + length data ≤ n)%nat →
  drop n (mem_write m addr data) = drop n m.
Proof.
  unfold in_bounds, mem_write. intros Hb Hn.
  apply andb_prop in Hb as [Hb H3]. apply andb_prop in Hb as [H1 H2].
  assert (length (take (Z.to_nat addr) m) = Z.to_nat addr) as Ht
    by (rewrite length_take; lia).
  rewrite drop_app_ge by lia. rewrite Ht.
  rewrite drop_app_ge by lia. rewrite drop_drop. f_equal. lia.
Qed.

Lemma in_bounds_mono (m m' : bytes) (addr size : Z) :
  (length m ≤ length m')%nat →
  in_bounds m addr size = true → in_bounds m' addr size = true.
Proof.
  unfold in_bounds. intros Hle Hb.
  apply andb_prop in Hb as [Hb H3]. apply andb_prop in Hb as [H1 H2].
  rewrite H1, H2. simpl. lia.
Qed.

(** What [Copy] wrote is read back from the address it allocated. *)
Lemma mem_copy_read (m m' : Mem) (data : bytes) (p q : Z) :
  mem_copy m data p q = (m', None) →
  mem_read m' (Z.of_nat (length (cells m))) (Z.of_nat (length data)) = Ok data.
Proof.
  unfold mem_copy.
  destruct (in_bounds (cells m) p 4 && in_bounds (cells m) q 4) eqn:Hb;
    [|discriminate].
  apply andb_prop in Hb as [Hp Hq]. intros [= <-].
  set (m1 := cells m ++ data).
  set (m2 := mem_write m1 p (le32 (Z.of_nat (length (cells m))))).
  assert (length m1 = (length (cells m) + length data)%nat) as Hl1
    by (unfold m1; by rewrite length_app).
  assert (in_bounds m1 p 4 = true) as Hp1
    by (eapply in_bounds_mono; [|exact Hp]; lia).
  assert (length m2 = length m1) as Hl2 by (by apply mem_write_length).
  assert (in_bounds m2 q 4 = true) as Hq2
    by (eapply in_bounds_mono; [|exact Hq]; lia).
  assert (Z.to_nat p + 4 ≤ length (cells m))%nat as Hpn.
  { unfold in_bounds in Hp. apply andb_prop in Hp as [Hp H3].
    apply andb_prop in Hp as [H1 H2]. lia. }
  assert (Z.to_nat q + 4 ≤ length (cells m))%nat as Hqn.
  { unfold in_bounds in Hq. apply andb_prop in Hq as [Hq H3].
    apply andb_prop in Hq as [H1 H2]. lia. }
  unfold mem_read. cbn [cells].
  assert (length (mem_write m2 q (le32 (Z.of_nat (length data)))) = length m2)
    as Hl3 by (by apply mem_write_length).
  unfold in_bounds at 1. rewrite Hl3, Hl2, Hl1.
  replace ((0 <=? Z.of_nat (length (cells m))) &&
           (0 <=? Z.of_nat (length data)) &&
           (Z.of_nat (length (cells m)) + Z.of_nat (length data) <=?
            Z.of_nat (length (cells m) + length data))) with true
    by (symmetry; rewrite !andb_true_iff, !Z.leb_le; lia).
  f_equal. rewrite !Nat2Z.id.
  rewrite mem_write_drop by (try exact Hq2; simpl; lia).
  unfold m2. rewrite mem_write_drop by (try exact Hp1; simpl; lia).
  unfold m1. rewrite drop_app_length. by rewrite firstn_all.
Qed.

#[global] Instance Mem_RuntimeLaws : RuntimeLaws Mem.
Proof.
  constructor. intros m m' data p q Hc.
  exists (Z.of_nat (length (cells m))). by apply (mem_copy_read m m' data p q).
Qed.

#[global] Instance KV_KVStoreLaws : KVStoreLaws KV.
Proof.
  constructor.
  - intros s s' k v [= <-]. simpl. unfold kv_get. simpl.
    by rewrite lookup_insert_eq.
  - intros s s' k k' v [= <-] Hne. simpl. unfold kv_get. simpl.
    by rewrite lookup_insert_ne.
Qed.

End Model.


(** ** The host ABI *)

(** [uint32] does not identify two different [int32]. *)
Lemma uint32_inj (a b : Z) :
  is_int32 a → is_int32 b → uint32 a = uint32 b → a = b.
Proof.
  unfold is_int32, int32_min, int32_max, uint32. intros Ha Hb Hab.
  pose proof (Z.div_mod a (2 ^ 32) ltac:(lia)) as Ea.
  pose proof (Z.div_mod b (2 ^ 32) ltac:(lia)) as Eb.
  pose proof (Z.mod_pos_bound a (2 ^ 32) ltac:(lia)).
  pose proof (Z.mod_pos_bound b (2 ^ 32) ltac:(lia)).
  assert (a / 2 ^ 32 = b / 2 ^ 32) by lia.
  lia.
Qed.

Section HostABI.
Import wasm wasmtime.

Context {M K : Type} `{Runtime M} `{KVStore K}.

Lemma copy_out_OK (ef ef' : ExportFuncs M K) (data : bytes) (p q : Z) :
  copy_out ef data p q = (ResultStatusCode_OK, ef') →
  Copy (rt ef) data p q = (rt ef', None).
Proof.
  unfold copy_out. destruct (Copy (rt ef) data p q) as [m [e|]].
  - discriminate.
  - by intros [= <-].
Qed.

Lemma copy_out_rt (ef1 ef2 : ExportFuncs M K) (data : bytes) (p q : Z) :
  rt ef1 = rt ef2 →
  (copy_out ef1 data p q).1 = (copy_out ef2 data p q).1 ∧
  rt (copy_out ef1 data p q).2 = rt (copy_out ef2 data p q).2.
Proof.
  unfold copy_out. intros ->.
  by destruct (Copy (rt ef2) data p q) as [m [e|]].
Qed.

(** What each host function answers when the read of its argument from
    the guest memory fails. *)
Lemma SetData_read_fails (ef : ExportFuncs M K) (rid addr size : Z) (e : error) :
  Read (rt ef) addr size = Err e →
  (SetData ef rid addr size).1 = ResultStatusCode_TransDataToVMFailed.
Proof. unfold SetData. by intros ->. Qed.

Lemma GetDB_read_fails (ef : ExportFuncs M K) (kAddr kSize p q : Z) (e : error) :
  Read (rt ef) kAddr kSize = Err e →
  (GetDB ef kAddr kSize p q).1 = ResultStatusCode_ResourceNotFound.
Proof. unfold GetDB. by intros ->. Qed.

Lemma SetDB_read_key_fails (ef : ExportFuncs M K) (kAddr kSize vAddr vSize : Z)
    (e : error) :
  Read (rt ef) kAddr kSize = Err e →
  (SetDB ef kAddr kSize vAddr vSize).1 = ResultStatusCode_ResourceNotFound.
Proof. unfold SetDB. by intros ->. Qed.

Lemma SetDB_read_val_fails (ef : ExportFuncs M K) (kAddr kSize vAddr vSize : Z)
    (e : error) :
  Read (rt ef) vAddr vSize = Err e →
  (SetDB ef kAddr kSize vAddr vSize).1 = ResultStatusCode_ResourceNotFound.
Proof.
  unfold SetDB. intros Hv.
  destruct (Read (rt ef) kAddr kSize); [|done]. by rewrite Hv.
Qed.

Lemma GetEnv_read_fails (ef : ExportFuncs M K) (kAddr kSize p q : Z) (e : error) :
  is_Some (env ef) →
  Read (rt ef) kAddr kSize = Err e →
  (GetEnv ef kAddr kSize p q).1 = ResultStatusCode_TransDataToVMFailed.
Proof. unfold GetEnv. intros [m ->] Hr. by rewrite Hr. Qed.

Lemma Log_read_fails (ef : ExportFuncs M K) (lvl ptr size : Z) (e : error) :
  Read (rt ef) ptr size = Err e →
  (Log ef lvl ptr size).1 = ResultStatusCode_Failed.
Proof. unfold Log. by intros ->. Qed.

(** Of these, [ApiCall] alone answers [TransDataFromVMFailed]. *)
Lemma ApiCall_read_fails (ef : ExportFuncs M K) (kAddr kSize p q : Z) (e : error) :
  Read (rt ef) kAddr kSize = Err e →
  (ApiCall ef kAddr kSize p q).1 = ResultStatusCode_TransDataFromVMFailed.
Proof. unfold ApiCall. by intros ->. Qed.

(** [SetData] succeeds exactly when the read does, and then stores what
    was read under [uint32(rid)] and changes nothing else. *)
Lemma SetData_OK (ef ef' : ExportFuncs M K) (rid addr size : Z) :
  SetData ef rid addr size = (ResultStatusCode_OK, ef') →
  ∃ v, Read (rt ef) addr size = Ok v ∧
       ef' = set_res ef (<[uint32 rid := v]> (res ef)).
Proof.
  unfold SetData. destruct (Read (rt ef) addr size) as [v|e].
  - intros [= <-]. by exists v.
  - discriminate.
Qed.

Lemma GetData_found (ef : ExportFuncs M K) (rid p q : Z) (v : bytes) :
  res ef !! uint32 rid = Some v →
  GetData ef rid p q = copy_out ef v p q.
Proof. unfold GetData, copy_out. by intros ->. Qed.

Lemma GetData_res_rt (ef1 ef2 : ExportFuncs M K) (rid p q : Z) :
  rt ef1 = rt ef2 →
  res ef1 !! uint32 rid = res ef2 !! uint32 rid →
  (GetData ef1 rid p q).1 = (GetData ef2 rid p q).1 ∧
  rt (GetData ef1 rid p q).2 = rt (GetData ef2 rid p q).2.
Proof.
  intros Hrt Hres. unfold GetData. rewrite Hres.
  destruct (res ef2 !! uint32 rid) as [v|]; [|done].
  by apply (copy_out_rt ef1 ef2 v p q).
Qed.

(** C7: after a [set_data(rid, v)] that succeeded ([v] being the bytes
    read from the guest), [get_data(rid)] copies out exactly [v]: it is
    the copy of [v] to the guest, and when it answers [OK] the guest
    memory holds [v] at the address handed over; and for any other
    resource id [get_data] answers as before the [set_data], with the
    same status and the same bytes in the guest memory. *)
Theorem SetData_GetData `{!RuntimeLaws M}
    (ef ef' : ExportFuncs M K) (rid addr size : Z) :
  is_int32 rid →
  SetData ef rid addr size = (ResultStatusCode_OK, ef') →
  ∃ v, Read (rt ef) addr size = Ok v ∧
    (∀ p q,
       GetData ef' rid p q = copy_out ef' v p q ∧
       ∀ ef'', GetData ef' rid p q = (ResultStatusCode_OK, ef'') →
               ∃ ptr, Read (rt ef'') ptr (Z.of_nat (length v)) = Ok v) ∧
    (∀ rid' p q,
       is_int32 rid' → rid' ≠ rid →
       res ef' !! uint32 rid' = res ef !! uint32 rid' ∧
       (GetData ef' rid' p q).1 = (GetData ef rid' p q).1 ∧
       rt (GetData ef' rid' p q).2 = rt (GetData ef rid' p q).2).
Proof.
  intros Hrid Hset.
  destruct (SetData_OK ef ef' rid addr size Hset) as (v & Hread & ->).
  exists v. split_and!; [done| |].
  - intros p q.
    assert (res (set_res ef (<[uint32 rid := v]> (res ef))) !! uint32 rid
            = Some v) as Hl by (simpl; apply lookup_insert_eq).
    rewrite (GetData_found _ rid p q v Hl). split; [done|].
    intros ef'' Hok. apply copy_out_OK in Hok.
    by apply (Copy_Read _ _ _ _ _ Hok).
  - intros rid' p q Hrid' Hne.
    assert (res (set_res ef (<[uint32 rid := v]> (res ef))) !! uint32 rid'
            = res ef !! uint32 rid') as Hl.
    { simpl. apply lookup_insert_ne. intros Heq.
      apply Hne. symmetry. by apply uint32_inj. }
    split; [exact Hl|]. by apply GetData_res_rt.
Qed.

(** [SetDB] succeeds exactly when both reads and the upsert do. *)
Lemma SetDB_OK (ef ef' : ExportFuncs M K) (kAddr kSize vAddr vSize : Z) :
  SetDB ef kAddr kSize vAddr vSize = (ResultStatusCode_OK, ef') →
  ∃ k v, Read (rt ef) kAddr kSize = Ok k ∧
         Read (rt ef) vAddr vSize = Ok v ∧
         Set_ (kvs ef) (string_of_bytes k) v = (kvs ef', None) ∧
         rt ef' = rt ef.
Proof.
  unfold SetDB.
  destruct (Read (rt ef) kAddr kSize) as [k|e]; [|discriminate].
  destruct (Read (rt ef) vAddr vSize) as [v|e]; [|discriminate].
  simpl. destruct (Set_ (kvs ef) (string_of_bytes k) v) as [s [e|]] eqn:Hs.
  - discriminate.
  - intros [= <-]. by exists k, v.
Qed.

(** An upsert leaves what the store holds under the other keys. *)
Lemma SetDB_other_key `{!KVStoreLaws K}
    (ef ef' : ExportFuncs M K) (kAddr kSize vAddr vSize : Z) (k : bytes)
    (key' : string) :
  SetDB ef kAddr kSize vAddr vSize = (ResultStatusCode_OK, ef') →
  Read (rt ef) kAddr kSize = Ok k →
  key' ≠ string_of_bytes k →
  Get (kvs ef') key' = Get (kvs ef) key'.
Proof.
  intros Hset Hk Hne.
  destruct (SetDB_OK ef ef' _ _ _ _ Hset) as (k0 & v & Hk0 & _ & Hs & _).
  rewrite Hk in Hk0. injection Hk0 as <-.
  by apply (Get_Set_ne _ _ _ _ _ Hs).
Qed.

(** C8: after a [set_db(k, v)] that succeeded, a [get_db] whose key
    reads as [k] is the copy of [v] to the guest (after the line it
    logs); so when the copy succeeds it answers [OK], and the guest
    memory then holds [v] at the address handed over. *)
Theorem SetDB_GetDB `{!RuntimeLaws M} `{!KVStoreLaws K}
    (ef ef' : ExportFuncs M K) (kAddr kSize vAddr vSize : Z) :
  SetDB ef kAddr kSize vAddr vSize = (ResultStatusCode_OK, ef') →
  ∃ k v, Read (rt ef) kAddr kSize = Ok k ∧
         Read (rt ef) vAddr vSize = Ok v ∧
    ∀ kAddr' kSize' p q,
      Read (rt ef') kAddr' kSize' = Ok k →
      GetDB ef' kAddr' kSize' p q =
        copy_out (logAndPersistToDB ef' InfoLevel efSrc
                    (MsgGetDB (string_of_bytes k) (string_of_bytes v)))
          v p q ∧
      ∀ m, Copy (rt ef') v p q = (m, None) →
           (GetDB ef' kAddr' kSize' p q).1 = ResultStatusCode_OK ∧
           rt (GetDB ef' kAddr' kSize' p q).2 = m ∧
           ∃ ptr, Read m ptr (Z.of_nat (length v)) = Ok v.
Proof.
  intros Hset.
  destruct (SetDB_OK ef ef' _ _ _ _ Hset) as (k & v & Hk & Hv & Hs & Hrt).
  exists k, v. split_and!; [done|done|].
  intros kAddr' kSize' p q Hk'.
  assert (GetDB ef' kAddr' kSize' p q =
          copy_out (logAndPersistToDB ef' InfoLevel efSrc
                      (MsgGetDB (string_of_bytes k) (string_of_bytes v)))
            v p q) as Hget.
  { unfold GetDB. rewrite Hk'.
    by rewrite (Get_Set_eq _ _ _ _ Hs). }
  split; [exact Hget|].
  intros m Hc. rewrite Hget. unfold copy_out. simpl. rewrite Hc. simpl.
  split_and!; [done|done|]. by apply (Copy_Read _ _ _ _ _ Hc).
Qed.

End HostABI.


(** [SetData_GetData] for the resource 1, set to the five bytes at
    address 2 of the guest memory. *)
Lemma SetData_GetData_witness :
  ∃ v, wasm.Read (wasmtime.rt ef0) 2 5 = Ok v ∧
    (∀ p q,
       wasmtime.GetData (wasmtime.SetData ef0 1 2 5).2 1 p q
         = wasmtime.copy_out (wasmtime.SetData ef0 1 2 5).2 v p q ∧
       ∀ ef'', wasmtime.GetData (wasmtime.SetData ef0 1 2 5).2 1 p q
                 = (wasm.ResultStatusCode_OK, ef'') →
               ∃ ptr, wasm.Read (wasmtime.rt ef'') ptr (Z.of_nat (length v))
                        = Ok v) ∧
    (∀ rid' p q,
       is_int32 rid' → rid' ≠ 1 →
       wasmtime.res (wasmtime.SetData ef0 1 2 5).2 !! uint32 rid'
         = wasmtime.res ef0 !! uint32 rid' ∧
       (wasmtime.GetData (wasmtime.SetData ef0 1 2 5).2 rid' p q).1
         = (wasmtime.GetData ef0 rid' p q).1 ∧
       wasmtime.rt (wasmtime.GetData (wasmtime.SetData ef0 1 2 5).2 rid' p q).2
         = wasmtime.rt (wasmtime.GetData ef0 rid' p q).2).
Proof.
  apply (SetData_GetData ef0 (wasmtime.SetData ef0 1 2 5).2 1 2 5).
  - unfold is_int32, int32_min, int32_max. lia.
  - reflexivity.
Defined.

(** The bytes [set_data] stored are the ones [get_data] writes to the
    guest, on the memory of the model. *)
Example SetData_GetData_hello :
  wasm.Read (wasmtime.rt ef0) 2 5 = Ok (bytes_of_string "hello") ∧
  (wasmtime.GetData (wasmtime.SetData ef0 1 2 5).2 1 8 12).1
    = wasm.ResultStatusCode_OK ∧
  wasm.Read
    (wasmtime.rt (wasmtime.GetData (wasmtime.SetData ef0 1 2 5).2 1 8 12).2)
    16 5 = Ok (bytes_of_string "hello").
Proof. split_and!; reflexivity. Qed.

(** [SetDB_GetDB] for the key at address 0 and the value at address 2
    of the guest memory. *)
Lemma SetDB_GetDB_witness :
  ∃ k v, wasm.Read (wasmtime.rt ef0) 0 2 = Ok k ∧
         wasm.Read (wasmtime.rt ef0) 2 5 = Ok v ∧
    ∀ kAddr' kSize' p q,
      wasm.Read (wasmtime.rt (wasmtime.SetDB ef0 0 2 2 5).2) kAddr' kSize'
        = Ok k →
      wasmtime.GetDB (wasmtime.SetDB ef0 0 2 2 5).2 kAddr' kSize' p q =
        wasmtime.copy_out
          (wasmtime.logAndPersistToDB (wasmtime.SetDB ef0 0 2 2 5).2
             wasmtime.InfoLevel wasmtime.efSrc
             (wasmtime.MsgGetDB (string_of_bytes k) (string_of_bytes v)))
          v p q ∧
      ∀ m, wasm.Copy (wasmtime.rt (wasmtime.SetDB ef0 0 2 2 5).2) v p q
             = (m, None) →
           (wasmtime.GetDB (wasmtime.SetDB ef0 0 2 2 5).2 kAddr' kSize' p q).1
             = wasm.ResultStatusCode_OK ∧
           wasmtime.rt
             (wasmtime.GetDB (wasmtime.SetDB ef0 0 2 2 5).2 kAddr' kSize' p q).2
             = m ∧
           ∃ ptr, wasm.Read m ptr (Z.of_nat (length v)) = Ok v.
Proof.
  apply (SetDB_GetDB ef0 (wasmtime.SetDB ef0 0 2 2 5).2 0 2 2 5).
  reflexivity.
Defined.

(** The value [set_db] stored is the one [get_db] writes to the guest,
    on the memory and the store of the model. *)
Example SetDB_GetDB_hello :
  (wasmtime.SetDB ef0 0 2 2 5).1 = wasm.ResultStatusCode_OK ∧
  (wasmtime.GetDB (wasmtime.SetDB ef0 0 2 2 5).2 0 2 8 12).1
    = wasm.ResultStatusCode_OK ∧
  wasm.Read
    (wasmtime.rt (wasmtime.GetDB (wasmtime.SetDB ef0 0 2 2 5).2 0 2 8 12).2)
    16 5 = Ok (bytes_of_string "hello").
Proof. split_and!; reflexivity. Qed.

(** C4 fails on the code: on a range outside the guest memory, of the
    host functions that read their argument from it, [ApiCall] alone
    answers [TransDataFromVMFailed] (-3); [SetData] and [GetEnv] answer
    [TransDataToVMFailed] (-4), [GetDB] and [SetDB] answer
    [ResourceNotFound] (-2), [Log] answers [Failed] (-1). *)
Theorem read_failure_status_codes :
  wasm.Read (wasmtime.rt ef0) 100 4 = Err model.ErrOutOfBounds ∧
  (wasmtime.SetData ef0 1 100 4).1 = -4 ∧
  (wasmtime.GetEnv ef0 100 4 8 12).1 = -4 ∧
  (wasmtime.GetDB ef0 100 4 8 12).1 = -2 ∧
  (wasmtime.SetDB ef0 100 4 2 5).1 = -2 ∧
  (wasmtime.SetDB ef0 0 2 100 4).1 = -2 ∧
  (wasmtime.Log ef0 0 100 4).1 = -1 ∧
  (wasmtime.ApiCall ef0 100 4 8 12).1 = -3 ∧
  wasm.ResultStatusCode_TransDataFromVMFailed = -3.
Proof. split_and!; reflexivity. Qed.


(** ** The event dispatcher *)

Section DispatcherFacts.
Import wasm event.

Context {I : Type} (D : Deps I).

(** The results that are not nil are as many as the handlers whose
    instance is not found and the handlers whose [HandleEvent] returns
    a result that is not nil. *)
Lemma length_omap_send (payload : bytes) (hs : list InstanceHandler) :
  length (omap id (map (send D payload) hs)) =
  (length (filter (λ v, GetConsumer D (ih_InstanceID v) = None) hs) +
   length (filter (λ v, is_Some (GetConsumer D (ih_InstanceID v) ≫=
                                   λ i, HandleEvent D i (ih_Handler v) payload))
             hs))%nat.
Proof.
  induction hs as [|v hs IH]; [done|].
  rewrite !filter_cons. simpl. unfold send at 1.
  destruct (GetConsumer D (ih_InstanceID v)) as [i|] eqn:Eg; simpl.
  - destruct (HandleEvent D i (ih_Handler v) payload) as [x|] eqn:Eh.
    + rewrite decide_True by (by eexists). simpl.
      rewrite Nat.add_succ_r. f_equal. exact IH.
    + rewrite decide_False by (by intros [? ?]). exact IH.
  - f_equal. exact IH.
Qed.

(** These handlers are no more than the list, and they are the list
    when no [HandleEvent] returns nil. *)
Lemma absent_or_handled (payload : bytes) (hs : list InstanceHandler) :
  (length (filter (λ v, GetConsumer D (ih_InstanceID v) = None) hs) +
   length (filter (λ v, is_Some (GetConsumer D (ih_InstanceID v) ≫=
                                   λ i, HandleEvent D i (ih_Handler v) payload))
             hs) ≤ length hs)%nat ∧
  ((∀ v i, v ∈ hs → GetConsumer D (ih_InstanceID v) = Some i →
           is_Some (HandleEvent D i (ih_Handler v) payload)) →
   (length (filter (λ v, GetConsumer D (ih_InstanceID v) = None) hs) +
    length (filter (λ v, is_Some (GetConsumer D (ih_InstanceID v) ≫=
                                    λ i, HandleEvent D i (ih_Handler v) payload))
              hs))%nat = length hs).
Proof.
  induction hs as [|v hs [IH1 IH2]]; [done|].
  rewrite !filter_cons.
  destruct (GetConsumer D (ih_InstanceID v)) as [i|] eqn:Eg; simpl.
  - destruct (HandleEvent D i (ih_Handler v) payload) as [x|] eqn:Eh.
    + rewrite decide_True by (by eexists). simpl. split; [lia|].
      intros Hall. rewrite <- IH2; [lia|].
      intros v' i' Hin. apply Hall. by right.
    + rewrite decide_False by (by intros [? ?]). split; [lia|].
      intros Hall. destruct (Hall v i) as [x Hx]; [left|done|].
      by rewrite Eh in Hx.
  - split; [lia|]. intros Hall. rewrite IH2; [done|].
    intros v' i' Hin. apply Hall. by right.
Qed.

(** A handler whose instance is not found is answered for at once, with
    the entry made up for it. *)
Lemma absent_send (payload : bytes) (v : InstanceHandler) :
  GetConsumer D (ih_InstanceID v) = None →
  send D payload v =
    Some {| wasm.InstanceID := SFID_String D (ih_InstanceID v);
            wasm.Code := -1;
            wasm.ErrMsg := "instance not found" |}.
Proof. intros Hn. unfold send. by rewrite Hn. Qed.

Lemma may_return_refl (projectName : string) (r : Event) (o : Return) :
  OnEventReceived D projectName r = Returns o → may_return D projectName r o.
Proof.
  intros Ho. exists o. split_and!; try done. by destruct o as [[] ? ?].
Qed.

(** A call whose channel stays empty returns one result only. *)
Lemma may_return_no_results (projectName : string) (r : Event) (o0 o : Return) :
  OnEventReceived D projectName r = Returns o0 →
  WasmResults (ret o0) = [] →
  may_return D projectName r o →
  o = o0.
Proof.
  intros Ho0 Hnil (o1 & Ho1 & He & Hi & Hp & Hs).
  rewrite Ho0 in Ho1. injection Ho1 as <-.
  rewrite Hnil in Hp. apply Permutation_nil_r in Hp.
  destruct o as [ro eo io], o0 as [r0 e0 i0]. simpl in *. subst.
  f_equal. rewrite <- Hs, Hp. destruct r0; simpl in *. by subst.
Qed.

(** The call on an event that passes the authentication and the
    resolution of its publisher: the strategies are looked up, every
    matched handler is dispatched, and the results that are not nil are
    appended in the order of the loop. *)
Lemma OnEventReceived_dispatch (projectName : string) (r : Event)
    (h : EventHeader) :
  Header r = Some h →
  publisherVerification D r = None →
  publisher_resolved D projectName h →
  ∃ o, OnEventReceived D projectName r = Returns o ∧
       WasmResults (ret o) =
         omap id (map (send D (bytes_of_string (Payload r)))
                    (matched D projectName h)).
Proof.
  intros Hh Hv Hp. unfold OnEventReceived, matched. rewrite Hh, Hv.
  assert (∃ ret1,
    (if (0 <? String.length (PubId h))%nat
     then match GetPublisherByPubKeyAndProjectName D (PubId h) projectName with
          | Ok pub =>
              Some (set_Pub
                      {| ProjectName := projectName; PubID := 0; PubName := "";
                         EventID := EventId h; ErrMsg := "";
                         WasmResults := [] |} pub)
          | Err _ => None
          end
     else Some {| ProjectName := projectName; PubID := 0; PubName := "";
                  EventID := EventId h; ErrMsg := ""; WasmResults := [] |})
    = Some ret1 ∧ WasmResults ret1 = []) as (ret1 & -> & Hnil).
  { destruct (0 <? String.length (PubId h))%nat eqn:Hlen.
    - destruct Hp as [Hp|[pub Hp]].
      + apply Nat.ltb_lt in Hlen. lia.
      + rewrite Hp. by eexists.
    - by eexists. }
  destruct (FindStrategyInstances D projectName (eventType_of D h)) as [hs|e].
  - eexists. split; [done|]. simpl. by rewrite Hnil.
  - eexists. split; [done|]. simpl. by rewrite Hnil.
Qed.

(** The lookup of a publisher that fails ends the call through the bare
    [return]: no error is returned and [ErrMsg] stays empty. *)
Lemma OnEventReceived_unknown_publisher (projectName : string) (r : Event)
    (h : EventHeader) (e : error) :
  Header r = Some h →
  publisherVerification D r = None →
  String.length (PubId h) ≠ 0%nat →
  GetPublisherByPubKeyAndProjectName D (PubId h) projectName = Err e →
  OnEventReceived D projectName r =
    Returns {| ret := {| ProjectName := projectName; PubID := 0; PubName := "";
                         EventID := EventId h; ErrMsg := "";
                         WasmResults := [] |};
               err := None;
               invoked := [] |}.
Proof.
  intros Hh Hv Hlen Hp. unfold OnEventReceived. rewrite Hh, Hv.
  destruct (0 <? String.length (PubId h))%nat eqn:Hl.
  - by rewrite Hp.
  - apply Nat.ltb_ge in Hl. lia.
Qed.

(** An event that fails the verification is rejected with the error of
    the verification. *)
Lemma OnEventReceived_rejected (projectName : string) (r : Event)
    (h : EventHeader) (e : error) :
  Header r = Some h →
  publisherVerification D r = Some e →
  OnEventReceived D projectName r =
    Returns {| ret := {| ProjectName := projectName; PubID := 0; PubName := "";
                         EventID := EventId h;
                         ErrMsg := Error (statusx D) e;
                         WasmResults := [] |};
               err := Some e;
               invoked := [] |}.
Proof. intros Hh Hv. unfold OnEventReceived. by rewrite Hh, Hv. Qed.

(** [InvalidAuthValue] is the error for a token that parses to a claim
    whose payload is not a string. *)
Lemma publisherVerification_InvalidAuthValue (r : Event) (h : EventHeader) :
  Header r = Some h →
  Token h ≠ "" →
  ParseToken D (publisherJwt D) (Token h) = Ok PayloadOther →
  publisherVerification D r = Some (status_Error InvalidAuthValue).
Proof.
  intros Hh Ht Hp. unfold publisherVerification. rewrite Hh.
  destruct (Token h) as [|c s] eqn:E; [done|]. simpl.
  unfold publisherJwt in Hp. by rewrite Hp.
Qed.

(** An empty token, and a token that does not parse, fail the
    verification: the first with the error made on the spot, the second
    with the error of the parser. *)
Lemma publisherVerification_empty_token (r : Event) (h : EventHeader) :
  Header r = Some h →
  Token h = "" →
  publisherVerification D r = Some (errors_New "message token is invalid").
Proof.
  intros Hh Ht. unfold publisherVerification. by rewrite Hh, Ht.
Qed.

Lemma publisherVerification_unparseable (r : Event) (h : EventHeader) (e : error) :
  Header r = Some h →
  Token h ≠ "" →
  ParseToken D (publisherJwt D) (Token h) = Err e →
  publisherVerification D r = Some e.
Proof.
  intros Hh Ht Hp. unfold publisherVerification. rewrite Hh.
  destruct (Token h) as [|c s] eqn:E; [done|]. simpl.
  unfold publisherJwt in Hp. by rewrite Hp.
Qed.

End DispatcherFacts.

(** C1, as the code has it: on an event that passes the authentication
    and the resolution of its publisher, every result a call may return
    has as many entries as there are matched strategies whose instance
    [vm.GetConsumer] does not find, each of them with the entry
    [{code: -1, errMsg: "instance not found"}], and matched strategies
    whose instance is found and whose [HandleEvent] returns a result
    that is not nil.  So there are never more entries than matched
    strategies, and as many when no [HandleEvent] returns nil. *)
Theorem WasmResults_count {I : Type} (D : event.Deps I) (projectName : string)
    (r : event.Event) (h : event.EventHeader) (o : event.Return) :
  event.Header r = Some h →
  event.publisherVerification D r = None →
  event.publisher_resolved D projectName h →
  event.may_return D projectName r o →
  length (event.WasmResults (event.ret o)) =
    (length (filter (λ v, event.GetConsumer D (event.ih_InstanceID v) = None)
               (event.matched D projectName h)) +
     length (filter (λ v, is_Some
                            (event.GetConsumer D (event.ih_InstanceID v) ≫=
                             λ i, event.HandleEvent D i (event.ih_Handler v)
                                    (bytes_of_string (event.Payload r))))
               (event.matched D projectName h)))%nat ∧
  (∀ v, v ∈ event.matched D projectName h →
        event.GetConsumer D (event.ih_InstanceID v) = None →
        {| wasm.InstanceID := event.SFID_String D (event.ih_InstanceID v);
           wasm.Code := -1;
           wasm.ErrMsg := "instance not found" |}
          ∈ event.WasmResults (event.ret o)) ∧
  (length (event.WasmResults (event.ret o))
     ≤ length (event.matched D projectName h))%nat ∧
  ((∀ v i, v ∈ event.matched D projectName h →
           event.GetConsumer D (event.ih_InstanceID v) = Some i →
           is_Some (event.HandleEvent D i (event.ih_Handler v)
                      (bytes_of_string (event.Payload r)))) →
   length (event.WasmResults (event.ret o))
     = length (event.matched D projectName h)).
Proof.
  intros Hh Hv Hp (o0 & Ho0 & _ & _ & Hperm & _).
  destruct (OnEventReceived_dispatch D projectName r h Hh Hv Hp)
    as (o1 & Ho1 & Hw).
  rewrite Ho0 in Ho1. injection Ho1 as <-.
  pose proof (absent_or_handled D (bytes_of_string (event.Payload r))
                (event.matched D projectName h)) as [Hle Hall].
  rewrite (Permutation_length Hperm), Hw, length_omap_send.
  split_and!; [done| |exact Hle|exact Hall].
  intros v Hin Hn. rewrite Hperm, Hw. apply list_elem_of_omap.
  exists (event.send D (bytes_of_string (event.Payload r)) v). split.
  - apply list_elem_of_fmap. by exists v.
  - simpl. by apply absent_send.
Qed.


(** [WasmResults_count] for an event of the publisher [pubA]: two
    strategies match, one instance runs its handler, the other is not
    found, and there are two results. *)
Lemma WasmResults_count_witness :
  ∃ o, event.OnEventReceived (deps handle_ok) "p" (event_of "pubA" "token-of-1")
         = Returns o ∧
       length (event.WasmResults (event.ret o)) = 2%nat ∧
       (length (event.WasmResults (event.ret o)) =
          (length (filter (λ v, event.GetConsumer (deps handle_ok)
                                  (event.ih_InstanceID v) = None)
                     (event.matched (deps handle_ok) "p"
                        (header_of "pubA" "token-of-1"))) +
           length (filter (λ v, is_Some
                                  (event.GetConsumer (deps handle_ok)
                                     (event.ih_InstanceID v) ≫=
                                   λ i, event.HandleEvent (deps handle_ok) i
                                          (event.ih_Handler v)
                                          (bytes_of_string "hi")))
                     (event.matched (deps handle_ok) "p"
                        (header_of "pubA" "token-of-1"))))%nat ∧
        (∀ v, v ∈ event.matched (deps handle_ok) "p"
                    (header_of "pubA" "token-of-1") →
              event.GetConsumer (deps handle_ok) (event.ih_InstanceID v) = None →
              {| wasm.InstanceID :=
                   event.SFID_String (deps handle_ok) (event.ih_InstanceID v);
                 wasm.Code := -1;
                 wasm.ErrMsg := "instance not found" |}
                ∈ event.WasmResults (event.ret o)) ∧
        (length (event.WasmResults (event.ret o))
           ≤ length (event.matched (deps handle_ok) "p"
                       (header_of "pubA" "token-of-1")))%nat ∧
        ((∀ v i, v ∈ event.matched (deps handle_ok) "p"
                       (header_of "pubA" "token-of-1") →
                 event.GetConsumer (deps handle_ok) (event.ih_InstanceID v)
                   = Some i →
                 is_Some (event.HandleEvent (deps handle_ok) i
                            (event.ih_Handler v) (bytes_of_string "hi"))) →
         length (event.WasmResults (event.ret o))
           = length (event.matched (deps handle_ok) "p"
                       (header_of "pubA" "token-of-1")))).
Proof.
  eexists. split; [reflexivity|]. split; [reflexivity|].
  apply (WasmResults_count (deps handle_ok) "p" (event_of "pubA" "token-of-1")
           (header_of "pubA" "token-of-1")).
  - reflexivity.
  - reflexivity.
  - right. eexists. reflexivity.
  - apply may_return_refl. reflexivity.
Defined.

(** C1, as the specification states it, fails: when [HandleEvent] of a
    matched instance returns nil, the loop over the channel skips it and
    the results are fewer than the matched strategies. *)
Lemma WasmResults_fewer_than_matched :
  event.publisherVerification (deps handle_nil) (event_of "pubA" "token-of-1")
    = None ∧
  event.publisher_resolved (deps handle_nil) "p" (header_of "pubA" "token-of-1") ∧
  length (event.matched (deps handle_nil) "p" (header_of "pubA" "token-of-1"))
    = 2%nat ∧
  ∃ o, event.OnEventReceived (deps handle_nil) "p" (event_of "pubA" "token-of-1")
         = Returns o ∧
       event.err o = None ∧
       event.WasmResults (event.ret o) =
         [ {| wasm.InstanceID := "2"; wasm.Code := -1;
              wasm.ErrMsg := "instance not found" |} ] ∧
       length (event.WasmResults (event.ret o))
         ≠ length (event.matched (deps handle_nil) "p"
                     (header_of "pubA" "token-of-1")).
Proof.
  split_and!; [reflexivity|right; eexists; reflexivity|reflexivity|].
  eexists. split_and!; [reflexivity|reflexivity|reflexivity|].
  simpl. lia.
Qed.

(** C2 fails on the code: an event that passes the verification, with
    the publisher key [nobody] that no publisher has, is answered
    through the bare [return]: [ErrMsg] is empty and no error is
    returned (no handler is invoked and [WasmResults] is empty). *)
Theorem unknown_publisher_ErrMsg_empty :
  event.publisherVerification (deps handle_ok) (event_of "nobody" "token-of-1")
    = None ∧
  event.GetPublisherByPubKeyAndProjectName (deps handle_ok) "nobody" "p"
    = Err (errors_New "publisher not found") ∧
  event.OnEventReceived (deps handle_ok) "p" (event_of "nobody" "token-of-1") =
    Returns {| event.ret :=
                 {| event.ProjectName := "p"; event.PubID := 0;
                    event.PubName := ""; event.EventID := "e1";
                    event.ErrMsg := ""; event.WasmResults := [] |};
               event.err := None;
               event.invoked := [] |}.
Proof. split_and!; reflexivity. Qed.

(** C3, as the code has it: an event whose token is empty is rejected
    with the error [message token is invalid], and one whose token does
    not parse under the key of the project with the error of the parser;
    in both cases the call returns, [ErrMsg] is the text of the error,
    [WasmResults] is empty and no handler is invoked. *)
Theorem bad_token_rejected {I : Type} (D : event.Deps I) (projectName : string)
    (r : event.Event) (h : event.EventHeader) :
  event.Header r = Some h →
  (event.Token h = "" ∨
   ∃ e, event.ParseToken D (event.publisherJwt D) (event.Token h) = Err e) →
  ∃ e,
    (if decide (event.Token h = "")
     then e = errors_New "message token is invalid"
     else event.ParseToken D (event.publisherJwt D) (event.Token h) = Err e) ∧
    ∀ o, event.may_return D projectName r o ↔
         o = {| event.ret :=
                  {| event.ProjectName := projectName; event.PubID := 0;
                     event.PubName := ""; event.EventID := event.EventId h;
                     event.ErrMsg := Error (event.statusx D) e;
                     event.WasmResults := [] |};
                event.err := Some e;
                event.invoked := [] |}.
Proof.
  intros Hh Hbad.
  assert (∃ e,
    (if decide (event.Token h = "")
     then e = errors_New "message token is invalid"
     else event.ParseToken D (event.publisherJwt D) (event.Token h) = Err e) ∧
    event.publisherVerification D r = Some e) as (e & Hcase & Hv).
  { destruct (decide (event.Token h = "")) as [Ht|Ht].
    - eexists. split; [done|]. by apply (publisherVerification_empty_token D r h).
    - destruct Hbad as [Ht'|[e He]]; [done|].
      exists e. split; [done|].
      by apply (publisherVerification_unparseable D r h). }
  exists e. split; [exact Hcase|].
  pose proof (OnEventReceived_rejected D projectName r h e Hh Hv) as Hr.
  intros o. split.
  - intros Hm. by apply (may_return_no_results D projectName r _ o Hr).
  - intros ->. by apply may_return_refl.
Qed.

(** [bad_token_rejected] for an event with an empty token. *)
Lemma bad_token_rejected_witness :
  ∃ e,
    (if decide (event.Token (header_of "pubA" "") = "")
     then e = errors_New "message token is invalid"
     else event.ParseToken (deps handle_ok) (event.publisherJwt (deps handle_ok))
            (event.Token (header_of "pubA" "")) = Err e) ∧
    ∀ o, event.may_return (deps handle_ok) "p" (event_of "pubA" "") o ↔
         o = {| event.ret :=
                  {| event.ProjectName := "p"; event.PubID := 0;
                     event.PubName := "";
                     event.EventID := event.EventId (header_of "pubA" "");
                     event.ErrMsg := Error (event.statusx (deps handle_ok)) e;
                     event.WasmResults := [] |};
                event.err := Some e;
                event.invoked := [] |}.
Proof.
  apply (bad_token_rejected (deps handle_ok) "p" (event_of "pubA" "")
           (header_of "pubA" "")).
  - reflexivity.
  - left. reflexivity.
Defined.

(** C3, as the specification states it, fails: the error for an empty
    token is not [InvalidAuthValue], and neither is the error for a
    token that does not parse. *)
Lemma empty_token_not_InvalidAuthValue :
  event.OnEventReceived (deps handle_ok) "p" (event_of "pubA" "") =
    Returns {| event.ret :=
                 {| event.ProjectName := "p"; event.PubID := 0;
                    event.PubName := ""; event.EventID := "e1";
                    event.ErrMsg := "message token is invalid";
                    event.WasmResults := [] |};
               event.err := Some (errors_New "message token is invalid");
               event.invoked := [] |} ∧
  errors_New "message token is invalid" ≠ status_Error InvalidAuthValue ∧
  errors_Is (errors_New "message token is invalid")
    (status_Error InvalidAuthValue) = false ∧
  event.OnEventReceived (deps handle_ok) "p" (event_of "pubA" "garbage") =
    Returns {| event.ret :=
                 {| event.ProjectName := "p"; event.PubID := 0;
                    event.PubName := ""; event.EventID := "e1";
                    event.ErrMsg := "token is malformed";
                    event.WasmResults := [] |};
               event.err := Some (errors_New "token is malformed");
               event.invoked := [] |}.
Proof. split_and!; [reflexivity|discriminate|reflexivity|reflexivity]. Qed.


(** ** The asynchronous API-call worker *)

(** A request without a header named [eventType], in whatever case, has
    nothing under the canonical form of the name. *)
Lemma lacks_header_Get (h : gmap string (list string)) :
  lacks_header h "eventType" → Header_Get h "eventType" = "".
Proof.
  intros Hl. unfold Header_Get.
  change (CanonicalMIMEHeaderKey "eventType") with "Eventtype".
  destruct (h !! "Eventtype") as [vs|] eqn:E; [|done].
  exfalso. apply (Hl "Eventtype"); [by eexists|]. reflexivity.
Qed.

Lemma SkipRetry_wrapped (msg : string) :
  errors_Is (fmt_Errorf_w msg async.SkipRetry) async.SkipRetry = true.
Proof. reflexivity. Qed.

(** What the worker does with a task whose request has nothing under
    the canonical form of [eventType]: it panics exactly when the
    payload holds no project (and the request passes [http.NewRequest]);
    when it returns, it returns an error that wraps [asynq.SkipRetry],
    and nothing was handed to [cli.Enqueue]. *)
Lemma no_eventType_outcomes (D : async.Deps) (t : bytes)
    (req : async.HttpRequest) :
  async.original_request D t = Some req →
  Header_Get (async.Header req) "eventType" = "" →
  (async.ProcessTask D t = Panics ↔
   ∃ payload,
     async.Unmarshal_payload D t = Ok payload ∧
     async.Project payload = None ∧
     async.NewRequest D (async.Method req) (async.Url req) (async.Body req)
       = None) ∧
  (∀ o, async.ProcessTask D t = Returns o →
        async.enqueued o = [] ∧
        ∃ e, async.err o = Some e ∧ errors_Is e async.SkipRetry = true).
Proof.
  unfold async.original_request, async.ProcessTask, async.fails.
  intros Hreq Hget.
  destruct (async.Unmarshal_payload D t) as [payload|e0]; [|done].
  destruct (async.Unmarshal_request D (async.Data payload)) as [apiReq|e0];
    [|done].
  injection Hreq as ->.
  destruct (async.NewRequest D _ _ _) as [e0|] eqn:En.
  { split.
    - split; [done|]. by intros (payload' & [= <-] & _ & ?).
    - intros o [= <-]. split; [done|]. eexists. split; [done|].
      apply SkipRetry_wrapped. }
  destruct (async.Project payload) as [projectName|] eqn:Ep.
  - split; [split|].
    + destruct (async.rec_Body _) as [[body|e0]|]; [| |];
        try (destruct (async.Marshal D _)); try done;
        rewrite Hget; done.
    + intros (payload' & [= <-] & Hnil & _). by rewrite Ep in Hnil.
    + intros o.
      destruct (async.rec_Body _) as [[body|e0]|]; [| |];
        try (destruct (async.Marshal D _) as [js|e1]);
        rewrite ?Hget; simpl; intros [= <-];
        (split; [done|]; eexists; split; [done|]; apply SkipRetry_wrapped).
  - split; [split|done]; [|done]. intros _. by exists payload.
Qed.

(** A task that names its project and whose request has no [eventType]
    header is answered with an error that wraps [asynq.SkipRetry], and
    nothing is handed to [cli.Enqueue]. *)
Lemma missing_eventType_SkipRetry (D : async.Deps) (t : bytes)
    (req : async.HttpRequest) :
  async.original_request D t = Some req →
  async.names_project D t →
  lacks_header (async.Header req) "eventType" →
  ∃ e, async.ProcessTask D t =
         Returns {| async.err := Some e; async.enqueued := [] |} ∧
       errors_Is e async.SkipRetry = true.
Proof.
  intros Hreq Hproj Hlacks.
  destruct (no_eventType_outcomes D t req Hreq (lacks_header_Get _ Hlacks))
    as [Hpanics Hreturns].
  destruct (async.ProcessTask D t) as [o|] eqn:Eo.
  - destruct (Hreturns o eq_refl) as (Hnil & e & He & Hskip).
    exists e. split; [|done]. destruct o as [eo qo]. simpl in *. by subst.
  - destruct (proj1 Hpanics eq_refl) as (payload & Hpay & Hnil & _).
    destruct (Hproj payload Hpay) as [projectName Hsome].
    by rewrite Hnil in Hsome.
Qed.

Lemma plain_headers_lack_eventType : lacks_header plain_headers "eventType".
Proof.
  intros k [vs Hk]. unfold plain_headers in Hk.
  apply lookup_singleton_Some in Hk as [<- _]. discriminate.
Qed.

(** C9 fails on the code: the worker reads the name of the project
    through the pointer [payload.Project] before it looks at the
    header.  A task whose payload holds no project and whose request
    has a [Content-Type] header only makes the call panic, where the
    same task with its project is answered with the error that wraps
    [asynq.SkipRetry]. *)
Theorem missing_eventType_nil_project_panics :
  async.original_request (worker_deps_nil_project plain_headers)
    (bytes_of_string "ping")
    = Some {| async.Method := "GET"; async.Url := "/echo";
              async.Header := plain_headers;
              async.Body := bytes_of_string "ping" |} ∧
  lacks_header plain_headers "eventType" ∧
  async.ProcessTask (worker_deps_nil_project plain_headers)
    (bytes_of_string "ping") = Panics ∧
  ∃ e, async.ProcessTask (worker_deps plain_headers) (bytes_of_string "ping") =
         Returns {| async.err := Some e; async.enqueued := [] |} ∧
       errors_Is e async.SkipRetry = true.
Proof.
  split_and!; [reflexivity|exact plain_headers_lack_eventType|reflexivity|].
  apply (missing_eventType_SkipRetry (worker_deps plain_headers)
           (bytes_of_string "ping")
           {| async.Method := "GET"; async.Url := "/echo";
              async.Header := plain_headers;
              async.Body := bytes_of_string "ping" |}).
  - reflexivity.
  - intros payload [= <-]. by eexists.
  - exact plain_headers_lack_eventType.
Qed.

(** With the header, the same task is answered with [nil] and one
    [api_result] task of that event type is handed to [cli.Enqueue]. *)
Example with_eventType_enqueued :
  async.ProcessTask
    (worker_deps {[ "Eventtype" := ["resp.v1"] ]}) (bytes_of_string "ping") =
  Returns {| async.err := None;
             async.enqueued :=
               [ {| async.task_ProjectName := "p";
                    async.task_EventType := "resp.v1";
                    async.task_Data := bytes_of_string "ping" |} ] |}.
Proof. reflexivity. Qed.


(** * Properties of the rest of the code *)

#[local] Set Warnings "-clear-no-such-hyp".

(** ** Strings *)

Lemma append_cons (c : ascii) (s t : string) :
  String c s +:+ t = String c (s +:+ t).
Proof. reflexivity. Qed.

Lemma append_empty_l (t : string) : "" +:+ t = t.
Proof. reflexivity. Qed.

Lemma append_empty_r (s : string) : s +:+ "" = s.
Proof. induction s as [|c s IH]; [done|]. by rewrite append_cons, IH. Qed.

Lemma append_assoc (s t u : string) : (s +:+ t) +:+ u = s +:+ (t +:+ u).
Proof. induction s as [|c s IH]; [done|]. by rewrite !append_cons, IH. Qed.

Lemma length_append (s t : string) :
  String.length (s +:+ t) = (String.length s + String.length t)%nat.
Proof.
  induction s as [|c s IH]; [done|]. rewrite append_cons. simpl. by rewrite IH.
Qed.

(** ** Sets of field errors *)

Section ErrorSets.
Import errors.

(** To add the errors of a list one by one is to append them. *)
Lemma fold_AddErr {A : Type} (g : A → err) (h : A → KeyPath) (l : list A)
    (ret : ErrorSet) :
  fold_left (λ ret x, AddErr ret (Some (g x)) (h x)) l ret =
  {| root := root ret;
     errors := errors ret ++ map (λ x, {| Field := h x; Error := g x |}) l |}.
Proof.
  revert ret. induction l as [|x l IH]; intros ret; simpl.
  - rewrite app_nil_r. by destruct ret.
  - rewrite IH. simpl. by rewrite <- app_assoc.
Qed.

Lemma leaves_Sub (s : ErrorSet) :
  leaves (Sub s) = concat (map flat_entry (errors s)).
Proof. reflexivity. Qed.

(** [Flatten] collects the leaves, under the root of the set. *)
Lemma Flatten_err_leaves (e : err) :
  ∀ s, e = Sub s → Flatten_err e = {| root := root s; errors := leaves e |}.
Proof.
  induction e as [e|s IH] using err_nested_ind; intros s' Heq; [done|].
  injection Heq as <-.
  rewrite leaves_Sub. simpl.
  assert (∀ l ret, Forall (λ f, ∀ s0, Error f = Sub s0 →
                       Flatten_err (Error f)
                         = {| root := root s0; errors := leaves (Error f) |}) l →
    fold_left
      (λ ret f,
         match Error f with
         | Sub _ =>
             fold_left
               (λ ret ff, AddErr ret (Some (Error ff)) (Field f ++ Field ff))
               (errors (Flatten_err (Error f))) ret
         | Leaf _ => AddErr ret (Some (Error f)) (Field f)
         end) l ret
    = {| root := root ret;
         errors := errors ret ++ concat (map flat_entry l) |}) as Hfold.
  { induction l as [|f l IHl]; intros ret Hall; simpl.
    - rewrite app_nil_r. by destruct ret.
    - apply Forall_cons in Hall as [Hf Hl].
      rewrite IHl by exact Hl. unfold flat_entry at 2.
      destruct (Error f) as [e0|s0] eqn:Ef.
      + simpl. rewrite <- app_assoc. simpl. f_equal. f_equal. f_equal.
        destruct f; simpl in *. by subst.
      + rewrite (Hf s0 eq_refl). simpl.
        rewrite (fold_AddErr (λ ff : FieldError, Error ff)
                   (λ ff : FieldError, Field f ++ Field ff)).
        simpl. by rewrite <- app_assoc. }
  rewrite Hfold by exact IH. reflexivity.
Qed.

Lemma Flatten_leaves (set : ErrorSet) :
  Flatten set = {| root := root set; errors := leaves (Sub set) |}.
Proof. unfold Flatten. by apply Flatten_err_leaves. Qed.

(** The leaves are not sets. *)
Lemma leaves_are_leaves (e : err) :
  Forall (λ f, ∃ e0, Error f = Leaf e0) (leaves e).
Proof.
  induction e as [e|s IH] using err_nested_ind; [by constructor|].
  rewrite leaves_Sub. apply Forall_concat, Forall_map.
  eapply Forall_impl; [exact IH|]. intros f Hf. simpl.
  unfold flat_entry. destruct (Error f) as [e0|s0] eqn:Ef.
  - constructor; [|constructor]. by exists e0.
  - cbv beta in Hf. rewrite Ef in Hf.
    apply Forall_map. eapply Forall_impl; [exact Hf|]. by intros ff Hff.
Qed.

(** A set without sets among its errors is its own leaves. *)
Lemma leaves_flat (s : ErrorSet) :
  Forall (λ f, ∃ e0, Error f = Leaf e0) (errors s) →
  leaves (Sub s) = errors s.
Proof.
  rewrite leaves_Sub. induction (errors s) as [|f l IH]; [done|].
  intros Hall. apply Forall_cons in Hall as [[e0 Hf] Hl]. simpl.
  rewrite IH by exact Hl. unfold flat_entry. by rewrite Hf.
Qed.

(** X1: [Flatten] keeps the root and returns a set none of whose errors
    is a set; to flatten once more changes nothing. *)
Theorem Flatten_flat (set : ErrorSet) :
  root (Flatten set) = root set ∧
  Forall (λ f, ∃ e, Error f = Leaf e) (errors (Flatten set)) ∧
  Flatten (Flatten set) = Flatten set.
Proof.
  rewrite Flatten_leaves. split_and!; [done|apply leaves_are_leaves|].
  rewrite Flatten_leaves. cbn [root]. f_equal.
  apply leaves_flat. cbn [errors]. apply leaves_are_leaves.
Qed.

(** [Flatten] after [AddErr], case by case. *)
Lemma Flatten_AddErr_cases (set : ErrorSet) (e : option err) (p : KeyPath) :
  Flatten (AddErr set e p) =
    match e with
    | None => Flatten set
    | Some (Leaf e0) => AddErr (Flatten set) (Some (Leaf e0)) p
    | Some (Sub sub) =>
        {| root := root set;
           errors := errors (Flatten set) ++
                     map (λ ff, {| Field := p ++ Field ff; Error := Error ff |})
                       (errors (Flatten sub)) |}
    end.
Proof.
  destruct e as [[e0|sub]|]; [| |done].
  - rewrite !Flatten_leaves, !leaves_Sub. simpl.
    rewrite map_app, concat_app. simpl. by rewrite ?app_nil_r.
  - rewrite !Flatten_leaves, !leaves_Sub. simpl.
    rewrite map_app, concat_app. simpl. rewrite ?app_nil_r.
    unfold flat_entry at 2. simpl. by rewrite ?leaves_Sub.
Qed.

Lemma Len_AddErr (set : ErrorSet) (e : option err) (p : KeyPath) :
  Len (AddErr set e p) =
    (Len set + match e with
               | None => 0
               | Some (Leaf _) => 1
               | Some (Sub sub) => Len sub
               end)%nat.
Proof.
  unfold Len. rewrite Flatten_AddErr_cases.
  destruct e as [[e0|sub]|]; simpl.
  - rewrite length_app. simpl. lia.
  - by rewrite length_app, length_map.
  - lia.
Qed.

(** X2: [Flatten] after [AddErr]: an error that is not a set is added to
    the flattened set as it is; of an error that is a set, the flattened
    errors are added, each with the path of the set before its own; a
    nil error adds nothing.  [Len] grows by one, by the [Len] of the
    added set, or not at all. *)
Theorem Flatten_AddErr (set : ErrorSet) (e : option err) (p : KeyPath) :
  Flatten (AddErr set e p) =
    match e with
    | None => Flatten set
    | Some (Leaf e0) => AddErr (Flatten set) (Some (Leaf e0)) p
    | Some (Sub sub) =>
        {| root := root set;
           errors := errors (Flatten set) ++
                     map (λ ff, {| Field := p ++ Field ff; Error := Error ff |})
                       (errors (Flatten sub)) |}
    end ∧
  Len (AddErr set e p) =
    (Len set + match e with
               | None => 0
               | Some (Leaf _) => 1
               | Some (Sub sub) => Len sub
               end)%nat.
Proof. split; [apply Flatten_AddErr_cases|apply Len_AddErr]. Qed.

(** X3: a set with no errors has [Err] nil and [Len] zero, but the two
    do not agree in general: to add an empty set makes [Err] not nil
    and leaves [Len] as it was. *)
Theorem Err_Len (set : ErrorSet) (r : string) (p : KeyPath) :
  (Err set = None ↔ errors set = []) ∧
  (Err set = None → Len set = 0%nat) ∧
  Err (AddErr set (Some (Sub (NewErrorSetWithRoot r))) p) ≠ None ∧
  Len (AddErr set (Some (Sub (NewErrorSetWithRoot r))) p) = Len set.
Proof.
  assert (Err set = None ↔ errors set = []) as Hiff.
  { unfold Err. destruct (errors set); simpl; split; done. }
  split_and!; [exact Hiff| | |].
  - intros Hn. apply Hiff in Hn. unfold Len. rewrite Flatten_leaves, leaves_Sub.
    by rewrite Hn.
  - unfold Err. simpl. rewrite length_app. simpl.
    rewrite Nat.add_1_r. done.
  - rewrite Len_AddErr. unfold Len at 2.
    rewrite Flatten_leaves. simpl. lia.
Qed.

Lemma write_unwritten (buf : string) (kp : KeyPath) :
  fold_left write_node kp buf =
  fold_left write_node (filter (λ n, written n = true) kp) buf.
Proof.
  revert buf. induction kp as [|n kp IH]; intros buf; [done|].
  destruct n as [s|i|l|].
  - rewrite filter_cons_True by done. simpl. apply IH.
  - rewrite filter_cons_True by done. simpl. apply IH.
  - rewrite filter_cons_False by done. simpl. apply IH.
  - rewrite filter_cons_False by done. simpl. apply IH.
Qed.

Lemma write_strings (buf : string) (ks : list string) :
  (0 < String.length buf)%nat →
  fold_left write_node (map KString ks) buf = buf +:+ dotted ks.
Proof.
  revert buf. induction ks as [|k ks IH]; intros buf Hlen; simpl.
  - by rewrite append_empty_r.
  - replace (0 <? String.length buf)%nat with true
      by (symmetry; by apply Nat.ltb_lt).
    rewrite IH by (rewrite !length_append; simpl; lia).
    by rewrite !append_assoc.
Qed.

Lemma concat_dotted (k : string) (ks : list string) :
  String.concat "." (k :: ks) = k +:+ dotted ks.
Proof.
  revert k. induction ks as [|k' ks IH]; intros k.
  - simpl. by rewrite append_empty_r.
  - change (String.concat "." (k :: k' :: ks))
      with (k +:+ "." +:+ String.concat "." (k' :: ks)).
    rewrite IH. reflexivity.
Qed.

(** X4: [KeyPath.String] writes the nodes that are strings or ints and
    no others (a [Location] is left out); a path of string keys whose
    first key is not empty is written as the keys joined by dots; an
    empty first key is left out together with its dot. *)
Theorem KeyPath_String_keys (kp : KeyPath) (c : ascii) (k : string)
    (ks : list string) :
  KeyPath_String kp = KeyPath_String (filter (λ n, written n = true) kp) ∧
  KeyPath_String (map KString (String c k :: ks))
    = String.concat "." (String c k :: ks) ∧
  KeyPath_String (map KString ("" :: String c k :: ks))
    = String.concat "." (String c k :: ks).
Proof.
  split_and!.
  - apply write_unwritten.
  - rewrite concat_dotted. unfold KeyPath_String. simpl.
    apply (write_strings (String c k) ks). simpl. lia.
  - rewrite concat_dotted. unfold KeyPath_String. simpl.
    apply (write_strings (String c k) ks). simpl. lia.
Qed.

Lemma length_report (l : list FieldError) (acc : list ErrorField) :
  (length (fold_left report l acc) ≤ length acc + length l)%nat.
Proof.
  revert acc. induction l as [|f l IH]; intros acc; simpl; [lia|].
  etrans; [apply IH|]. unfold report.
  destruct (1 <? length (Field f))%nat; [|lia].
  destruct (Field f) as [|[s|i|loc|] rest]; rewrite ?length_app; simpl; lia.
Qed.

(** X5: [ToErrorFields] reports an error only when its path begins with
    a [Location] and goes on: for an error added under such a path one
    field is added, with the location and the rest of the path; an
    error added under any other path (empty, a location alone, or one
    that begins with a key) is not reported.  There are never more
    fields than [Len] counts. *)
Theorem ToErrorFields_AddErr (set : ErrorSet) (e : error) (p : KeyPath) :
  ToErrorFields (AddErr set (Some (Leaf e)) p) =
    ToErrorFields set ++
      match p with
      | KLocation l :: n :: rest =>
          [ {| In := l; EField := KeyPath_String (n :: rest); Msg := Leaf e |} ]
      | _ => []
      end ∧
  (length (ToErrorFields set) ≤ Len set)%nat.
Proof.
  split.
  - unfold ToErrorFields, Each. rewrite Flatten_AddErr_cases. simpl.
    rewrite fold_left_app. simpl.
    change (λ errorFields fieldErr,
              if (1 <? length (Field fieldErr))%nat
              then match Field fieldErr with
                   | KLocation l :: rest =>
                       errorFields ++
                         [ {| In := l; EField := KeyPath_String rest;
                              Msg := Error fieldErr |} ]
                   | _ => errorFields
                   end
              else errorFields) with report.
    unfold report at 1. simpl.
    destruct p as [|[s|i|l|] [|n rest]]; simpl; by rewrite ?app_nil_r.
  - unfold ToErrorFields, Each, Len.
    apply (length_report (errors (Flatten set)) []).
Qed.

End ErrorSets.

(** ** Status errors *)

(** [Key] tells the codes apart: a key other than [UNKNOWN] is the
    key of one code only; and only the code with the key
    [Unauthorized] can be talked. *)
Theorem Key_identifies (c : status.Codes) (v : Z) :
  (status.Key c v = "UNKNOWN" ∨ ∀ v', status.Key c v' = status.Key c v → v' = v) ∧
  (status.CanBeTalk c v = false ∨
   (v = status.Unauthorized c ∧ status.Key c v = "Unauthorized")).
Proof.
  split.
  - unfold status.Key at 1 3.
    repeat case_decide; try (by left); right; intros v'; unfold status.Key;
      repeat case_decide; try discriminate; congruence.
  - unfold status.CanBeTalk, status.Key.
    repeat case_decide; try (by left); right; done.
Qed.

(** ** Configuration types *)

Section Types.
Import types.

(** [FileSystem.SetDefault], when [LOCAL] is a mode between 1 and
    [S3]: the mode it leaves is between 1 and [S3]; a mode in that range
    is kept, any other becomes [LOCAL]; a second call changes nothing. *)
Theorem FileSystem_SetDefault_range (LOCAL S3 type : Z) :
  0 < LOCAL ≤ S3 →
  0 < FileSystem_SetDefault LOCAL S3 type ≤ S3 ∧
  (0 < type ≤ S3 → FileSystem_SetDefault LOCAL S3 type = type) ∧
  (¬ 0 < type ≤ S3 → FileSystem_SetDefault LOCAL S3 type = LOCAL) ∧
  FileSystem_SetDefault LOCAL S3 (FileSystem_SetDefault LOCAL S3 type)
    = FileSystem_SetDefault LOCAL S3 type.
Proof.
  intros HL. unfold FileSystem_SetDefault.
  destruct (S3 <? type) eqn:E1; destruct (type <=? 0) eqn:E2; simpl;
    destruct (S3 <? LOCAL) eqn:E3; destruct (LOCAL <=? 0) eqn:E4; simpl;
    rewrite ?E1, ?E2; simpl; lia.
Qed.

(** [FileSystem_SetDefault_range] for the modes 1 (local) and 2 (S3)
    and the unset mode 0. *)
Lemma FileSystem_SetDefault_range_witness :
  0 < FileSystem_SetDefault 1 2 0 ≤ 2 ∧
  (0 < 0 ≤ 2 → FileSystem_SetDefault 1 2 0 = 0) ∧
  (¬ 0 < 0 ≤ 2 → FileSystem_SetDefault 1 2 0 = 1) ∧
  FileSystem_SetDefault 1 2 (FileSystem_SetDefault 1 2 0)
    = FileSystem_SetDefault 1 2 0.
Proof. apply (FileSystem_SetDefault_range 1 2 0). lia. Defined.

Lemma add_clients_sound (G : Gjson) (l : list (string * string))
    (m : gmap Z string) (n : Z) (url : string) :
  fold_left (add_client G) l m !! n = Some url →
  m !! n = Some url ∨
  ∃ k id, (k, url) ∈ l ∧ Atoi G k = Some id ∧ n = uint32 id.
Proof.
  revert m. induction l as [|[k u] l IH]; intros m; simpl; [by left|].
  intros Hl. destruct (IH _ Hl) as [Hm|(k' & id & Hin & Ha & Hn)].
  - unfold add_client in Hm. simpl in Hm.
    destruct (Atoi G k) as [id|] eqn:Ea; [|by left].
    destruct (decide (uint32 id = n)) as [<-|Hne].
    + rewrite lookup_insert_eq in Hm. injection Hm as ->.
      right. exists k, id. split_and!; [left|done|done].
    + rewrite lookup_insert_ne in Hm by done. by left.
  - right. exists k', id. split_and!; [by right|done|done].
Qed.

Lemma add_clients_keep (G : Gjson) (l : list (string * string))
    (m : gmap Z string) (n : Z) :
  is_Some (m !! n) → is_Some (fold_left (add_client G) l m !! n).
Proof.
  revert m. induction l as [|[k u] l IH]; intros m Hm; simpl; [done|].
  apply IH. unfold add_client. simpl.
  destruct (Atoi G k) as [id|]; [|done].
  destruct (decide (uint32 id = n)) as [<-|Hne].
  - rewrite lookup_insert_eq. by eexists.
  - by rewrite lookup_insert_ne.
Qed.

Lemma add_clients_complete (G : Gjson) (l : list (string * string))
    (m : gmap Z string) (k url : string) (id : Z) :
  (k, url) ∈ l → Atoi G k = Some id →
  is_Some (fold_left (add_client G) l m !! uint32 id).
Proof.
  revert m. induction l as [|[k' u] l IH]; intros m Hin Ha.
  - by apply elem_of_nil in Hin.
  - apply elem_of_cons in Hin as [[= <- <-]|Hin]; simpl.
    + apply add_clients_keep. unfold add_client. simpl. rewrite Ha.
      rewrite lookup_insert_eq. by eexists.
    + by apply IH.
Qed.

(** X6: [ETHClientConfig.Init]: on invalid JSON there is no client;
    every client is the value of a member whose key [Atoi] reads as a
    number, under that number taken as a [uint32] (so every key of
    [Clients] is below 2^32); and every such member has a client under
    its number. *)
Theorem ETHClientConfig_Init_clients (G : Gjson) (Endpoints : string) :
  (gjson_Valid G Endpoints = false → ETHClientConfig_Init G Endpoints = ∅) ∧
  (∀ n url,
     ETHClientConfig_Init G Endpoints !! n = Some url →
     0 ≤ n < 2 ^ 32 ∧
     ∃ k id, (k, url) ∈ gjson_Map G Endpoints ∧ Atoi G k = Some id ∧
             n = uint32 id) ∧
  (gjson_Valid G Endpoints = true →
   ∀ k url id,
     (k, url) ∈ gjson_Map G Endpoints → Atoi G k = Some id →
     is_Some (ETHClientConfig_Init G Endpoints !! uint32 id)).
Proof.
  unfold ETHClientConfig_Init. split_and!.
  - by intros ->.
  - intros n url. destruct (gjson_Valid G Endpoints); [|done].
    intros Hl. apply (add_clients_sound G) in Hl as [Hl|(k & id & Hin & Ha & ->)];
      [done|].
    split; [|by exists k, id].
    unfold uint32. apply Z.mod_pos_bound. lia.
  - intros -> k url id Hin Ha. by apply (add_clients_complete G _ _ k url id).
Qed.

Lemma index_chains_indexed (cs : list (option Chain))
    (cm cm' : gmap string Chain) (cidm cidm' : gmap Z Chain) :
  chains_indexed cm cidm →
  index_chains cs cm cidm = Returns (cm', cidm') →
  chains_indexed cm' cidm'.
Proof.
  revert cm cidm. induction cs as [|[c|] cs IH]; intros cm cidm Hinv; simpl.
  - by intros [= <- <-].
  - apply IH. destruct Hinv as [Hn Hid]. split.
    + intros n ch. destruct (decide (Name c = n)) as [<-|Hne].
      * rewrite lookup_insert_eq. by intros [= <-].
      * rewrite lookup_insert_ne by done. apply Hn.
    + intros id ch. destruct (ChainID c =? 0) eqn:E0.
      * intros Hl. destruct (Hid id ch Hl) as (H0 & Hc & Hm).
        split_and!; [done|done|].
        destruct (decide (Name c = Name ch)) as [->|Hne].
        -- by rewrite lookup_insert_eq.
        -- by rewrite lookup_insert_ne.
      * destruct (decide (ChainID c = id)) as [<-|Hne].
        -- rewrite lookup_insert_eq. intros [= <-].
           split_and!; [lia|done|]. by rewrite lookup_insert_eq.
        -- rewrite lookup_insert_ne by done. intros Hl.
           destruct (Hid id ch Hl) as (H0 & Hc & Hm).
           split_and!; [done|done|].
           destruct (decide (Name c = Name ch)) as [->|Hne'].
           ++ by rewrite lookup_insert_eq.
           ++ by rewrite lookup_insert_ne.
  - discriminate.
Qed.

Lemma index_chains_names (cs : list (option Chain))
    (cm cm' : gmap string Chain) (cidm cidm' : gmap Z Chain) :
  index_chains cs cm cidm = Returns (cm', cidm') →
  (∀ n, is_Some (cm !! n) → is_Some (cm' !! n)) ∧
  (∀ id, is_Some (cidm !! id) → is_Some (cidm' !! id)) ∧
  ∀ c, Some c ∈ cs →
       is_Some (cm' !! Name c) ∧
       (ChainID c ≠ 0 → is_Some (cidm' !! ChainID c)).
Proof.
  revert cm cidm. induction cs as [|[c|] cs IH]; intros cm cidm; simpl.
  - intros [= <- <-]. split_and!; [done|done|].
    intros c Hin. by apply elem_of_nil in Hin.
  - intros Hr. destruct (IH _ _ Hr) as (Hk1 & Hk2 & Hall).
    split_and!.
    + intros n Hn. apply Hk1.
      destruct (decide (Name c = n)) as [<-|Hne].
      * rewrite lookup_insert_eq. by eexists.
      * by rewrite lookup_insert_ne.
    + intros id Hid. apply Hk2. destruct (ChainID c =? 0); [done|].
      destruct (decide (ChainID c = id)) as [<-|Hne].
      * rewrite lookup_insert_eq. by eexists.
      * by rewrite lookup_insert_ne.
    + intros c' Hin. apply elem_of_cons in Hin as [[= ->]|Hin]; [|by apply Hall].
      split.
      * apply Hk1. rewrite lookup_insert_eq. by eexists.
      * intros Hne. apply Hk2. destruct (ChainID c =? 0) eqn:E0; [lia|].
        rewrite lookup_insert_eq. by eexists.
  - discriminate.
Qed.

(** X7: when [ChainConfig.Init] returns, [Chains] holds every chain
    under its own name and [ChainIDs] under its own id; the id 0 is
    never a key of [ChainIDs]; every chain listed in [ChainIDs] has its
    name in [Chains]; and an empty [Configs] leaves both maps empty. *)
Theorem ChainConfig_Init_indexed
    (Unmarshal : bytes → result (list (option Chain))) (c c' : ChainConfig) :
  ChainConfig_Init Unmarshal c = Returns c' →
  Configs c' = Configs c ∧
  (∀ n ch, Chains c' !! n = Some ch → Name ch = n) ∧
  (∀ id ch, ChainIDs c' !! id = Some ch →
            id ≠ 0 ∧ ChainID ch = id ∧ Chains c' !! Name ch ≠ None) ∧
  (Configs c = "" → Chains c' = ∅ ∧ ChainIDs c' = ∅) ∧
  (∀ cs ch, Configs c ≠ "" →
            Unmarshal (bytes_of_string (Configs c)) = Ok cs → Some ch ∈ cs →
            is_Some (Chains c' !! Name ch) ∧
            (ChainID ch ≠ 0 → is_Some (ChainIDs c' !! ChainID ch))).
Proof.
  unfold ChainConfig_Init. intros Hr.
  destruct (decide (Configs c = "")) as [He|Hne].
  - simpl in Hr. injection Hr as <-. simpl.
    split_and!; try done.
  - destruct (Unmarshal (bytes_of_string (Configs c))) as [cs|e]; [|done].
    destruct (index_chains cs ∅ ∅) as [[cm cidm]|] eqn:Ei; [|done].
    injection Hr as <-. simpl.
    assert (chains_indexed cm cidm) as [Hn Hid].
    { eapply index_chains_indexed; [|exact Ei]. split; by intros ? ? ?. }
    split_and!; [done|exact Hn|exact Hid|done|].
    intros cs' ch _ [= <-] Hin.
    by apply (index_chains_names cs ∅ cm ∅ cidm Ei).
Qed.

(** [ChainConfig_Init_indexed] for a configuration of two chains, of
    which the second has no chain id. *)
Lemma ChainConfig_Init_indexed_witness :
  let iotex := {| ChainID := 4689; Name := "iotex-mainnet";
                  Endpoint := "https://babel-api.mainnet.iotex.io" |} in
  let solana := {| ChainID := 0; Name := "solana-devnet";
                   Endpoint := "https://api.devnet.solana.com" |} in
  let Unmarshal := λ _ : bytes, Ok [Some iotex; Some solana] in
  let c := {| Configs := "[...]"; Chains := ∅; ChainIDs := ∅ |} in
  let c' := {| Configs := "[...]";
               Chains := {[ "iotex-mainnet" := iotex; "solana-devnet" := solana ]};
               ChainIDs := {[ 4689 := iotex ]} |} in
  Configs c' = Configs c ∧
  (∀ n ch, Chains c' !! n = Some ch → Name ch = n) ∧
  (∀ id ch, ChainIDs c' !! id = Some ch →
            id ≠ 0 ∧ ChainID ch = id ∧ Chains c' !! Name ch ≠ None) ∧
  (Configs c = "" → Chains c' = ∅ ∧ ChainIDs c' = ∅) ∧
  (∀ cs ch, Configs c ≠ "" →
            Unmarshal (bytes_of_string (Configs c)) = Ok cs → Some ch ∈ cs →
            is_Some (Chains c' !! Name ch) ∧
            (ChainID ch ≠ 0 → is_Some (ChainIDs c' !! ChainID ch))).
Proof.
  intros iotex solana Unmarshal c c'.
  apply (ChainConfig_Init_indexed Unmarshal c c'). reflexivity.
Defined.

(** [Init] keeps the valid addresses, in lower case. *)
Lemma EthAddressWhiteList_Init_filter (valid : string → bool)
    (ToLower : string → string) (v : list string) :
  EthAddressWhiteList_Init valid ToLower v =
  map ToLower (filter (λ addr, valid addr = true) v).
Proof.
  unfold EthAddressWhiteList_Init.
  assert (∀ acc, fold_left
            (λ lst addr, if valid addr then lst ++ [ToLower addr] else lst) v acc
          = acc ++ map ToLower (filter (λ addr, valid addr = true) v)) as Hacc.
  { induction v as [|a v IH]; intros acc; simpl; [by rewrite app_nil_r|].
    rewrite IH. destruct (valid a) eqn:Ea.
    - rewrite filter_cons_True by done. simpl. by rewrite <- app_assoc.
    - rewrite filter_cons_False by (by rewrite Ea). done. }
  apply (Hacc []).
Qed.

Lemma whitelisted_elem_of (ToLower : string → string) (l : list string)
    (address : string) :
  whitelisted ToLower l address = true ↔ ToLower address ∈ l.
Proof.
  induction l as [|a l IH]; simpl.
  - split; [done|]. intros H. by apply elem_of_nil in H.
  - case_decide as Ha.
    + split; [|done]. intros _. rewrite Ha. left.
    + rewrite IH. split.
      * by right.
      * intros Hin. apply elem_of_cons in Hin as [Heq|Hin]; [|done].
        by symmetry in Heq.
Qed.

(** X8: a white list that is nil or empty admits every address.  After
    [Init], the list admits an address exactly when none of its entries
    was valid (the list is then empty) or one of the valid entries is
    the address up to the case of the letters. *)
Theorem EthAddressWhiteList_admits (valid : string → bool)
    (ToLower : string → string) (v : list string) (address : string) :
  EthAddressWhiteList_Validate ToLower None address = true ∧
  EthAddressWhiteList_Validate ToLower (Some []) address = true ∧
  (EthAddressWhiteList_Validate ToLower
     (Some (EthAddressWhiteList_Init valid ToLower v)) address = true ↔
   (∀ addr, addr ∈ v → valid addr = false) ∨
   ∃ addr, addr ∈ v ∧ valid addr = true ∧ ToLower addr = ToLower address).
Proof.
  split_and!; [done|done|].
  rewrite EthAddressWhiteList_Init_filter.
  unfold EthAddressWhiteList_Validate. rewrite length_map.
  destruct (filter (λ addr, valid addr = true) v) as [|a l] eqn:Ef.
  - simpl. split; [|done]. intros _. left. intros addr Hin.
    destruct (valid addr) eqn:Ea; [|done].
    assert (addr ∈ filter (λ addr, valid addr = true) v) as Hf
      by (apply list_elem_of_filter; done).
    rewrite Ef in Hf. by apply elem_of_nil in Hf.
  - change (length (a :: l) =? 0)%nat with false. cbv iota.
    rewrite whitelisted_elem_of, list_elem_of_fmap. split.
    + intros (addr & Heq & Hin). right. rewrite <- Ef in Hin.
      apply list_elem_of_filter in Hin as [Hv Hin]. by exists addr.
    + intros [Hnone|(addr & Hin & Hv & Heq)].
      * assert (a ∈ filter (λ addr, valid addr = true) v) as Ha
          by (rewrite Ef; left).
        apply list_elem_of_filter in Ha as [Hv Hin].
        rewrite (Hnone a Hin) in Hv. done.
      * exists addr. split; [done|]. rewrite <- Ef.
        apply list_elem_of_filter. done.
Qed.

End Types.

(** ** Uploaded resources *)

Section Resource.
Import resource.

(** Membership in a list of operations that is written out. *)
Ltac in_ops := set_solver.

(** X9: [Upload] copies to no file but the one it names, and only a
    file that is within the upload limit and leaves the reserve (100
    MiB) free on the disk; its error is then the error of the copy. *)
Theorem Upload_copies_within_limits (E : Env) (id p : string) :
  OpCopy p ∈ ops (Upload E id) →
  p = filename (Upload E id) ∧
  err (Upload E id) = Copy E ∧
  ∃ size free,
    SeekEnd E = Ok size ∧ size ≤ UploadLimit E ∧
    (Usage E (root (Upload E id))).1 = Some free ∧
    uint64 (int64 (size + reserve)) ≤ free.
Proof.
  unfold Upload.
  destruct (negb (IsDirExists (Stat E (Join E [ResourceRoot E; id]))));
    destruct (MkdirAll E (Join E [ResourceRoot E; id])) as [e0|];
    cbn [root filename err ops]; try (intros Hin; exfalso; in_ops);
    (destruct (Open E) as [e1|];
       [cbn [ops]; intros Hin; exfalso; in_ops|];
     destruct (SeekEnd E) as [size|e2];
       [|cbn [ops]; intros Hin; exfalso; in_ops];
     destruct (UploadLimit E <? size) eqn:Elim;
       [cbn [ops]; intros Hin; exfalso; in_ops|];
     destruct (Usage E (Join E [ResourceRoot E; id])) as [[free|] ue] eqn:Eu;
       [|cbn [ops]; intros Hin; exfalso; in_ops];
     destruct (free <? uint64 (int64 (size + reserve))) eqn:Efree;
       [cbn [ops]; intros Hin; exfalso; in_ops|];
     destruct (SeekStart E) as [e3|];
       [cbn [ops]; intros Hin; exfalso; in_ops|];
     destruct (OpenFile E _) as [e4|];
       [cbn [ops]; intros Hin; exfalso; in_ops|];
     cbn [root filename err ops]; intros Hin;
     split; [in_ops|]; split; [done|];
     exists size, free; rewrite Eu; split_and!; [done|lia|done|lia]).
Qed.

(** X10: [Upload] refuses silently: for a file over the upload limit,
    and for a disk (whose usage is read without error) that would be
    left with less than the reserve, it returns a nil error, and it has
    neither opened nor written the file it names. *)
Theorem Upload_refuses_silently (E : Env) (id : string) (size : Z) :
  root_ready E id →
  Open E = None →
  SeekEnd E = Ok size →
  (UploadLimit E < size ∨
   ∃ free, Usage E (Join E [ResourceRoot E; id]) = (Some free, None) ∧
           free < uint64 (int64 (size + reserve))) →
  err (Upload E id) = None ∧
  ∀ p, (OpOpenFile p ∉ ops (Upload E id)) ∧ (OpCopy p ∉ ops (Upload E id)).
Proof.
  intros Hready Hopen Hseek Hover. unfold Upload. rewrite Hopen, Hseek.
  assert (∃ ops0,
    ((if negb (IsDirExists (Stat E (Join E [ResourceRoot E; id])))
      then (MkdirAll E (Join E [ResourceRoot E; id]),
            [OpMkdirAll (Join E [ResourceRoot E; id])])
      else (None, [])) = (None, ops0)) ∧
    ∀ p, (OpOpenFile p ∉ ops0) ∧ (OpCopy p ∉ ops0)) as (ops0 & -> & Hops0).
  { destruct Hready as [-> | ->].
    - simpl. exists []. split; [done|]. intros p. split; in_ops.
    - destruct (negb _); eexists; (split; [done|]); intros p; split; in_ops. }
  destruct (UploadLimit E <? size) eqn:Elim.
  - cbn [err ops]. split; [done|]. intros p.
    destruct (Hops0 p) as [Hp1 Hp2]. split; in_ops.
  - destruct Hover as [Hlim|(free & -> & Hfree)]; [lia|].
    replace (free <? uint64 (int64 (size + reserve))) with true
      by (symmetry; by apply Z.ltb_lt).
    cbn [err ops]. split; [done|]. intros p.
    destruct (Hops0 p) as [Hp1 Hp2]. split; in_ops.
Qed.

Lemma Upload_refuses_silently_witness :
  err (Upload oversize_upload "42") = None ∧
  ∀ p, (OpOpenFile p ∉ ops (Upload oversize_upload "42")) ∧
       (OpCopy p ∉ ops (Upload oversize_upload "42")).
Proof.
  apply (Upload_refuses_silently oversize_upload "42" 2000).
  - left. reflexivity.
  - reflexivity.
  - reflexivity.
  - left. reflexivity.
Defined.

Lemma Upload_copies_within_limits_witness :
  "/resources/42/applet.wasm" = filename (Upload small_upload "42") ∧
  err (Upload small_upload "42") = Copy small_upload ∧
  ∃ size free,
    SeekEnd small_upload = Ok size ∧ size ≤ UploadLimit small_upload ∧
    (Usage small_upload (root (Upload small_upload "42"))).1 = Some free ∧
    uint64 (int64 (size + reserve)) ≤ free.
Proof.
  apply (Upload_copies_within_limits small_upload "42"
           "/resources/42/applet.wasm").
  vm_compute. in_ops.
Defined.

Lemma hex_digit_lower (n : N) : (n < 16)%N → is_lower_hex (hex_digit n) = true.
Proof.
  intros Hn. unfold hex_digit.
  assert (N.to_nat n < 16)%nat as Hlt by lia.
  destruct (N.to_nat n) as [|[|[|[|[|[|[|[|[|[|[|[|[|[|[|[|m]]]]]]]]]]]]]]]];
    try reflexivity. lia.
Qed.

Lemma hex_lower (b : bytes) :
  Forall (λ c, is_lower_hex c = true) (list_ascii_of_string (hex b)) ∧
  String.length (hex b) = (2 * length b)%nat.
Proof.
  induction b as [|x b [IH1 IH2]]; [by split|]. simpl. split.
  - pose proof (Byte.to_N_bounded x) as Hx.
    constructor; [|constructor; [|exact IH1]]; apply hex_digit_lower.
    + apply N.Div0.div_lt_upper_bound. lia.
    + apply N.mod_lt. lia.
  - rewrite IH2. lia.
Qed.

(** X11: [CheckMD5] accepts a checksum only when the file was read, and
    only the checksum written as [%x] prints it: two digits for every
    byte of the digest, the letters in lower case.  A checksum with an
    upper-case letter is never accepted. *)
Theorem CheckMD5_lower_hex (content : string → result bytes)
    (md5 : bytes → bytes) (filename sum : string) :
  CheckMD5 content md5 filename sum = None →
  ∃ data, content filename = Ok data ∧
          sum = hex (md5 data) ∧
          String.length sum = (2 * length (md5 data))%nat ∧
          Forall (λ c, is_lower_hex c = true ∧ is_upper c = false)
            (list_ascii_of_string sum).
Proof.
  unfold CheckMD5. destruct (content filename) as [data|e]; [|done].
  case_decide as Hsum; [|done]. intros _. subst sum.
  exists data. destruct (hex_lower (md5 data)) as [Hl Hlen].
  split_and!; [done|done|exact Hlen|].
  eapply Forall_impl; [exact Hl|]. intros c Hc. split; [done|].
  unfold is_lower_hex, is_digit in Hc. unfold is_upper.
  destruct (nat_of_ascii c <=? 90)%nat eqn:E1;
    destruct (65 <=? nat_of_ascii c)%nat eqn:E2; try done.
  apply Nat.leb_le in E1, E2.
  apply orb_prop in Hc as [Hc|Hc]; apply andb_prop in Hc as [H1 H2];
    apply Nat.leb_le in H1, H2; lia.
Qed.

(** [CheckMD5_lower_hex] for a file of three bytes and a digest that is
    the bytes themselves. *)
Lemma CheckMD5_lower_hex_witness :
  ∃ data, (λ _ : string, Ok (bytes_of_string "abc")) "f" = Ok data ∧
          "616263" = hex ((λ b : bytes, b) data) ∧
          String.length "616263" = (2 * length ((λ b : bytes, b) data))%nat ∧
          Forall (λ c, is_lower_hex c = true ∧ is_upper c = false)
            (list_ascii_of_string "616263").
Proof.
  apply (CheckMD5_lower_hex (λ _, Ok (bytes_of_string "abc")) (λ b, b) "f"
           "616263").
  reflexivity.
Defined.

End Resource.

(** ** The SQL store of a project *)

Section Database.
Import wasmdb.

(** [Column.Datatype] panics on a datatype it does not name, and
    on no other.  The type it returns is [serial] or [bigserial] exactly
    for an integer column with [AutoIncrement] (which is ignored for
    every other column, a timestamp included); a text column is
    [character varying] below the length 21845, the length 0 of an
    unset field included, and [text] from there on. *)
Theorem Column_Datatype_cases (c : Column) (t : WasmDBDatatype) :
  match Column_Datatype c t with
  | Panics => ∃ v, t = WASM_DB_DATATYPE_other v
  | Returns s =>
      (∀ v, t ≠ WASM_DB_DATATYPE_other v) ∧
      ((s = "serial" ∨ s = "bigserial") ↔
       (is_integer_type t = true ∧ AutoIncrement (col_Constrains c) = true)) ∧
      (t = WASM_DB_DATATYPE__TEXT →
       s = if Length (col_Constrains c) <? 21845
           then "character varying" else "text")
  end.
Proof.
  unfold Column_Datatype. change (65536 / 3) with 21845.
  destruct t; try (by eexists);
    try destruct (AutoIncrement (col_Constrains c));
    try destruct (Length (col_Constrains c) <? 21845);
    (split_and!;
     [ by intros ?
     | split;
       [ intros [?|?]; first [discriminate | by split]
       | intros [? ?]; first [discriminate | by left | by right] ]
     | first [ by intros ? | done ] ]).
Qed.

(** X12: when [Column.Build] returns, the default of the built column
    is never the empty string: an empty default has become the SQL
    literal of the empty string, two quotes, and any other default is
    kept; the column itself is left with the same default, and to build
    it again gives the same. *)
Theorem Column_Build_default (c c' : Column) (col : BuilderColumn) :
  Column_Build c = Returns (col, c') →
  ct_Default (bc_ColumnType col) ≠ Some "" ∧
  ct_Default (bc_ColumnType col) =
    match Default (col_Constrains c) with
    | Some "" => Some "''"
    | d => d
    end ∧
  Default (col_Constrains c') = ct_Default (bc_ColumnType col) ∧
  Column_Build c' = Returns (col, c').
Proof.
  unfold Column_Build.
  destruct (Column_Datatype c (Datatype (col_Constrains c))) as [ty|] eqn:Et;
    [|done].
  intros [= <- <-]. cbn.
  assert (Column_Datatype
            {| col_Name := col_Name c;
               col_Constrains :=
                 {| Datatype := Datatype (col_Constrains c);
                    Length := Length (col_Constrains c);
                    Decimal := Decimal (col_Constrains c);
                    Default :=
                      match Default (col_Constrains c) with
                      | Some s =>
                          if (String.length s =? 0)%nat then Some "''" else Some s
                      | None => None
                      end;
                    Null := Null (col_Constrains c);
                    AutoIncrement := AutoIncrement (col_Constrains c);
                    Desc := Desc (col_Constrains c) |} |}
            (Datatype (col_Constrains c)) = Returns ty) as ->.
  { rewrite <- Et. by destruct (Datatype (col_Constrains c)). }
  destruct (Default (col_Constrains c)) as [[|a s]|]; cbn; done.
Qed.

(** [Column_Build_default] for a text column with an empty default. *)
Lemma Column_Build_default_witness :
  let c := {| col_Name := "note";
              col_Constrains :=
                {| Datatype := WASM_DB_DATATYPE__TEXT; Length := 0;
                   Decimal := 0; Default := Some ""; Null := false;
                   AutoIncrement := false; Desc := "" |} |} in
  let c' := {| col_Name := "note";
               col_Constrains :=
                 {| Datatype := WASM_DB_DATATYPE__TEXT; Length := 0;
                    Decimal := 0; Default := Some "''"; Null := false;
                    AutoIncrement := false; Desc := "" |} |} in
  let col := {| bc_Name := "note";
                bc_ColumnType :=
                  {| ct_DataType := "character varying"; ct_Length := 0;
                     ct_Decimal := 0; ct_Default := Some "''";
                     ct_Null := false; ct_AutoIncrement := false;
                     ct_Comment := ""; ct_Desc := [""] |} |} in
  ct_Default (bc_ColumnType col) ≠ Some "" ∧
  ct_Default (bc_ColumnType col) =
    match Default (col_Constrains c) with
    | Some "" => Some "''"
    | d => d
    end ∧
  Default (col_Constrains c') = ct_Default (bc_ColumnType col) ∧
  Column_Build c' = Returns (col, c').
Proof.
  intros c c' col. apply (Column_Build_default c c' col). reflexivity.
Defined.

Lemma combine_step (st : list Schema * gmap string Schema) (s : Schema)
    (n : string) :
  (combine st s).1 = st.1 ++ [fix_name s] ∧
  (combine st s).2 !! n = extend (st.2 !! n) n [fix_name s].
Proof.
  unfold combine. fold (fix_name s). set (s' := fix_name s).
  split; [done|]. unfold extend, tables_named, named. cbn [snd].
  destruct (decide (sch_Name s' = n)) as [<-|Hne].
  - rewrite filter_cons_True by done. rewrite filter_nil. simpl.
    rewrite app_nil_r.
    destruct (st.2 !! sch_Name s') as [e|] eqn:Ee.
    + rewrite Ee. by rewrite lookup_insert_eq.
    + rewrite lookup_insert_eq. by rewrite lookup_insert_eq.
  - rewrite filter_cons_False by done. rewrite filter_nil.
    destruct (st.2 !! sch_Name s') as [e|] eqn:Ee.
    + rewrite Ee. by rewrite lookup_insert_ne.
    + rewrite lookup_insert_eq. by rewrite !lookup_insert_ne.
Qed.

Lemma extend_app (o : option Schema) (n : string) (l1 l2 : list Schema) :
  extend (extend o n l1) n l2 = extend o n (l1 ++ l2).
Proof.
  unfold extend, tables_named, named. rewrite filter_app.
  destruct (filter (λ s, sch_Name s = n) l1) as [|a1 k1] eqn:E1;
    destruct (filter (λ s, sch_Name s = n) l2) as [|a2 k2] eqn:E2;
    simpl; try done.
  - by rewrite app_nil_r.
  - rewrite map_app, concat_app. simpl. by rewrite <- !app_assoc.
Qed.

Lemma combine_fold (l : list Schema) (st : list Schema * gmap string Schema)
    (n : string) :
  (fold_left combine l st).1 = st.1 ++ map fix_name l ∧
  (fold_left combine l st).2 !! n = extend (st.2 !! n) n (map fix_name l).
Proof.
  revert st. induction l as [|s l IH]; intros st; simpl.
  - split; [by rewrite app_nil_r|]. done.
  - destruct (IH (combine st s)) as [IH1 IH2].
    destruct (combine_step st s n) as [Hs1 Hs2].
    rewrite IH1, IH2, Hs1, Hs2. split.
    + by rewrite <- app_assoc.
    + apply (extend_app (st.2 !! n) n [fix_name s] (map fix_name l)).
Qed.

Lemma Init_schemas_lookup (name : string) (d : Database) (n : string) :
  db_Name (Init_schemas name d) = name ∧
  Schemas (Init_schemas name d) = map fix_name (listed d) ∧
  ∃ m', schemas (Init_schemas name d) = Some m' ∧
        m' !! n = extend (schemas d ≫= (λ m, m !! n)) n (map fix_name (listed d)).
Proof.
  unfold Init_schemas.
  assert ((if (length (Schemas d) =? 0)%nat
           then Schemas d ++ [ {| sch_Name := "public"; sch_Tables := [] |} ]
           else Schemas d) = listed d) as ->.
  { unfold listed. by destruct (Schemas d). }
  set (m0 := match schemas d with Some m => m | None => ∅ end).
  destruct (combine_fold (listed d) ([], m0) n) as [H1 H2].
  split; [done|]. split; [exact H1|].
  eexists. split; [done|]. cbn [schemas]. rewrite H2. f_equal.
  unfold m0. by destruct (schemas d).
Qed.

(** X13: the part of [Init] that combines the schemas: a database
    without schemas gets the one schema [public]; a schema without a
    name is named [public]; afterwards no listed schema has an empty
    name, the map has an entry for a name exactly when it had one
    before or a listed schema has the name, and the tables of the entry
    are those it had before followed by the tables of all the listed
    schemas of that name, in their order. *)
Theorem Init_schemas_combined (name : string) (d : Database) (n : string) :
  db_Name (Init_schemas name d) = name ∧
  Schemas (Init_schemas name d) = map fix_name (listed d) ∧
  Forall (λ s, sch_Name s ≠ "") (Schemas (Init_schemas name d)) ∧
  ∃ m', schemas (Init_schemas name d) = Some m' ∧
    (is_Some (m' !! n) ↔
     is_Some (schemas d ≫= (λ m, m !! n)) ∨
     ∃ s, s ∈ Schemas (Init_schemas name d) ∧ sch_Name s = n) ∧
    ∀ e, m' !! n = Some e →
         sch_Tables e =
           from_option sch_Tables [] (schemas d ≫= (λ m, m !! n)) ++
           tables_named n (Schemas (Init_schemas name d)).
Proof.
  destruct (Init_schemas_lookup name d n) as (Hn & Hs & m' & Hm & Hl).
  split; [exact Hn|]. split; [exact Hs|]. split.
  - rewrite Hs. apply Forall_map, Forall_forall. intros s _. simpl.
    unfold fix_name. case_decide; [done|]. done.
  - exists m'. split; [exact Hm|]. rewrite Hs, Hl.
    unfold extend, tables_named.
    destruct (named n (map fix_name (listed d))) as [|a k] eqn:En.
    + split.
      * split; [by left|]. intros [Ho|(s & Hin & Hname)]; [done|].
        assert (s ∈ named n (map fix_name (listed d))) as Hs'
          by (apply list_elem_of_filter; done).
        rewrite En in Hs'. by apply elem_of_nil in Hs'.
      * intros e He. rewrite He. simpl. by rewrite app_nil_r.
    + split.
      * split; [|by eexists]. intros _. right. exists a.
        assert (a ∈ named n (map fix_name (listed d))) as Ha
          by (rewrite En; left).
        apply list_elem_of_filter in Ha as [Hname Hin]. done.
      * by intros e [= <-].
Qed.

Lemma Init_schemas_public (name : string) (d : Database) :
  is_Some (schemas (Init_schemas name d) ≫= (λ m, m !! "public")) ↔ has_public d.
Proof.
  destruct (Init_schemas_lookup name d "public") as (_ & _ & m' & Hm & Hl).
  rewrite Hm. simpl. rewrite Hl. unfold extend, has_public.
  destruct (named "public" (map fix_name (listed d))) as [|a k] eqn:En.
  - split; [by left|]. intros [Ho|[Hnil|(s & Hin & Hname)]]; [done| |].
    + exfalso. unfold listed in En. rewrite Hnil in En. done.
    + exfalso. assert (fix_name s ∈ named "public" (map fix_name (listed d))) as Hs.
      { apply list_elem_of_filter. split.
        - unfold fix_name. case_decide; [done|]. by destruct Hname.
        - apply list_elem_of_fmap. exists s. split; [done|].
          unfold listed. by destruct (Schemas d); [apply elem_of_nil in Hin|]. }
      rewrite En in Hs. by apply elem_of_nil in Hs.
  - split; [|by eexists]. intros _.
    assert (a ∈ named "public" (map fix_name (listed d))) as Ha
      by (rewrite En; left).
    apply list_elem_of_filter in Ha as [Hname Hin].
    apply list_elem_of_fmap in Hin as (s & -> & Hin).
    unfold listed in Hin. destruct (Schemas d) as [|s0 l] eqn:Es; [by right; left|].
    right. right. exists s. split; [done|].
    unfold fix_name in Hname. case_decide; [by left|by right].
Qed.

(** X14: on a database that was not initialised, [WithSchema] fails for
    every name and executes nothing.  After [Init], [WithDefaultSchema]
    switches to [public] when the database had that schema in its map,
    or lists no schema, or lists one named [public] or without name:
    the statement is executed, and the call succeeds exactly when the
    statement does.  In every other case (all listed schemas have other
    names) it fails and executes nothing. *)
Theorem WithDefaultSchema_after_Init (Exec : string → option error)
    (statusx : StatusError → string) (name : string) (d : Database)
    (n : string) :
  (∃ e, WithSchema Exec statusx (NewDatabase name) n = (Err e, [])) ∧
  (has_public d →
   (WithDefaultSchema Exec statusx (Init_schemas name d)).2
     = ["SET SEARCH_PATH TO public"] ∧
   ((WithDefaultSchema Exec statusx (Init_schemas name d)).1 = Ok "public" ↔
    Exec "SET SEARCH_PATH TO public" = None)) ∧
  (¬ has_public d →
   ∃ e, WithDefaultSchema Exec statusx (Init_schemas name d) = (Err e, [])).
Proof.
  split_and!.
  - unfold WithSchema, NewDatabase. simpl. by eexists.
  - intros Hp. apply (Init_schemas_public name d) in Hp as [e He].
    unfold WithDefaultSchema, WithSchema.
    rewrite decide_False by done. rewrite He.
    change ("SET SEARCH_PATH TO " +:+ "public") with "SET SEARCH_PATH TO public".
    destruct (Exec "SET SEARCH_PATH TO public") as [e'|]; simpl.
    + split; [done|]. split; discriminate.
    + done.
  - intros Hp. unfold WithDefaultSchema, WithSchema.
    rewrite decide_False by done.
    destruct (schemas (Init_schemas name d) ≫= (λ m, m !! "public"))
      as [e|] eqn:He.
    + exfalso. apply Hp. apply (Init_schemas_public name d). by eexists.
    + by eexists.
Qed.

End Database.

(** ** The other host functions *)

Section HostFunctions.
Import wasm wasmtime hostabi.

Context {M K : Type} `{Runtime M} `{KVStore K} (X : Ext).

(** The host functions of the first part leave alone what they have no
    business with. *)
Ltac host_cases :=
  repeat match goal with
         | |- context [match ?x with _ => _ end] => destruct x eqn:?
         end;
  simpl; try done.

(** X15: the getters [GetData], [GetDB], [GetEnv] and [ApiCall] change
    neither the resources nor the key-value store; [SetData], [SetDB]
    and [Log] do not touch the guest memory; [SetData] leaves the store
    and [SetDB] the resources as they are; none of them changes the
    event types or the environment. *)
Theorem host_functions_frame (e : ExportFuncs M K) (a b c d : Z) :
  (res (GetData e a b c).2 = res e ∧ kvs (GetData e a b c).2 = kvs e) ∧
  (res (GetDB e a b c d).2 = res e ∧ kvs (GetDB e a b c d).2 = kvs e) ∧
  (res (GetEnv e a b c d).2 = res e ∧ kvs (GetEnv e a b c d).2 = kvs e) ∧
  (res (ApiCall e a b c d).2 = res e ∧ kvs (ApiCall e a b c d).2 = kvs e) ∧
  (rt (SetData e a b c).2 = rt e ∧ kvs (SetData e a b c).2 = kvs e) ∧
  (rt (SetDB e a b c d).2 = rt e ∧ res (SetDB e a b c d).2 = res e) ∧
  (rt (Log e a b c).2 = rt e ∧ res (Log e a b c).2 = res e ∧
   kvs (Log e a b c).2 = kvs e) ∧
  Forall (λ e', evs e' = evs e ∧ env e' = env e)
    [ (GetData e a b c).2; (GetDB e a b c d).2; (GetEnv e a b c d).2;
      (ApiCall e a b c d).2; (SetData e a b c).2; (SetDB e a b c d).2;
      (Log e a b c).2 ].
Proof.
  unfold GetData, GetDB, GetEnv, ApiCall, SetData, SetDB, Log.
  split_and!; repeat (apply Forall_cons; split); try apply Forall_nil_2;
    host_cases.
Qed.

(** X16: [GetEventType] reads the resources, not the event types: it
    answers as [GetData] does and leaves the same memory, whatever the
    event types are; for an id that is an event type but no resource it
    answers [ResourceNotFound]. *)
Theorem GetEventType_reads_resources (h : Host M K) (rid p q : Z)
    (v : gmap Z bytes) :
  (GetEventType h rid p q).1 = (GetData (ef h) rid p q).1 ∧
  ef (GetEventType h rid p q).2 = (GetData (ef h) rid p q).2 ∧
  (GetEventType (set_ef h (with_evs (ef h) v)) rid p q).1
    = (GetEventType h rid p q).1 ∧
  rt (ef (GetEventType (set_ef h (with_evs (ef h) v)) rid p q).2)
    = rt (ef (GetEventType h rid p q).2) ∧
  (res (ef h) !! uint32 rid = None →
   (GetEventType (set_ef h (with_evs (ef h) v)) rid p q).1
     = ResultStatusCode_ResourceNotFound).
Proof.
  unfold GetEventType, GetData. simpl.
  destruct (res (ef h) !! uint32 rid) as [data|]; [|done].
  destruct (Copy (rt (ef h)) data p q) as [m [e|]]; done.
Qed.

(** X17: the functions for the chain, for MQTT and for the metrics know
    two answers only, [OK] and [Failed]: a read or a copy that fails is
    answered with [Failed] too. *)
Theorem chain_functions_OK_or_Failed (h : Host M K) (a b c d e : Z) :
  Forall (λ s, s = ResultStatusCode_OK ∨ s = ResultStatusCode_Failed)
    [ (SendTX X h a b c d e).1; (SendTXWithOperator X h a b c d e).1;
      (CallContract X h a b c d e).1; (SendMqttMsg X h a b c d).1;
      (StatSubmit X h a b).1 ].
Proof.
  unfold SendTX, SendTXWithOperator, CallContract, SendMqttMsg, StatSubmit.
  repeat (apply Forall_cons; split); try apply Forall_nil_2;
    repeat match goal with
           | |- context [match ?x with _ => _ end] => destruct x eqn:?
           | |- context [if ?x then _ else _] => destruct x eqn:?
           end;
    simpl; auto.
Qed.

(** X18: [SendTX] with a chain client, on a request that is read from
    the guest: the transaction is handed to the client, once, whatever
    follows; the answer is [OK] exactly when the client returns a hash
    and the hash is copied to the guest.  So a transaction the client
    has sent is answered with [Failed] when the copy of its hash
    fails. *)
Theorem SendTX_sent (h : Host M K) (chainID offset size p q : Z) (buf : bytes) :
  cl h = true →
  Read (rt (ef h)) offset size = Ok buf →
  calls (SendTX X h chainID offset size p q).2 =
    calls h ++
      [ CallSendTX (uint64_of_int32 chainID)
          (gjson_Get X (string_of_bytes buf) "to")
          (gjson_Get X (string_of_bytes buf) "value")
          (gjson_Get X (string_of_bytes buf) "data") ] ∧
  ((SendTX X h chainID offset size p q).1 = ResultStatusCode_OK ↔
   ∃ txHash m,
     cl_SendTX X (uint64_of_int32 chainID)
       (gjson_Get X (string_of_bytes buf) "to")
       (gjson_Get X (string_of_bytes buf) "value")
       (gjson_Get X (string_of_bytes buf) "data") = Ok txHash ∧
     Copy (rt (ef h)) (bytes_of_string txHash) p q = (m, None)).
Proof.
  intros Hcl Hread. unfold SendTX. rewrite Hcl, Hread. simpl.
  destruct (cl_SendTX X _ _ _ _) as [txHash|e0]; simpl.
  - destruct (Copy (rt (ef h)) (bytes_of_string txHash) p q) as [m [e1|]] eqn:Ec;
      simpl.
    + split; [done|]. split; [done|]. intros (t & m' & [= <-] & Hc).
      rewrite Ec in Hc. done.
    + split; [done|]. split; [|done]. intros _. by exists txHash, m.
  - split; [done|]. split; [done|]. by intros (t & m' & Hs & _).
Qed.

(** X19: [StatSubmit] submits nothing but an object it has read from the
    guest, that is valid JSON and that is not an array, and at most
    one; it answers [OK] only when it has submitted and the collector
    has accepted; it does not touch the guest memory. *)
Theorem StatSubmit_submits (h : Host M K) (addr size : Z) :
  rt (ef (StatSubmit X h addr size).2) = rt (ef h) ∧
  (calls (StatSubmit X h addr size).2 = calls h ∨
   ∃ buf, Read (rt (ef h)) addr size = Ok buf ∧
          gjson_Valid X (string_of_bytes buf) = true ∧
          gjson_IsArray X (string_of_bytes buf) = false ∧
          calls (StatSubmit X h addr size).2
            = calls h ++ [CallSubmit (string_of_bytes buf)]) ∧
  ((StatSubmit X h addr size).1 = ResultStatusCode_OK →
   ∃ buf, Read (rt (ef h)) addr size = Ok buf ∧
          metrics_Submit X (string_of_bytes buf) = None ∧
          calls (StatSubmit X h addr size).2
            = calls h ++ [CallSubmit (string_of_bytes buf)]).
Proof.
  unfold StatSubmit.
  destruct (Read (rt (ef h)) addr size) as [buf|e0]; simpl;
    [|split_and!; [done|by left|done]].
  destruct (gjson_Valid X (string_of_bytes buf)) eqn:Ev; simpl;
    [|split_and!; [done|by left|done]].
  destruct (gjson_IsArray X (string_of_bytes buf)) eqn:Ea; simpl;
    [split_and!; [done|by left|done]|].
  destruct (metrics_Submit X (string_of_bytes buf)) as [e1|] eqn:Es; simpl.
  - split_and!; [done| |done]. right. by exists buf.
  - split_and!; [done| |]; [right|intros _]; by exists buf.
Qed.

(** Without a schema [public], the default schema is not found and no
    statement is executed. *)
Lemma WithDefaultSchema_no_public (name : string) (d : wasmdb.Database) :
  ¬ has_public d →
  ∃ e, wasmdb.WithDefaultSchema (Exec X) (statusx X) (wasmdb.Init_schemas name d)
       = (Err e, []).
Proof.
  intros Hp. unfold wasmdb.WithDefaultSchema, wasmdb.WithSchema.
  rewrite decide_False by done.
  destruct (wasmdb.schemas (wasmdb.Init_schemas name d) ≫= (λ m, m !! "public"))
    as [e|] eqn:He.
  - exfalso. apply Hp. apply (Init_schemas_public name d). by eexists.
  - by eexists.
Qed.

(** X20: without a database, [SetSQLDB] and [GetSQLDB] answer
    [NoDBContext] and do nothing else (nothing is read or logged).  On
    a database whose schemas, after [Init], do not include [public],
    they never answer [OK], whatever the query: the answer is
    [ResourceNotFound] or [Failed], no statement reaches the database
    and the guest memory is not touched. *)
Theorem SQL_needs_public_schema (h : Host M K) (addr size p q : Z)
    (name : string) (d : wasmdb.Database) :
  db h = Some (wasmdb.Init_schemas name d) →
  ¬ has_public d →
  SetSQLDB X (without_db h) addr size
    = (ResultStatusCode_NoDBContext, without_db h) ∧
  GetSQLDB X (without_db h) addr size p q
    = (ResultStatusCode_NoDBContext, without_db h) ∧
  ((SetSQLDB X h addr size).1 = ResultStatusCode_ResourceNotFound ∨
   (SetSQLDB X h addr size).1 = ResultStatusCode_Failed) ∧
  ((GetSQLDB X h addr size p q).1 = ResultStatusCode_ResourceNotFound ∨
   (GetSQLDB X h addr size p q).1 = ResultStatusCode_Failed) ∧
  calls (SetSQLDB X h addr size).2 = calls h ∧
  calls (GetSQLDB X h addr size p q).2 = calls h ∧
  rt (ef (SetSQLDB X h addr size).2) = rt (ef h) ∧
  rt (ef (GetSQLDB X h addr size p q).2) = rt (ef h).
Proof.
  intros Hdb Hp.
  destruct (WithDefaultSchema_no_public name d Hp) as [e0 He0].
  unfold SetSQLDB, GetSQLDB. rewrite Hdb. simpl.
  destruct (Read (rt (ef h)) addr size) as [data|e1]; simpl;
    [|split_and!; auto].
  destruct (ParseQuery X data) as [[prestate params]|e2]; simpl;
    [|split_and!; auto].
  rewrite He0. simpl. rewrite app_nil_r. split_and!; auto.
Qed.

End HostFunctions.

(** What one loop of [LinkABI] does. *)
Lemma link_None (impt : string → string → hostabi.Fn → option error)
    (module : string) (l : list (string * hostabi.Fn)) :
  ((hostabi.link impt module l).1 = None ↔
   ∀ name ff, (name, ff) ∈ l → impt module name ff = None) ∧
  ((hostabi.link impt module l).1 = None →
   (hostabi.link impt module l).2 = map (λ nf, (module, nf.1, nf.2)) l) ∧
  ∀ m n f, (m, n, f) ∈ (hostabi.link impt module l).2 → m = module ∧ (n, f) ∈ l.
Proof.
  induction l as [|[name ff] l (IH1 & IH2 & IH3)]; simpl.
  - split_and!; [split; [|done]| |].
    + intros _ n f Hin. by apply elem_of_nil in Hin.
    + done.
    + intros m n f Hin. by apply elem_of_nil in Hin.
  - destruct (impt module name ff) as [e|] eqn:Ei; simpl.
    + split_and!.
      * split; [done|]. intros Hall. rewrite (Hall name ff) in Ei; [done|left].
      * done.
      * intros m n f Hin. apply list_elem_of_singleton in Hin as [= -> -> ->].
        split; [done|left].
    + destruct (hostabi.link impt module l) as [e imps] eqn:El. simpl in *.
      split_and!.
      * rewrite IH1. split.
        -- intros Hall n f Hin. apply elem_of_cons in Hin as [[= -> ->]|Hin];
             [done|by apply Hall].
        -- intros Hall n f Hin. apply Hall. by right.
      * intros He. by rewrite (IH2 He).
      * intros m n f Hin. apply elem_of_cons in Hin as [[= -> -> ->]|Hin].
        -- split; [done|left].
        -- destruct (IH3 m n f Hin) as [-> Hl]. split; [done|by right].
Qed.

(** X21: [LinkABI], in whatever order the two loops meet the entries of
    their maps: it returns nil exactly when every import succeeds, and
    then it has imported the sixteen functions of the module [env] and
    [ws_submit_metrics] of the module [stat]; it imports nothing else,
    and [GetEventType] under no name. *)
Theorem LinkABI_links (impt : string → string → hostabi.Fn → option error)
    (order_env order_stat : list (string * hostabi.Fn)) :
  order_env ≡ₚ hostabi.env_imports →
  order_stat ≡ₚ hostabi.stat_imports →
  ((hostabi.LinkABI impt order_env order_stat).1 = None ↔
   (∀ name ff, (name, ff) ∈ hostabi.env_imports → impt "env" name ff = None) ∧
   impt "stat" "ws_submit_metrics" hostabi.FnStatSubmit = None) ∧
  ((hostabi.LinkABI impt order_env order_stat).1 = None →
   (hostabi.LinkABI impt order_env order_stat).2 ≡ₚ
     map (λ nf, ("env", nf.1, nf.2)) hostabi.env_imports ++
     map (λ nf, ("stat", nf.1, nf.2)) hostabi.stat_imports) ∧
  (∀ m n f, (m, n, f) ∈ (hostabi.LinkABI impt order_env order_stat).2 →
            (m = "env" ∧ (n, f) ∈ hostabi.env_imports) ∨
            (m = "stat" ∧ (n, f) ∈ hostabi.stat_imports)) ∧
  ∀ m n, (m, n, hostabi.FnGetEventType)
           ∉ (hostabi.LinkABI impt order_env order_stat).2.
Proof.
  intros Henv Hstat.
  destruct (link_None impt "env" order_env) as (E1 & E2 & E3).
  destruct (link_None impt "stat" order_stat) as (S1 & S2 & S3).
  assert (∀ m n f, (m, n, f) ∈ (hostabi.LinkABI impt order_env order_stat).2 →
            (m = "env" ∧ (n, f) ∈ hostabi.env_imports) ∨
            (m = "stat" ∧ (n, f) ∈ hostabi.stat_imports)) as Hin.
  { intros m n f. unfold hostabi.LinkABI.
    destruct (hostabi.link impt "env" order_env) as [[e|] imps] eqn:El; simpl in *.
    - intros Hm. left. destruct (E3 m n f Hm) as [-> Hl].
      split; [done|]. by rewrite <- Henv.
    - destruct (hostabi.link impt "stat" order_stat) as [e' imps'] eqn:Es.
      simpl in *. intros Hm. apply elem_of_app in Hm as [Hm|Hm].
      + left. destruct (E3 m n f Hm) as [-> Hl]. split; [done|].
        by rewrite <- Henv.
      + right. destruct (S3 m n f Hm) as [-> Hl]. split; [done|].
        by rewrite <- Hstat. }
  split_and!.
  - unfold hostabi.LinkABI.
    destruct (hostabi.link impt "env" order_env) as [[e|] imps] eqn:El; simpl in *.
    + split; [done|]. intros [Hall _]. exfalso.
      assert (Some e = None) as Hn; [|done].
      apply E1. intros n f Hl. apply Hall. by rewrite <- Henv.
    + destruct (hostabi.link impt "stat" order_stat) as [e' imps'] eqn:Es.
      simpl in *. rewrite S1. split.
      * intros Hs. split.
        -- intros n f Hl. apply (proj1 E1 eq_refl). by rewrite Henv.
        -- apply Hs. rewrite Hstat. left.
      * intros [_ Hs] n f Hl. rewrite Hstat in Hl.
        by apply list_elem_of_singleton in Hl as [= -> ->].
  - unfold hostabi.LinkABI.
    destruct (hostabi.link impt "env" order_env) as [[e|] imps] eqn:El; simpl in *;
      [done|].
    destruct (hostabi.link impt "stat" order_stat) as [e' imps'] eqn:Es.
    simpl in *. intros ->. rewrite (E2 eq_refl), (S2 eq_refl).
    by rewrite Henv, Hstat.
  - exact Hin.
  - intros m n Hm. destruct (Hin m n _ Hm) as [[_ Hl]|[_ Hl]].
    + unfold hostabi.env_imports in Hl. set_solver.
    + unfold hostabi.stat_imports in Hl. set_solver.
Qed.

(** [LinkABI_links] for the order in which the maps are written and an
    import that always succeeds. *)
Lemma LinkABI_links_witness :
  ((hostabi.LinkABI (λ _ _ _, None) hostabi.env_imports hostabi.stat_imports).1
     = None ↔
   (∀ name ff, (name, ff) ∈ hostabi.env_imports →
               (λ _ _ _, None : option error) "env" name ff = None) ∧
   (λ _ _ _, None : option error) "stat" "ws_submit_metrics" hostabi.FnStatSubmit
     = None) ∧
  ((hostabi.LinkABI (λ _ _ _, None) hostabi.env_imports hostabi.stat_imports).1
     = None →
   (hostabi.LinkABI (λ _ _ _, None) hostabi.env_imports hostabi.stat_imports).2 ≡ₚ
     map (λ nf, ("env", nf.1, nf.2)) hostabi.env_imports ++
     map (λ nf, ("stat", nf.1, nf.2)) hostabi.stat_imports) ∧
  (∀ m n f,
     (m, n, f) ∈
       (hostabi.LinkABI (λ _ _ _, None) hostabi.env_imports hostabi.stat_imports).2 →
     (m = "env" ∧ (n, f) ∈ hostabi.env_imports) ∨
     (m = "stat" ∧ (n, f) ∈ hostabi.stat_imports)) ∧
  ∀ m n, (m, n, hostabi.FnGetEventType)
           ∉ (hostabi.LinkABI (λ _ _ _, None) hostabi.env_imports
                hostabi.stat_imports).2.
Proof.
  apply (LinkABI_links (λ _ _ _, None) hostabi.env_imports hostabi.stat_imports);
    reflexivity.
Defined.

(** [SendTX_sent] for a request of two bytes and a range for the hash
    that is not in the guest memory: the transaction is sent, and the
    answer is [Failed]. *)
Lemma SendTX_sent_witness :
  hostabi.calls (hostabi.SendTX ext0 host0 4689 0 2 100 104).2 =
    hostabi.calls host0 ++
      [ hostabi.CallSendTX (hostabi.uint64_of_int32 4689)
          (hostabi.gjson_Get ext0 (string_of_bytes (bytes_of_string "k1")) "to")
          (hostabi.gjson_Get ext0 (string_of_bytes (bytes_of_string "k1")) "value")
          (hostabi.gjson_Get ext0 (string_of_bytes (bytes_of_string "k1")) "data") ] ∧
  ((hostabi.SendTX ext0 host0 4689 0 2 100 104).1 = wasm.ResultStatusCode_OK ↔
   ∃ txHash m,
     hostabi.cl_SendTX ext0 (hostabi.uint64_of_int32 4689)
       (hostabi.gjson_Get ext0 (string_of_bytes (bytes_of_string "k1")) "to")
       (hostabi.gjson_Get ext0 (string_of_bytes (bytes_of_string "k1")) "value")
       (hostabi.gjson_Get ext0 (string_of_bytes (bytes_of_string "k1")) "data")
       = Ok txHash ∧
     wasm.Copy (wasmtime.rt (hostabi.ef host0)) (bytes_of_string txHash) 100 104
       = (m, None)).
Proof.
  apply (SendTX_sent ext0 host0 4689 0 2 100 104 (bytes_of_string "k1"));
    reflexivity.
Defined.

(** The transaction of the example is sent and answered with
    [Failed]. *)
Example SendTX_sent_but_Failed :
  (hostabi.SendTX ext0 host0 4689 0 2 100 104).1 = wasm.ResultStatusCode_Failed ∧
  hostabi.calls (hostabi.SendTX ext0 host0 4689 0 2 100 104).2 =
    [ hostabi.CallSendTX 4689 "to" "value" "data" ].
Proof. split; reflexivity. Qed.

Lemma db_main_no_public : ¬ has_public db_main.
Proof.
  intros [[x Hx]|[Hnil|(s & Hin & Hname)]].
  - discriminate.
  - discriminate.
  - apply list_elem_of_singleton in Hin as ->. by destruct Hname.
Defined.

(** [SQL_needs_public_schema] for the database that lists the schema
    [main] only. *)
Lemma SQL_needs_public_schema_witness :
  hostabi.SetSQLDB ext0 (without_db host0) 0 2
    = (wasm.ResultStatusCode_NoDBContext, without_db host0) ∧
  hostabi.GetSQLDB ext0 (without_db host0) 0 2 8 12
    = (wasm.ResultStatusCode_NoDBContext, without_db host0) ∧
  ((hostabi.SetSQLDB ext0 host0 0 2).1 = wasm.ResultStatusCode_ResourceNotFound ∨
   (hostabi.SetSQLDB ext0 host0 0 2).1 = wasm.ResultStatusCode_Failed) ∧
  ((hostabi.GetSQLDB ext0 host0 0 2 8 12).1
     = wasm.ResultStatusCode_ResourceNotFound ∨
   (hostabi.GetSQLDB ext0 host0 0 2 8 12).1 = wasm.ResultStatusCode_Failed) ∧
  hostabi.calls (hostabi.SetSQLDB ext0 host0 0 2).2 = hostabi.calls host0 ∧
  hostabi.calls (hostabi.GetSQLDB ext0 host0 0 2 8 12).2 = hostabi.calls host0 ∧
  wasmtime.rt (hostabi.ef (hostabi.SetSQLDB ext0 host0 0 2).2)
    = wasmtime.rt (hostabi.ef host0) ∧
  wasmtime.rt (hostabi.ef (hostabi.GetSQLDB ext0 host0 0 2 8 12).2)
    = wasmtime.rt (hostabi.ef host0).
Proof.
  apply (SQL_needs_public_schema ext0 host0 0 2 8 12 "w3b_1" db_main).
  - reflexivity.
  - exact db_main_no_public.
Defined.

(** ** The host functions of the first part, once more *)

Section HostABIMore.
Import wasm wasmtime.

Context {M K : Type} `{Runtime M} `{KVStore K}.

(** Of two [SetData] on the same resource that succeed, the second
    wins: the host is left as by the second alone. *)
Theorem SetData_last_wins (e e1 e2 : ExportFuncs M K)
    (rid addr size addr' size' : Z) :
  SetData e rid addr size = (ResultStatusCode_OK, e1) →
  SetData e1 rid addr' size' = (ResultStatusCode_OK, e2) →
  SetData e rid addr' size' = (ResultStatusCode_OK, e2).
Proof.
  intros H1 H2.
  destruct (SetData_OK e e1 _ _ _ H1) as (v & Hv & ->).
  destruct (SetData_OK _ e2 _ _ _ H2) as (v' & Hv' & ->).
  simpl in Hv'. unfold SetData. rewrite Hv'. f_equal.
  unfold set_res. simpl. f_equal. symmetry. apply insert_insert_eq.
Qed.

End HostABIMore.

(** [SetData_last_wins] for the resource 1, set to the bytes at address
    2 and then to the bytes at address 0. *)
Lemma SetData_last_wins_witness :
  wasmtime.SetData ef0 1 0 2 =
    (wasm.ResultStatusCode_OK,
     (wasmtime.SetData (wasmtime.SetData ef0 1 2 5).2 1 0 2).2).
Proof.
  apply (SetData_last_wins ef0 (wasmtime.SetData ef0 1 2 5).2
           (wasmtime.SetData (wasmtime.SetData ef0 1 2 5).2 1 0 2).2 1 2 5 0 2);
    reflexivity.
Defined.

(** ** The instance registry, once more *)

Section RegistryMore.
Import vm.

Lemma DelInstance_unregistered (w : World) (id : Z) :
  Load w id = None → DelInstance w id = w.
Proof. unfold DelInstance, LoadAndRemove, Load. by intros ->. Qed.

Lemma Stop_State_ne (w : World) (i i' : ref) :
  i' ≠ i → State (Stop w i) i' = State w i'.
Proof.
  intros Hne. unfold Stop.
  destruct (State w i) as [[]|] eqn:E; try done.
  unfold State. simpl. by rewrite lookup_insert_ne.
Qed.

(** X22: [DelInstance] a second time changes nothing; it changes the
    state of no instance but the one registered under the id; and the
    instance it has removed is not [STARTED] afterwards. *)
Theorem DelInstance_effects (w : World) (id : Z) :
  DelInstance (DelInstance w id) id = DelInstance w id ∧
  (∀ i', Load w id ≠ Some i' → State (DelInstance w id) i' = State w i') ∧
  (∀ i, Load w id = Some i →
        State (DelInstance w id) i ≠ Some InstanceState_Started).
Proof.
  split_and!.
  - apply DelInstance_unregistered, DelInstance_Load.
  - intros i' Hne. destruct (Load w id) as [i|] eqn:El.
    + rewrite (DelInstance_registered w id i El).
      case_decide; [|done]. rewrite Stop_State_ne; [done|]. congruence.
    + by rewrite DelInstance_unregistered.
  - intros i El. rewrite (DelInstance_registered w id i El).
    case_decide as Hs; [|done].
    rewrite Stop_started by exact Hs. unfold State. simpl.
    by rewrite lookup_insert_eq.
Qed.

(** X23: the registry does not keep apart two ids of one instance: when a
    [STARTED] instance is registered under two ids, to remove one of
    them stops the instance, which stays registered, [STOPPED], under
    the other. *)
Theorem DelInstance_shared_instance (w : World) (id1 id2 : Z) (i : ref) :
  id1 ≠ id2 →
  Load w id1 = Some i →
  Load w id2 = Some i →
  State w i = Some InstanceState_Started →
  Load (DelInstance w id1) id2 = Some i ∧
  registered_state (DelInstance w id1) id2 = Some InstanceState_Stopped.
Proof.
  intros Hne H1 H2 Hs.
  assert (Load (DelInstance w id1) id2 = Some i) as Hl
    by (rewrite DelInstance_Load_ne; done).
  split; [exact Hl|]. unfold registered_state. rewrite Hl. simpl.
  rewrite (DelInstance_registered w id1 i H1), decide_True by exact Hs.
  rewrite Stop_started by exact Hs. unfold State. simpl.
  by rewrite lookup_insert_eq.
Qed.

End RegistryMore.

Lemma DelInstance_shared_instance_witness :
  vm.Load (vm.DelInstance shared_world 7) 8 = Some 1%positive ∧
  vm.registered_state (vm.DelInstance shared_world 7) 8
    = Some vm.InstanceState_Stopped.
Proof.
  apply (DelInstance_shared_instance shared_world 7 8 1%positive);
    [discriminate|reflexivity|reflexivity|reflexivity].
Defined.

(** ** The event dispatcher, once more *)

Section DispatcherMore.
Import wasm event.

Context {I : Type} (D : Deps I).

(** X24: [publisherVerification] passes an event exactly when it has a
    header with a token that is not empty, the token parses to a claim
    whose payload is a string, and the string is the id of the project.
    A string that is the id of another project is answered with
    [NoProjectPermission], one that is no id with
    [InvalidAuthPorjectID], a payload that is no string with
    [InvalidAuthValue]. *)
Theorem publisherVerification_passes (r : Event) :
  (publisherVerification D r = None ↔
   ∃ h v, Header r = Some h ∧ Token h ≠ "" ∧
          ParseToken D (publisherJwt D) (Token h) = Ok (PayloadString v) ∧
          UnmarshalText D (bytes_of_string v) = Ok (ProjectID (project D))) ∧
  (∀ h, Header r = Some h → Token h ≠ "" →
     match ParseToken D (publisherJwt D) (Token h) with
     | Err e => publisherVerification D r = Some e
     | Ok PayloadOther =>
         publisherVerification D r = Some (status_Error InvalidAuthValue)
     | Ok (PayloadString v) =>
         match UnmarshalText D (bytes_of_string v) with
         | Err _ =>
             publisherVerification D r = Some (status_Error InvalidAuthPorjectID)
         | Ok projectID =>
             projectID ≠ ProjectID (project D) →
             publisherVerification D r = Some (status_Error NoProjectPermission)
         end
     end).
Proof.
  unfold publisherVerification, publisherJwt. split.
  - destruct (Header r) as [h|]; [|split; [done|by intros (? & ? & ? & _)]].
    destruct (Token h) as [|c s] eqn:Et; simpl.
    { split; [done|]. intros (h' & v & [= <-] & Hne & _). by rewrite Et in Hne. }
    destruct (ParseToken D _ (String c s)) as [[v|]|e] eqn:Ep.
    + destruct (UnmarshalText D (bytes_of_string v)) as [id|e] eqn:Eu.
      * destruct (id =? ProjectID (project D)) eqn:Eid.
        -- apply Z.eqb_eq in Eid as ->. split; [|done]. intros _.
           exists h, v. rewrite Et. split_and!; done.
        -- split; [done|]. intros (h' & v' & [= <-] & _ & Hp & Hu).
           rewrite Et, Ep in Hp. injection Hp as <-. rewrite Eu in Hu.
           injection Hu as ->. by rewrite Z.eqb_refl in Eid.
      * split; [done|]. intros (h' & v' & [= <-] & _ & Hp & Hu).
        rewrite Et, Ep in Hp. injection Hp as <-. by rewrite Eu in Hu.
    + split; [done|]. intros (h' & v' & [= <-] & _ & Hp & _).
      by rewrite Et, Ep in Hp.
    + split; [done|]. intros (h' & v' & [= <-] & _ & Hp & _).
      by rewrite Et, Ep in Hp.
  - intros h -> Ht. destruct (Token h) as [|c s] eqn:Et; [done|]. simpl.
    destruct (ParseToken D _ (String c s)) as [[v|]|e]; try done.
    destruct (UnmarshalText D (bytes_of_string v)) as [id|e]; [|done].
    intros Hne. by apply Z.eqb_neq in Hne as ->.
Qed.

(** The four ways [OnEventReceived] ends. *)
Lemma OnEventReceived_cases (projectName : string) (r : Event) (o : Return) :
  OnEventReceived D projectName r = Returns o →
  ∃ h, Header r = Some h ∧
       ProjectName (ret o) = projectName ∧ EventID (ret o) = EventId h ∧
       ((∃ e, err o = Some e ∧ ErrMsg (ret o) = Error (statusx D) e ∧
              WasmResults (ret o) = [] ∧ invoked o = []) ∨
        (err o = None ∧ ErrMsg (ret o) = "" ∧
         (WasmResults (ret o) = [] ∧ invoked o = [] ∨
          publisherVerification D r = None ∧
          publisher_resolved D projectName h ∧
          WasmResults (ret o)
            = omap id (map (send D (bytes_of_string (Payload r)))
                         (matched D projectName h)) ∧
          invoked o = filter (λ v, starts_task D v = true)
                        (matched D projectName h)))).
Proof.
  unfold OnEventReceived, matched, publisher_resolved.
  destruct (Header r) as [h|]; [|done]. intros Ho. exists h. split; [done|].
  destruct (publisherVerification D r) as [e|].
  { injection Ho as <-. simpl. split_and!; [done|done|]. left. by exists e. }
  destruct (0 <? String.length (PubId h))%nat eqn:Hlen.
  - destruct (GetPublisherByPubKeyAndProjectName D (PubId h) projectName)
      as [pub|e] eqn:Ep.
    + destruct (FindStrategyInstances D projectName (eventType_of D h))
        as [hs|e] eqn:Ef.
      * injection Ho as <-. simpl. split_and!; [done|done|]. right.
        split_and!; [done|done|]. right. split_and!; try done.
        right. by exists pub.
      * injection Ho as <-. simpl. split_and!; [done|done|]. left. by exists e.
    + injection Ho as <-. simpl. split_and!; [done|done|]. right.
      split_and!; [done|done|]. by left.
  - destruct (FindStrategyInstances D projectName (eventType_of D h))
      as [hs|e] eqn:Ef.
    + injection Ho as <-. simpl. split_and!; [done|done|]. right.
      split_and!; [done|done|]. right. split_and!; try done.
      left. apply Nat.ltb_ge in Hlen. lia.
    + injection Ho as <-. simpl. split_and!; [done|done|]. left. by exists e.
Qed.

(** X25: whatever [OnEventReceived] returns names the project and the
    event; when it returns an error, [ErrMsg] is the text of the error,
    there are no results and no handler was invoked; when it returns no
    error, [ErrMsg] is empty. *)
Theorem OnEventReceived_error_or_results (projectName : string) (r : Event)
    (o : Return) :
  may_return D projectName r o →
  ProjectName (ret o) = projectName ∧
  (∃ h, Header r = Some h ∧ EventID (ret o) = EventId h) ∧
  match err o with
  | Some e =>
      ErrMsg (ret o) = Error (statusx D) e ∧ WasmResults (ret o) = [] ∧
      invoked o = []
  | None => ErrMsg (ret o) = ""
  end.
Proof.
  intros (o0 & Ho0 & He & Hi & Hp & Hs).
  destruct (OnEventReceived_cases projectName r o0 Ho0)
    as (h & Hh & Hn & Hid & Hcases).
  rewrite <- Hs, He, Hi. cbn [ProjectName EventID ErrMsg set_WasmResults].
  split_and!; [done|by exists h|].
  destruct Hcases as [(e & -> & Hm & Hw & Hv)|(-> & Hm & _)]; [|done].
  split_and!; [done| |done]. rewrite Hw in Hp. by apply Permutation_nil_r in Hp.
Qed.

(** Of the handlers of a list, the ones whose instance is found and the
    ones whose instance is not found are all. *)
Lemma started_or_absent (l : list InstanceHandler) :
  (length (filter (λ v, starts_task D v = true) l) +
   length (filter (λ v, GetConsumer D (ih_InstanceID v) = None) l))%nat
  = length l.
Proof.
  induction l as [|v l IH]; [done|].
  destruct (GetConsumer D (ih_InstanceID v)) as [i|] eqn:Eg.
  - rewrite filter_cons_True
      by (unfold starts_task; rewrite Eg; apply bool_decide_eq_true; by eexists).
    rewrite (filter_cons_False _ v) by (by rewrite Eg). cbn [length]. lia.
  - rewrite filter_cons_False.
    2:{ unfold starts_task. rewrite Eg, bool_decide_eq_true. by intros [? ?]. }
    rewrite (filter_cons_True _ v) by (by rewrite Eg). cbn [length]. lia.
Qed.

(** X26: on an event that passes the authentication and the resolution
    of its publisher and whose strategies are found, the handlers
    invoked are the matched ones whose instance is found, in the order
    of the match; every matched handler whose instance is not found is
    reported with the code -1 and [instance not found]; and together
    they are all the matched handlers. *)
Theorem OnEventReceived_invoked (projectName : string) (r : Event)
    (h : EventHeader) (o : Return) :
  Header r = Some h →
  publisherVerification D r = None →
  publisher_resolved D projectName h →
  (∃ hs, FindStrategyInstances D projectName (eventType_of D h) = Ok hs) →
  may_return D projectName r o →
  invoked o = filter (λ v, starts_task D v = true) (matched D projectName h) ∧
  (∀ v, v ∈ matched D projectName h → GetConsumer D (ih_InstanceID v) = None →
        {| wasm.InstanceID := SFID_String D (ih_InstanceID v);
           wasm.Code := -1;
           wasm.ErrMsg := "instance not found" |} ∈ WasmResults (ret o)) ∧
  (length (invoked o) +
   length (filter (λ v, GetConsumer D (ih_InstanceID v) = None)
             (matched D projectName h)))%nat
    = length (matched D projectName h).
Proof.
  intros Hh Hv Hp [hs Hf] (o0 & Ho0 & He & Hi & Hperm & Hs).
  assert (WasmResults (ret o0)
            = omap id (map (send D (bytes_of_string (Payload r)))
                         (matched D projectName h)) ∧
          invoked o0 = filter (λ v, starts_task D v = true)
                         (matched D projectName h)) as [Hw Hinv].
  { revert Ho0. unfold OnEventReceived, matched. rewrite Hh, Hv, Hf.
    destruct (0 <? String.length (PubId h))%nat eqn:Hlen.
    - destruct Hp as [Hp|[pub Hp]]; [apply Nat.ltb_lt in Hlen; lia|].
      rewrite Hp. by intros [= <-].
    - by intros [= <-]. }
  rewrite Hi, Hinv. split_and!; [done| |].
  - intros v Hin Hn. rewrite Hperm, Hw. apply list_elem_of_omap.
    exists (send D (bytes_of_string (Payload r)) v). split.
    + apply list_elem_of_fmap. by exists v.
    + simpl. by apply absent_send.
  - apply started_or_absent.
Qed.






End DispatcherMore.

(** [OnEventReceived_error_or_results] for an event with an empty
    token. *)
Lemma OnEventReceived_error_or_results_witness :
  ∃ o, event.OnEventReceived (deps handle_ok) "p" (event_of "pubA" "") = Returns o ∧
    event.ProjectName (event.ret o) = "p" ∧
    (∃ h, event.Header (event_of "pubA" "") = Some h ∧
          event.EventID (event.ret o) = event.EventId h) ∧
    match event.err o with
    | Some e =>
        event.ErrMsg (event.ret o) = Error (event.statusx (deps handle_ok)) e ∧
        event.WasmResults (event.ret o) = [] ∧ event.invoked o = []
    | None => event.ErrMsg (event.ret o) = ""
    end.
Proof.
  eexists. split; [reflexivity|].
  apply (OnEventReceived_error_or_results (deps handle_ok) "p"
           (event_of "pubA" "")).
  apply may_return_refl. reflexivity.
Defined.

(** [OnEventReceived_invoked] for an event of the publisher [pubA]: of
    the two matched handlers, the one of the instance 1 is invoked and
    the one of the instance 2 is reported as not found. *)
Lemma OnEventReceived_invoked_witness :
  ∃ o, event.OnEventReceived (deps handle_ok) "p" (event_of "pubA" "token-of-1")
         = Returns o ∧
    event.invoked o =
      filter (λ v, event.starts_task (deps handle_ok) v = true)
        (event.matched (deps handle_ok) "p" (header_of "pubA" "token-of-1")) ∧
    (∀ v, v ∈ event.matched (deps handle_ok) "p" (header_of "pubA" "token-of-1") →
          event.GetConsumer (deps handle_ok) (event.ih_InstanceID v) = None →
          {| wasm.InstanceID :=
               event.SFID_String (deps handle_ok) (event.ih_InstanceID v);
             wasm.Code := -1;
             wasm.ErrMsg := "instance not found" |}
            ∈ event.WasmResults (event.ret o)) ∧
    (length (event.invoked o) +
     length (filter (λ v, event.GetConsumer (deps handle_ok)
                            (event.ih_InstanceID v) = None)
               (event.matched (deps handle_ok) "p"
                  (header_of "pubA" "token-of-1"))))%nat
      = length (event.matched (deps handle_ok) "p" (header_of "pubA" "token-of-1")).
Proof.
  eexists. split; [reflexivity|].
  apply (OnEventReceived_invoked (deps handle_ok) "p"
           (event_of "pubA" "token-of-1") (header_of "pubA" "token-of-1")).
  - reflexivity.
  - reflexivity.
  - right. eexists. reflexivity.
  - eexists. reflexivity.
  - apply may_return_refl. reflexivity.
Defined.

(** [HandleEvents] on the one event of the publisher [pubA], when the
    result of the task of the instance 1 arrives after the entry made
    up for the instance 2. *)
Example HandleEvents_in_order_of_arrival :
  event.HandleEvents (deps handle_ok) (λ _, reverse) "p"
    [event_of "pubA" "token-of-1"] =
  Returns
    [ {| event.ProjectName := "p"; event.PubID := 10; event.PubName := "A";
         event.EventID := "e1"; event.ErrMsg := "";
         event.WasmResults :=
           [ {| wasm.InstanceID := "2"; wasm.Code := -1;
                wasm.ErrMsg := "instance not found" |};
             {| wasm.InstanceID := "1"; wasm.Code := 0; wasm.ErrMsg := "" |} ] |} ].
Proof. reflexivity. Qed.

(** ** The asynchronous API-call worker, once more *)

Section WorkerMore.
Import async.

(** The worker has failed before it made a task. *)
Ltac worker_fails :=
  split_and!;
  [ by intros ? [= <-]
  | simpl; lia
  | intros ? Hin; by apply elem_of_nil in Hin
  | done ].

(** The outcomes of [ApiCallProcessor.ProcessTask], one by one. *)
Lemma ProcessTask_cases (D : Deps) (t : bytes) :
  match ProcessTask D t with
  | Panics =>
      ∃ payload req,
        Unmarshal_payload D t = Ok payload ∧ original_request D t = Some req ∧
        NewRequest D (Method req) (Url req) (Body req) = None ∧
        Project payload = None
  | Returns o =>
      (∀ e, err o = Some e → errors_Is e SkipRetry = true) ∧
      (length (enqueued o) ≤ 1)%nat ∧
      (∀ task, task ∈ enqueued o →
         ∃ payload req projectName apiRespJson,
           Unmarshal_payload D t = Ok payload ∧
           original_request D t = Some req ∧
           Project payload = Some projectName ∧
           Header_Get (Header req) "eventType" ≠ "" ∧
           newApiResultTask D projectName
             (Header_Get (Header req) "eventType") apiRespJson = Ok task) ∧
      (err o = None → ∃ task, enqueued o = [task] ∧ Enqueue D task = None)
  end.
Proof.
  unfold ProcessTask, original_request, fails, skip.
  destruct (Unmarshal_payload D t) as [payload|e0]; [|worker_fails].
  destruct (Unmarshal_request D (Data payload)) as [apiReq|e0]; [|worker_fails].
  destruct (NewRequest D _ _ _) as [e0|] eqn:En; [worker_fails|].
  destruct (Project payload) as [projectName|] eqn:Ep;
    [|by exists payload, apiReq].
  destruct (rec_Body _) as [[body|e1]|]; [|worker_fails|];
    (destruct (Marshal D _) as [js|e2]; [|worker_fails];
     destruct (String.length (Header_Get (Header apiReq) "eventType") =? 0)%nat
       eqn:El; [worker_fails|];
     destruct (newApiResultTask D projectName _ js) as [task|e3] eqn:Et;
       [|worker_fails];
     destruct (Enqueue D task) as [e4|] eqn:Eq;
     (split_and!;
      [ first [done | by intros ? [= <-]]
      | simpl; lia
      | intros task' Hin; apply list_elem_of_singleton in Hin as ->;
        exists payload, apiReq, projectName, js;
        split_and!; try done; intros Heq; by rewrite Heq in El
      | first [done | by exists task] ])).
Qed.

(** X28: whenever [ApiCallProcessor.ProcessTask] returns an error, the
    error wraps [asynq.SkipRetry], also when it is the queue that
    refused the task; it hands at most one task to [cli.Enqueue], made
    for the project of the payload and the [eventType] header of the
    request, which is not empty; it returns nil only after the queue has
    accepted that task.  It panics exactly on a payload that decodes
    with its request, passes [http.NewRequest] and has a nil project. *)
Theorem ProcessTask_outcomes (D : Deps) (t : bytes) :
  (ProcessTask D t = Panics ↔
   ∃ payload req,
     Unmarshal_payload D t = Ok payload ∧ original_request D t = Some req ∧
     NewRequest D (Method req) (Url req) (Body req) = None ∧
     Project payload = None) ∧
  ∀ o, ProcessTask D t = Returns o →
    (∀ e, err o = Some e → errors_Is e SkipRetry = true) ∧
    (length (enqueued o) ≤ 1)%nat ∧
    (∀ task, task ∈ enqueued o →
       ∃ payload req projectName apiRespJson,
         Unmarshal_payload D t = Ok payload ∧
         original_request D t = Some req ∧
         Project payload = Some projectName ∧
         Header_Get (Header req) "eventType" ≠ "" ∧
         newApiResultTask D projectName
           (Header_Get (Header req) "eventType") apiRespJson = Ok task) ∧
    (err o = None → ∃ task, enqueued o = [task] ∧ Enqueue D task = None).
Proof.
  pose proof (ProcessTask_cases D t) as Hc. split; [split|].
  - intros Hp. by rewrite Hp in Hc.
  - intros (payload & req & Hpay & Hreq & Hnew & Hproj).
    unfold original_request in Hreq. unfold ProcessTask.
    rewrite Hpay in *.
    destruct (Unmarshal_request D (Data payload)) as [apiReq|e0]; [|done].
    injection Hreq as ->. by rewrite Hnew, Hproj.
  - intros o Ho. by rewrite Ho in Hc.
Qed.

(** X29: the headers of the response the worker passes on: every header
    of the request but [Content-Type] is written over that of the
    answer of the router; [Content-Type], and the headers the request
    does not have, are those of the answer. *)
Theorem merge_headers_lookup (resp req : gmap string (list string)) (k : string) :
  merge_headers resp req !! k =
    if decide (k = "Content-Type") then resp !! k
    else match req !! k with
         | Some v => Some v
         | None => resp !! k
         end.
Proof.
  unfold merge_headers. rewrite lookup_union.
  case_decide as Hk.
  - subst k.
    rewrite (map_lookup_filter_None_2 _ req "Content-Type");
      [|right; intros x _ Hp; by apply Hp].
    by destruct (resp !! "Content-Type").
  - destruct (req !! k) as [v|] eqn:Er.
    + rewrite (map_lookup_filter_Some_2 _ req k v Er Hk).
      by destruct (resp !! k).
    + rewrite (map_lookup_filter_None_2 _ req k); [|by left].
      by destruct (resp !! k).
Qed.

(** The header is looked up under no other spelling than
    [Eventtype]. *)
Lemma Header_Get_canonical (h : gmap string (list string)) :
  h !! "Eventtype" = None → Header_Get h "eventType" = "".
Proof.
  intros Hn. unfold Header_Get.
  change (CanonicalMIMEHeaderKey "eventType") with "Eventtype". by rewrite Hn.
Qed.

(** X30: the worker finds the event type only under the key [Eventtype]
    of the map of headers.  For a task whose request has no such key,
    be it that it has the key [eventType], nothing is enqueued: when
    the call returns, it returns an error that wraps [SkipRetry]; and
    it returns unless the payload holds no project (and the request
    passes [http.NewRequest]), when it panics before it looks at the
    header. *)
Theorem eventType_only_as_Eventtype (D : Deps) (t : bytes) (req : HttpRequest) :
  original_request D t = Some req →
  Header req !! "Eventtype" = None →
  (ProcessTask D t = Panics ↔
   ∃ payload,
     Unmarshal_payload D t = Ok payload ∧ Project payload = None ∧
     NewRequest D (Method req) (Url req) (Body req) = None) ∧
  (∀ o, ProcessTask D t = Returns o →
        enqueued o = [] ∧
        ∃ e, err o = Some e ∧ errors_Is e SkipRetry = true).
Proof.
  intros Hreq Hnone.
  exact (no_eventType_outcomes D t req Hreq (Header_Get_canonical _ Hnone)).
Qed.

End WorkerMore.

(** [eventType_only_as_Eventtype] for a request with the header
    [eventType: resp.v1], of a task that names its project. *)
Lemma eventType_only_as_Eventtype_witness :
  ∃ o, async.ProcessTask (worker_deps {[ "eventType" := ["resp.v1"] ]})
         (bytes_of_string "ping") = Returns o ∧
       async.enqueued o = [] ∧
       ∃ e, async.err o = Some e ∧ errors_Is e async.SkipRetry = true.
Proof.
  destruct (eventType_only_as_Eventtype
              (worker_deps {[ "eventType" := ["resp.v1"] ]})
              (bytes_of_string "ping")
              {| async.Method := "GET"; async.Url := "/echo";
                 async.Header := {[ "eventType" := ["resp.v1"] ]};
                 async.Body := bytes_of_string "ping" |})
    as [_ Hreturns]; [reflexivity|reflexivity|].
  eexists. split; [reflexivity|]. apply Hreturns. reflexivity.
Defined.

(** The same request in a task whose payload holds no project: the
    call panics. *)
Example eventType_as_sent_nil_project :
  async.ProcessTask (worker_deps_nil_project {[ "eventType" := ["resp.v1"] ]})
    (bytes_of_string "ping") = Panics.
Proof. reflexivity. Qed.
